(** * chat-engine: the presence-synchronised room and its middleware queue

    A shallow embedding of [src/index.js]: the [Chat] and [User] classes, the
    [Event] adapter and the plugin queue, over an explicit store.  Objects
    that JavaScript shares by reference ([User]s, [Chat]s) live in two heaps
    and are named by their index; the maps of the source ([ChatEngine.users],
    [chat.users], [user.states], ...) are finite maps keyed by strings.
    Ids are data of the run: a lookup by id in [ChatEngine.users] or in a
    roster is the lookup of a plain object, which also finds the members
    every object inherits from [Object.prototype] ([property]).
    Everything the code asks of its collaborators (the transport, the
    authorisation service, the local event emitter) is recorded, in order, in
    a trace of effects.

    What is left out: the listeners behind the local emitter and the bodies
    of plugin handlers (a handler is the call it makes to [next]); inherited
    members in the tables the program itself keys (the stages and event
    names of a plugin's handlers, the [Event]s of a chat, the states and
    chats of a user); properties written to a heap object or to a built-in
    that is passed as a payload; and the sharing of a state object between a
    user and the notifications that carried it (a notification holds the
    state as it was when triggered).  [async/waterfall] is modelled from its
    documented behaviour.  Of [history] only the callback that receives the
    answer is modelled, and [invite] is not: their requests have no
    counterpart among the recorded effects. *)

From Stdlib Require Import String Ascii ZArith List Lia.
From stdpp Require Import base option gmap strings pretty list fin_maps.

Set Warnings "-register-all".
Local Open Scope string_scope.

(** ** JavaScript values *)

(** The values that travel in payloads.  Plain objects are finite maps from
    property names to values; a [User] or a [Chat] inside a payload is a
    reference into the corresponding heap.  [VNum z] is the integer [z],
    for [z] that JavaScript represents exactly (below [2^53] in magnitude);
    other numbers have no value here.  [VNative k] is the member of
    [Object.prototype] named [k], which every plain object inherits: a
    built-in function, or the prototype itself for [__proto__]. *)
Inductive value : Type :=
  | VUndef
  | VNull
  | VBool (b : bool)
  | VNum (z : Z)
  | VStr (s : string)
  | VObj (fields : gmap string value)
  | VUser (l : nat)
  | VChat (c : nat)
  | VNative (k : string).

(** [typeof v == "object"]: objects and [null]; a function is none. *)
Definition is_object (v : value) : bool :=
  match v with
  | VNull | VObj _ | VUser _ | VChat _ => true
  | VNative k => bool_decide (k = "__proto__")
  | _ => false
  end.

(** JavaScript truthiness, as used by [!x], [x && y] and [x || y]. *)
Definition truthy (v : value) : bool :=
  match v with
  | VUndef | VNull => false
  | VBool b => b
  | VNum z => negb (Z.eqb z 0)
  | VStr s => negb (String.eqb s "")
  | VObj _ | VUser _ | VChat _ | VNative _ => true
  end.

(** [o.k] on a plain object: [undefined] when the property is absent. *)
Definition get_field (k : string) (fields : gmap string value) : value :=
  default VUndef (fields !! k).

(** ** Channel names *)

(** [Array.prototype.join]. *)
Definition join (sep : string) (parts : list string) : string :=
  String.concat sep parts.

(** [hay.indexOf(needle) == -1]. *)
Definition indexOf_is_minus1 (hay needle : string) : bool :=
  match String.index 0 needle hay with
  | None => true
  | Some _ => false
  end.

(** Lines 291-300 of the [Chat] constructor: the canonical channel. *)
Definition chat_channel (globalChannel channel : string) (needGrant : bool) : string :=
  let chanPrivString := if needGrant then "private." else "public." in
  if indexOf_is_minus1 channel globalChannel
  then join ":" [globalChannel; "chat"; chanPrivString; channel]
  else channel.

(** Lines 945-955 of the [User] constructor: the names handed to [new Chat]
    for the feed and the direct room; [globalChat_channel] is
    [ChatEngine.globalChat.channel]. *)
Definition feed_name (globalChat_channel uuid : string) : string :=
  join ":" [globalChat_channel; "user"; uuid; "read."; "feed"].

Definition direct_name (globalChat_channel uuid : string) : string :=
  join ":" [globalChat_channel; "user"; uuid; "write."; "direct"].

(** ** The store *)

(** A plugin's middleware handler [(payload, next) => ...] is modelled by
    the call it makes to [next]: [Next err payload] stands for
    [next(err, payload)].  Handlers that throw, never call [next], or call
    it from a later turn of the event loop are outside this model. *)
Inductive callback : Type :=
  | Next (err : value) (payload : value).

Definition err_of (r : callback) : value := let '(Next err _) := r in err.
Definition payload_of (r : callback) : value := let '(Next _ payload) := r in payload.

Definition Handler : Type := value -> callback.

(** A plugin module: its namespace and [module.middleware], a map from the
    location (['emit'], ['on']) to a map from event names to handlers. *)
Record Plugin : Type := mkPlugin {
  namespace : string;
  middleware : option (gmap string (gmap string Handler))
}.

(** The fields of a [Chat] that the code reads or writes.  [autoConnect] is
    the constructor argument captured by [onPrep]. *)
Record Chat : Type := mkChat {
  channel : string;
  users : gmap string nat;
  events : gset string;
  plugins : list Plugin;
  connected : bool;
  autoConnect : bool
}.

(** A [User]; [isMe] is [this.constructor.name == "Me"]. *)
Record User : Type := mkUser {
  uuid : string;
  states : gmap string (gmap string value);
  chats : gmap string nat;
  feed : nat;
  direct : nat;
  isMe : bool;
  authData : value
}.

(** What the code asks of its collaborators, in the order it asks. *)
Inductive effect : Type :=
  | Publish (chan : string) (message : value)
  | Subscribe (chan : string)
  | Unsubscribe (chan : string)
  | HereNow (chan : string)
  | AddListener
  | SetState (chan : string) (st : option (gmap string value))
  | PostGrant (chan : string)
  | ConsoleLog
  | Ran (c : nat) (location event : string) (step : option nat) (input : value)
  | Local (c : nat) (event : string) (payload : value).

(** The [ChatEngine] object together with the two heaps.  [None] for
    [globalChat] and [me] is the [false] they are initialised with.  The
    transport handle [ChatEngine.pubnub] is taken to exist: the store
    describes a session from the moment [ChatEngine.connect] has built it. *)
Record World : Type := mkWorld {
  globalChannel : string;
  ce_users : gmap string nat;
  globalChat : option nat;
  me : option nat;
  user_heap : list User;
  chat_heap : list Chat;
  trace : list effect
}.

Definition set_ce_users (f : gmap string nat -> gmap string nat) (w : World) : World :=
  mkWorld (globalChannel w) (f (ce_users w)) (globalChat w) (me w)
          (user_heap w) (chat_heap w) (trace w).

Definition set_globalChat (g : option nat) (w : World) : World :=
  mkWorld (globalChannel w) (ce_users w) g (me w)
          (user_heap w) (chat_heap w) (trace w).

Definition set_me (m : option nat) (w : World) : World :=
  mkWorld (globalChannel w) (ce_users w) (globalChat w) m
          (user_heap w) (chat_heap w) (trace w).

Definition set_user_heap (f : list User -> list User) (w : World) : World :=
  mkWorld (globalChannel w) (ce_users w) (globalChat w) (me w)
          (f (user_heap w)) (chat_heap w) (trace w).

Definition set_chat_heap (f : list Chat -> list Chat) (w : World) : World :=
  mkWorld (globalChannel w) (ce_users w) (globalChat w) (me w)
          (user_heap w) (f (chat_heap w)) (trace w).

Definition log (e : list effect) (w : World) : World :=
  mkWorld (globalChannel w) (ce_users w) (globalChat w) (me w)
          (user_heap w) (chat_heap w) (trace w ++ e).

(** ** Computations: state and exceptions *)

(** [NotModelled] is no exception of the source: it marks the few places
    where the source goes on in a way the model does not follow (a property
    written to a member of [Object.prototype], a comparison that converts
    its operands).  Nothing is said of the source there. *)
Inductive exn : Type :=
  | TypeError
  | InvalidReference
  | NotModelled.

(** A method either returns normally or throws; in both cases the store
    keeps the mutations made so far. *)
Inductive result (A : Type) : Type :=
  | Normal (a : A) (w : World)
  | Thrown (e : exn) (w : World).
Arguments Normal {A} a w.
Arguments Thrown {A} e w.

Definition M (A : Type) : Type := World -> result A.

Definition ret {A} (a : A) : M A := fun w => Normal a w.

Definition bind {A B} (m : M A) (k : A -> M B) : M B :=
  fun w => match m w with
           | Normal a w' => k a w'
           | Thrown e w' => Thrown e w'
           end.

Notation "'let*' x ':=' m 'in' k" := (bind m (fun x => k))
  (at level 10, x name, m at level 100, k at level 200).
Notation "m >>> k" := (bind m (fun _ => k))
  (at level 90, right associativity).

Definition throw {A} (e : exn) : M A := fun w => Thrown e w.
Definition gets {A} (f : World -> A) : M A := fun w => Normal (f w) w.
Definition modify (f : World -> World) : M unit := fun w => Normal tt (f w).
Definition when (b : bool) (m : M unit) : M unit := if b then m else ret tt.

Definition final_world {A} (r : result A) : World :=
  match r with Normal _ w => w | Thrown _ w => w end.

(** Heap access.  A reference always designates a live object in
    JavaScript; [InvalidReference] only arises for stores that are not
    well formed. *)
Definition get_chat (c : nat) : M Chat :=
  fun w => match chat_heap w !! c with
           | Some ch => Normal ch w
           | None => Thrown InvalidReference w
           end.

Definition put_chat (c : nat) (ch : Chat) : M unit :=
  modify (set_chat_heap (fun h => <[c := ch]> h)).

Definition get_user (l : nat) : M User :=
  fun w => match user_heap w !! l with
           | Some u => Normal u w
           | None => Thrown InvalidReference w
           end.

Definition put_user (l : nat) (u : User) : M unit :=
  modify (set_user_heap (fun h => <[l := u]> h)).

Definition set_users (f : gmap string nat -> gmap string nat) (ch : Chat) : Chat :=
  mkChat (channel ch) (f (users ch)) (events ch) (plugins ch) (connected ch) (autoConnect ch).

Definition set_events (f : gset string -> gset string) (ch : Chat) : Chat :=
  mkChat (channel ch) (users ch) (f (events ch)) (plugins ch) (connected ch) (autoConnect ch).

Definition set_plugins (f : list Plugin -> list Plugin) (ch : Chat) : Chat :=
  mkChat (channel ch) (users ch) (events ch) (f (plugins ch)) (connected ch) (autoConnect ch).

Definition set_connected (b : bool) (ch : Chat) : Chat :=
  mkChat (channel ch) (users ch) (events ch) (plugins ch) b (autoConnect ch).

Definition set_states (f : gmap string (gmap string value) -> gmap string (gmap string value))
    (u : User) : User :=
  mkUser (uuid u) (f (states u)) (chats u) (feed u) (direct u) (isMe u) (authData u).

Definition set_chats (f : gmap string nat -> gmap string nat) (u : User) : User :=
  mkUser (uuid u) (states u) (f (chats u)) (feed u) (direct u) (isMe u) (authData u).

Definition set_authData (a : value) (u : User) : User :=
  mkUser (uuid u) (states u) (chats u) (feed u) (direct u) (isMe u) a.

(** ** The plugin queue *)

(** [plugins[i].middleware && plugins[i].middleware[location]
    && plugins[i].middleware[location][event]]. *)
Definition handler_of (p : Plugin) (location event : string) : option Handler :=
  match middleware p with
  | Some mw => match mw !! location with
               | Some evs => evs !! event
               | None => None
               end
  | None => None
  end.

(** The loop of [runPluginQueue] (lines 839-852), from plugin index [i]
    on: the handlers the plugins define for this location and event, in
    the order of [this.plugins], each with the index of its plugin. *)
Fixpoint plugin_steps (i : nat) (ps : list Plugin) (location event : string)
    : list (option nat * Handler) :=
  match ps with
  | [] => []
  | p :: ps' =>
      match handler_of p location event with
      | Some h => (Some i, h) :: plugin_steps (S i) ps' location event
      | None => plugin_steps (S i) ps' location event
      end
  end.

(** [plugin_queue]: [first] and then the plugins' handlers.  [first] takes
    no payload; it is called on [undefined]. *)
Definition plugin_queue (first : callback) (ps : list Plugin) (location event : string)
    : list (option nat * Handler) :=
  (None, fun _ => first) :: plugin_steps 0 ps location event.

(** [async/waterfall] from the task [t] on: call it with the previous
    result; on [next(err, ...)] with a truthy [err], or after the last
    task, hand the arguments of [next] to the final callback; otherwise go
    on with the next task.  The first component lists the tasks that were
    called, with their inputs. *)
Fixpoint run_tasks (t : option nat * Handler) (rest : list (option nat * Handler))
    (input : value) : list (option nat * value) * callback :=
  let r := snd t input in
  match rest with
  | [] => ([(fst t, input)], r)
  | t' :: rest' =>
      if truthy (err_of r) then ([(fst t, input)], r)
      else let '(called, r') := run_tasks t' rest' (payload_of r) in
           ((fst t, input) :: called, r')
  end.

Definition waterfall (tasks : list (option nat * Handler))
    : list (option nat * value) * callback :=
  match tasks with
  | [] => ([], Next VUndef VUndef)
  | t :: rest => run_tasks t rest VUndef
  end.

(** The trace entries of a list of calls made for chat [c]. *)
Definition ran (c : nat) (location event : string) (called : list (option nat * value))
    : list effect :=
  map (fun '(i, v) => Ran c location event i v) called.

(** [runPluginQueue(location, event, first, last)]: returns the arguments
    with which [last] is called; every task that ran is logged. *)
Definition runPluginQueue (c : nat) (location event : string) (first : callback)
    : M callback :=
  let* ch := get_chat c in
  let '(called, r) := waterfall (plugin_queue first (plugins ch) location event) in
  modify (log (ran c location event called)) >>>
  ret r.

(** [Emitter.plugin] (lines 234-261): the module joins [this.plugins].  The
    child object it may attach under its namespace plays no part in the
    queue and is not recorded. *)
Definition plugin (c : nat) (module : Plugin) : M unit :=
  let* ch := get_chat c in
  put_chat c (set_plugins (fun ps => (ps ++ [module])%list) ch).

(** ** Local delivery and publication *)

(** [ChatEngine.users] and [chat.users] are plain objects: [o[k]] finds
    the own property [k] and, without one, what [o] inherits from
    [Object.prototype] under that name. *)
Definition inherited (k : string) : bool :=
  bool_decide (k ∈ ["constructor"; "toString"; "toLocaleString"; "valueOf";
                    "hasOwnProperty"; "isPrototypeOf"; "propertyIsEnumerable";
                    "__proto__"; "__defineGetter__"; "__defineSetter__";
                    "__lookupGetter__"; "__lookupSetter__"]).

(** What [o[k]] is for an object whose own properties are users: the user,
    the inherited member [VNative k] (truthy, and no [User]), or
    [undefined].  The program never enumerates these objects, so an
    inherited member stored back under its own name (lines 660 and 705)
    reads as the inherited one does, and is kept out of the map. *)
Inductive slot : Type :=
  | Own (l : nat)
  | Inherited
  | Missing.

Definition property (o : gmap string nat) (k : string) : slot :=
  match o !! k with
  | Some l => Own l
  | None => if inherited k then Inherited else Missing
  end.

(** The truthiness of [o[k]]. *)
Definition present (s : slot) : bool :=
  match s with
  | Own _ | Inherited => true
  | Missing => false
  end.

(** The text of the inherited member [k]: that of a plain object for the
    prototype, and for a built-in function its name in the form V8 gives
    it ([constructor] is the function [Object]). *)
Definition native_text (k : string) : string :=
  if bool_decide (k = "__proto__") then "[object Object]"
  else "function " +:+ (if bool_decide (k = "constructor") then "Object" else k)
       +:+ "() { [native code] }".

(** The property key a value is converted to in [ChatEngine.users[v]]; an
    integer is written in its decimal digits. *)
Definition to_key (v : value) : string :=
  match v with
  | VUndef => "undefined"
  | VNull => "null"
  | VBool true => "true"
  | VBool false => "false"
  | VNum z => pretty z
  | VStr s => s
  | VObj _ | VUser _ | VChat _ => "[object Object]"
  | VNative k => native_text k
  end.

(** Lines 622-634 of [trigger]: a payload without [chat] gets this chat;
    a [sender] for which [ChatEngine.users] has something becomes that: the
    user of that name or, for a name that is no user's, the inherited
    member.  A heap object passed as the payload itself is left as it is
    (the property it would gain is not recorded in the heaps); on the
    prototype itself the property would show in every object. *)
Definition restore (c : nat) (known : gmap string nat) (payload : value) : option value :=
  if negb (is_object payload) then Some payload else
  match payload with
  | VNull => None
  | VObj fs =>
      let fs1 := if truthy (get_field "chat" fs) then fs else <["chat" := VChat c]> fs in
      let sender := get_field "sender" fs1 in
      let fs2 := if truthy sender
                 then match property known (to_key sender) with
                      | Own l => <["sender" := VUser l]> fs1
                      | Inherited => <["sender" := VNative (to_key sender)]> fs1
                      | Missing => fs1
                      end
                 else fs1 in
      Some (VObj fs2)
  | VNative _ => None
  | v => Some v
  end.

(** What [trigger] throws where [restore] gives nothing: reading
    [payload.chat] of [null] is a [TypeError]. *)
Definition restore_failure (payload : value) : exn :=
  match payload with
  | VNull => TypeError
  | _ => NotModelled
  end.

(** [trigger(event, payload)] (lines 620-646).  [last] does not look at
    [err]: [this._emit] is called with whatever payload the queue ended
    with. *)
Definition trigger (c : nat) (event : string) (payload : value) : M unit :=
  let* known := gets ce_users in
  match restore c known payload with
  | None => throw (restore_failure payload)
  | Some payload1 =>
      let* r := runPluginQueue c "on" event (Next VNull payload1) in
      modify (log [Local c event (payload_of r)])
  end.

(** [ChatEngine.me.uuid]; [false.uuid] is [undefined]. *)
Definition me_uuid : M value :=
  let* m := gets me in
  match m with
  | None => ret VUndef
  | Some l => let* u := get_user l in ret (VStr (uuid u))
  end.

(** [this.events[event] = this.events[event] || new Event(this, event)]:
    a new [Event] registers a message listener with the transport. *)
Definition ensure_event (c : nat) (event : string) : M unit :=
  let* ch := get_chat c in
  if decide (event ∈ events ch) then ret tt
  else put_chat c (set_events (fun es => {[event]} ∪ es) ch) >>>
       modify (log [AddListener]).

(** [Event.publish] (lines 146-155), in strict mode: assigning [m.event]
    on a primitive or on [undefined]/[null] is a [TypeError].  The property
    a heap object or a built-in gains is not recorded. *)
Definition publish (c : nat) (event : string) (m : value) : M unit :=
  let* ch := get_chat c in
  match m with
  | VObj fs => modify (log [Publish (channel ch) (VObj (<["event" := VStr event]> fs))])
  | VUser _ | VChat _ | VNative _ => modify (log [Publish (channel ch) m])
  | _ => throw TypeError
  end.

(** [emit(event, data)] (lines 583-611).  [last] does not look at [err]
    either; [delete payload.chat] throws when the queue ended without a
    payload. *)
Definition emit (c : nat) (event : string) (data : value) : M unit :=
  let* sender := me_uuid in
  let payload := VObj (<["chat" := VChat c]> (<["sender" := sender]> {["data" := data]})) in
  let* r := runPluginQueue c "emit" event (Next VNull payload) in
  match payload_of r with
  | VUndef | VNull => throw TypeError
  | _ =>
      let payload2 := match payload_of r with
                      | VObj fs => VObj (delete "chat" fs)
                      | v => v
                      end in
      ensure_event c event >>>
      publish c event payload2
  end.

(** [Event.onMessage] (lines 163-169) for the [Event] bound to [event] on
    chat [c]: a message on this channel carrying this event name is handed
    to [trigger].  [m.message.event == event] is decided here for a string,
    [undefined] and [null]; for another [event] property the comparison
    converts, and a [User], a [Chat] or a built-in is no message of the
    transport. *)
Definition onMessage (c : nat) (event : string) (m_channel : string) (m_message : value)
    : M unit :=
  let* ch := get_chat c in
  if decide (channel ch = m_channel) then
    match m_message with
    | VUndef | VNull => throw TypeError
    | VObj fs =>
        match get_field "event" fs with
        | VStr e => if decide (e = event) then trigger c e m_message else ret tt
        | VUndef | VNull => ret tt
        | _ => throw NotModelled
        end
    | VBool _ | VNum _ | VStr _ => ret tt
    | VUser _ | VChat _ | VNative _ => throw NotModelled
    end
  else ret tt.

(** ** The [Chat] life cycle *)

(** [connect] (lines 513-540). *)
Definition connect (c : nat) : M unit :=
  let* ch := get_chat c in
  when (negb (connected ch))
       (modify (log [AddListener; Subscribe (channel ch); HereNow (channel ch)])).

(** [onPrep] (lines 542-548). *)
Definition onPrep (c : nat) : M unit :=
  let* ch := get_chat c in
  when (autoConnect ch) (connect c).

(** [grant] (lines 550-564): the request is posted; its completion, which
    calls [onPrep], is a later event. *)
Definition grant (c : nat) : M unit :=
  let* ch := get_chat c in
  modify (log [PostGrant (channel ch)]).

(** [new Chat(channel, autoConnect, needGrant)]; returns the new chat. *)
Definition new_Chat (chan : string) (auto needGrant : bool) : M nat :=
  let* g := gets globalChannel in
  let* c := gets (fun w => length (chat_heap w)) in
  modify (set_chat_heap (fun h =>
    (h ++ [mkChat (chat_channel g chan needGrant) ∅ ∅ [] false auto])%list)) >>>
  (if needGrant then grant c else onPrep c) >>>
  ret c.

Record statusEvent : Type := mkStatus {
  se_error : bool;
  se_category : string;
  se_affectedChannels : list string
}.

(** [onStatus] (lines 352-379). *)
Definition onStatus (c : nat) (ev : statusEvent) : M unit :=
  when (se_error ev) (modify (log [ConsoleLog])) >>>
  let* ch := get_chat c in
  if decide (se_category ev = "PNConnectedCategory") then
    if decide (channel ch ∈ se_affectedChannels ev) then
      put_chat c (set_connected true ch) >>>
      trigger c "$.connected" VUndef
    else ret tt
  else ret tt.

(** [leave] (lines 737-743). *)
Definition leave (c : nat) : M unit :=
  let* ch := get_chat c in
  modify (log [Unsubscribe (channel ch)]).

(** [setState] (lines 868-880). *)
Definition setState (c : nat) (st : option (gmap string value)) : M unit :=
  let* ch := get_chat c in
  modify (log [SetState (channel ch) st]).

(** ** Users *)

(** [Object.assign(target, source)] for a source that is a plain object
    or absent. *)
Definition object_assign (target : gmap string value) (source : option (gmap string value))
    : gmap string value :=
  match source with
  | Some s => s ∪ target
  | None => target
  end.

(** [chat.channel] for the [chat] argument of the [User] methods, which
    may be the [false] that [ChatEngine.globalChat] starts as. *)
Definition chat_key (chat : option nat) : M string :=
  match chat with
  | None => ret "undefined"
  | Some c => let* ch := get_chat c in ret (channel ch)
  end.

(** [User.state] (lines 972-974). *)
Definition state (l : nat) (chat : option nat) : M (gmap string value) :=
  let* k := chat_key chat in
  let* u := get_user l in
  ret (default ∅ (states u !! k)).

(** [User.update] (lines 981-984). *)
Definition update (l : nat) (st : option (gmap string value)) (chat : option nat) : M unit :=
  let* chatState := state l chat in
  let* k := chat_key chat in
  let* u := get_user l in
  put_user l (set_states (fun ss => <[k := object_assign chatState st]> ss) u).

(** [User.assign] (lines 991-993) and [Me.assign] (lines 1033-1039) both
    end in [User.update]. *)
Definition assign (l : nat) (st : option (gmap string value)) (chat : option nat) : M unit :=
  update l st chat.

(** [Me.update] (lines 1048-1056). *)
Definition me_update (l : nat) (st : option (gmap string value)) (chat : option nat) : M unit :=
  update l st chat >>>
  match chat with
  | None => throw TypeError
  | Some c => setState c st
  end.

(** [User.addChat] (lines 1000-1007). *)
Definition addChat (l : nat) (c : nat) (st : option (gmap string value)) : M unit :=
  let* ch := get_chat c in
  let* u := get_user l in
  put_user l (set_chats (fun cs => <[channel ch := c]> cs) u) >>>
  assign l st (Some c).

(** [ChatEngine.globalChat.channel] inside [[...].join(':')], where
    [undefined] is rendered as the empty string. *)
Definition globalChat_channel : M string :=
  let* g := gets globalChat in
  match g with
  | None => ret ""
  | Some c => let* ch := get_chat c in ret (channel ch)
  end.

(** [new User(uuid, state, chat)] (lines 895-966), and the [super(uuid)]
    part of [new Me] when [is_me]; returns the new user. *)
Definition new_User (id : string) (st : option (gmap string value)) (chat : option nat)
    (is_me : bool) : M nat :=
  let* gc := globalChat_channel in
  let* f := new_Chat (feed_name gc id) is_me false in
  let* d := new_Chat (direct_name gc id) is_me false in
  let* l := gets (fun w => length (user_heap w)) in
  modify (set_user_heap (fun h => (h ++ [mkUser id ∅ ∅ f d is_me VUndef])%list)) >>>
  let* known := gets ce_users in
  when (negb (present (property known id)))
       (modify (set_ce_users (fun us => <[id := l]> us))) >>>
  assign l st chat >>>
  ret l.

(** [new Me(uuid, authData)] (lines 1023-1030). *)
Definition new_Me (id : string) (auth : value) : M nat :=
  let* g := gets globalChat in
  let* l := new_User id (Some ∅) g true in
  let* u := get_user l in
  put_user l (set_authData auth u) >>>
  ret l.

(** [ChatEngine.users[uuid] = ChatEngine.users[uuid] || new User(uuid)];
    returns what [ChatEngine.users[uuid]] is afterwards.  For an inherited
    member the assignment stores that member under its own name (nothing,
    for [__proto__]): [ChatEngine.users[uuid]] reads as before, and the
    table of users is as it was. *)
Definition ensure_user (id : string) : M slot :=
  let* known := gets ce_users in
  match property known id with
  | Own l => modify (set_ce_users (fun us => <[id := l]> us)) >>> ret (Own l)
  | Inherited => ret Inherited
  | Missing =>
      let* g := gets globalChat in
      let* l := new_User id (Some ∅) g false in
      modify (set_ce_users (fun us => <[id := l]> us)) >>>
      ret (Own l)
  end.

(** ** Presence reconciliation *)

(** [createUser(uuid, state, trigger)] (lines 656-694).  Between its
    statements nothing in this model touches [ChatEngine.users], so the
    entry read once stands for each [ChatEngine.users[uuid]] of the
    source.  An inherited member has no [addChat]: calling it is a
    [TypeError]. *)
Definition createUser (c : nat) (id : string) (st : option (gmap string value))
    (force : bool) : M nat :=
  let* entry := ensure_user id in
  match entry with
  | Own l =>
      addChat l c st >>>
      let* ch := get_chat c in
      when (negb (present (property (users ch) id)) || force)
           (trigger c "$.online.new" (VObj {["user" := VUser l]})) >>>
      let* ch := get_chat c in
      put_chat c (set_users (fun us => <[id := l]> us) ch) >>>
      ret l
  | Inherited | Missing => throw TypeError
  end.

(** [userUpdate(uuid, state)] (lines 702-732).  For an inherited member in
    place of the user, [.assign(state, this)] or, for [constructor] (whose
    [assign] is [Object.assign], which writes to the notification's state
    object only), [.state(this)] is a [TypeError]. *)
Definition userUpdate (c : nat) (id : string) (st : option (gmap string value)) : M unit :=
  let* _ := ensure_user id in
  let* ch := get_chat c in
  when (negb (present (property (users ch) id)))
       (let* _ := createUser c id st false in ret tt) >>>
  let* ch := get_chat c in
  match property (users ch) id with
  | Own l =>
      assign l st (Some c) >>>
      let* merged := state l (Some c) in
      trigger c "$.state" (VObj (<["state" := VObj merged]> {["user" := VUser l]}))
  | Inherited | Missing => throw TypeError
  end.

(** What [this.users[uuid]] evaluates to when it is truthy. *)
Definition found (s : slot) (k : string) : option value :=
  match s with
  | Own l => Some (VUser l)
  | Inherited => Some (VNative k)
  | Missing => None
  end.

(** [userLeave(uuid)] (lines 750-785).  For an id that is not in the
    roster and names an inherited member, [this.users[uuid]] is that
    member: it is announced as the user who left, and [delete] finds no own
    property to remove. *)
Definition userLeave (c : nat) (id : string) : M unit :=
  let* ch := get_chat c in
  match found (property (users ch) id) id with
  | Some who =>
      trigger c "$.offline.leave" (VObj {["user" := who]}) >>>
      let* ch := get_chat c in
      put_chat c (set_users (fun us => delete id us) ch)
  | None => ret tt
  end.

(** [userDisconnect(uuid)] (lines 793-817); likewise with
    [$.offline.disconnect]. *)
Definition userDisconnect (c : nat) (id : string) : M unit :=
  let* ch := get_chat c in
  match found (property (users ch) id) id with
  | Some who => trigger c "$.offline.disconnect" (VObj {["user" := who]})
  | None => ret tt
  end.

Record presenceEvent : Type := mkPresence {
  pe_action : string;
  pe_uuid : string;
  pe_state : option (gmap string value);
  pe_channel : string
}.

(** [onPresence] (lines 462-506). *)
Definition onPresence (c : nat) (ev : presenceEvent) : M unit :=
  let* ch := get_chat c in
  if decide (channel ch = pe_channel ev) then
    when (bool_decide (pe_action ev = "join"))
         (let* l := createUser c (pe_uuid ev) (pe_state ev) false in
          trigger c "$.online.join" (VObj {["user" := VUser l]})) >>>
    when (bool_decide (pe_action ev = "leave"))
         (userLeave c (pe_uuid ev)) >>>
    when (bool_decide (pe_action ev = "timeout"))
         (userDisconnect c (pe_uuid ev)) >>>
    when (bool_decide (pe_action ev = "state-change"))
         (userUpdate c (pe_uuid ev) (pe_state ev))
  else ret tt.

(** The loop of [onHereNow] (lines 338-340) over the occupants. *)
Fixpoint each_occupant (c : nat) (occupants : list (string * option (gmap string value)))
    : M unit :=
  match occupants with
  | [] => ret tt
  | (id, st) :: rest => userUpdate c id st >>> each_occupant c rest
  end.

(** [onHereNow] (lines 328-344). *)
Definition onHereNow (c : nat) (error : bool)
    (occupants : list (string * option (gmap string value))) : M unit :=
  if error then modify (log [ConsoleLog]) else each_occupant c occupants.

(** ** The session *)

(** The [complete] step of [ChatEngine.connect] (lines 1114-1138). *)
Definition connect_complete (id : string) (st : option (gmap string value)) (auth : value)
    : M unit :=
  let* g := gets globalChannel in
  let* gchat := new_Chat g true false in
  modify (set_globalChat (Some gchat)) >>>
  let* m := new_Me id auth in
  modify (set_me (Some m)) >>>
  let* _ := createUser gchat id st false in
  me_update m st (Some gchat) >>>
  ensure_event gchat "$.connected".

(** A fresh [ChatEngine] as [init] leaves it (lines 1066-1096). *)
Definition init (g : string) : World :=
  mkWorld g ∅ None None [] [] [].

(** What can happen to a session: the calls the application makes and the
    notifications the transport and the authorisation service deliver. *)
Inductive action : Type :=
  | DoConnect (id : string) (st : option (gmap string value)) (auth : value)
  | DoNewChat (chan : string) (auto needGrant : bool)
  | DoNewUser (id : string) (st : option (gmap string value)) (chat : option nat)
  | DoPlugin (c : nat) (module : Plugin)
  | DoChatConnect (c : nat)
  | DoLeave (c : nat)
  | DoEmit (c : nat) (event : string) (data : value)
  | DoMeUpdate (st : option (gmap string value)) (chat : option nat)
  | OnGranted (c : nat)
  | OnStatus (c : nat) (ev : statusEvent)
  | OnPresence (c : nat) (ev : presenceEvent)
  | OnHereNow (c : nat) (error : bool) (occupants : list (string * option (gmap string value)))
  | OnMessage (c : nat) (event : string) (chan : string) (message : value).

Definition perform (a : action) : M unit :=
  match a with
  | DoConnect id st auth => connect_complete id st auth
  | DoNewChat chan auto needGrant => let* _ := new_Chat chan auto needGrant in ret tt
  | DoNewUser id st chat => let* _ := new_User id st chat false in ret tt
  | DoPlugin c module => plugin c module
  | DoChatConnect c => connect c
  | DoLeave c => leave c
  | DoEmit c event data => emit c event data
  | DoMeUpdate st chat =>
      let* m := gets me in
      match m with
      | Some l => me_update l st chat
      | None => throw TypeError
      end
  | OnGranted c => onPrep c
  | OnStatus c ev => onStatus c ev
  | OnPresence c ev => onPresence c ev
  | OnHereNow c error occupants => onHereNow c error occupants
  | OnMessage c event chan message => onMessage c event chan message
  end.

(** A run of the event loop: each action runs to completion on the store
    the previous one left, whether it returned or threw. *)
Fixpoint run (acts : list action) (w : World) : World :=
  match acts with
  | [] => w
  | a :: rest => run rest (final_world (perform a w))
  end.

(** ** Vocabulary of the statements *)

(** The payload that reaches the end of [tasks] when each of them passes
    (calls [next] with a falsy [err]); [None] as soon as one fails. *)
Fixpoint thread (tasks : list (option nat * Handler)) (v : value) : option value :=
  match tasks with
  | [] => Some v
  | t :: ts => if truthy (err_of (snd t v)) then None
               else thread ts (payload_of (snd t v))
  end.

(** The specification's words for what the queue holds: "every registered
    plugin's handler for [(stage, eventName)] if one exists", "in
    plugin-registration order".  The handler a plugin registers for a stage
    and an event name is the entry of its table of handlers under the stage
    and, there, under the event name. *)
Definition registered_handler (p : Plugin) (stage event : string) : option Handler :=
  mw ← middleware p; evs ← mw !! stage; evs !! event.

Definition registered_handlers (ps : list Plugin) (stage event : string) : list Handler :=
  omap (fun p => registered_handler p stage event) ps.

(** The calls made to [tasks] when each is fed the output of the one
    before it. *)
Fixpoint calls (tasks : list (option nat * Handler)) (v : value) : list (option nat * value) :=
  match tasks with
  | [] => []
  | t :: ts => (fst t, v) :: calls ts (payload_of (snd t v))
  end.

(** The local deliveries of [event] in a trace. *)
Definition is_local (event : string) (e : effect) : bool :=
  match e with
  | Local _ ev _ => bool_decide (ev = event)
  | _ => false
  end.

Definition deliveries (event : string) (tr : list effect) : nat :=
  length (List.filter (is_local event) tr).

(** The publications in a trace. *)
Definition is_publish (e : effect) : bool :=
  match e with
  | Publish _ _ => true
  | _ => false
  end.

(** The handler calls in a trace. *)
Definition is_ran (e : effect) : bool :=
  match e with
  | Ran _ _ _ _ _ => true
  | _ => false
  end.

(** What a call of [trigger] adds to the trace of a chat with plugins
    [ps]: the calls of the queue, then the local delivery of what the queue
    ended with.  [payload1] is the payload after [restore]. *)
Definition told (c : nat) (ps : list Plugin) (event : string) (payload1 : value)
    : list effect :=
  (ran c "on" event (fst (waterfall (plugin_queue (Next VNull payload1) ps "on" event)))
   ++ [Local c event
         (payload_of (snd (waterfall (plugin_queue (Next VNull payload1) ps "on" event))))])%list.

(** The payload of a lifecycle notification about user [l], and of a
    state notification, as the listeners of chat [c] see them when no
    handler changes them. *)
Definition about_user (c l : nat) : value :=
  VObj (<["chat" := VChat c]> {["user" := VUser l]}).

Definition about_state (c l : nat) (st : gmap string value) : value :=
  VObj (<["chat" := VChat c]> (<["state" := VObj st]> {["user" := VUser l]})).

(** The payload of a lifecycle notification when the inherited member [k]
    stands where the user would. *)
Definition about_member (c : nat) (k : string) : value :=
  VObj (<["chat" := VChat c]> {["user" := VNative k]}).

(** The roster of chat [c]; empty for a dangling reference. *)
Definition roster (c : nat) (w : World) : gmap string nat :=
  match chat_heap w !! c with
  | Some ch => users ch
  | None => ∅
  end.

(** The [connected] flag of chat [c]. *)
Definition is_connected (c : nat) (w : World) : bool :=
  match chat_heap w !! c with
  | Some ch => connected ch
  | None => false
  end.

(** The state user [l] has under the channel key [k]. *)
Definition state_in (l : nat) (k : string) (w : World) : gmap string value :=
  match user_heap w !! l with
  | Some u => default ∅ (states u !! k)
  | None => ∅
  end.

(** [ChatEngine.globalChat.channel] as [new User] reads it: inside the
    joined name ([gname]) and as the key of the state map ([gkey]). *)
Definition gname (w : World) : string :=
  match globalChat w with
  | Some g => match chat_heap w !! g with Some ch => channel ch | None => "" end
  | None => ""
  end.

Definition gkey (w : World) : string :=
  match globalChat w with
  | Some g => match chat_heap w !! g with Some ch => channel ch | None => "" end
  | None => "undefined"
  end.

(** [ChatEngine.globalChat] is [false] or a live chat. *)
Definition global_ok (w : World) : Prop :=
  match globalChat w with
  | Some g => g < length (chat_heap w)
  | None => True
  end.

(** The store after [new User(id)] for an id the global table lacks: the
    feed and direct chats, the user, its entry in the table, and its empty
    state under the global chat's key. *)
Definition with_new_user (id : string) (w : World) : World :=
  mkWorld (globalChannel w)
    (<[id := length (user_heap w)]> (ce_users w))
    (globalChat w) (me w)
    (user_heap w
     ++ [mkUser id {[gkey w := ∅]} ∅
           (length (chat_heap w)) (S (length (chat_heap w))) false VUndef])
    (chat_heap w
     ++ [mkChat (chat_channel (globalChannel w) (feed_name (gname w) id) false) ∅ ∅ [] false false;
         mkChat (chat_channel (globalChannel w) (direct_name (gname w) id) false) ∅ ∅ [] false false])
    (trace w).

(** The user after [addChat(chat, state)] for a chat with channel [k]. *)
Definition joined (k : string) (c : nat) (st : option (gmap string value)) (u : User) : User :=
  set_states (fun ss => <[k := object_assign (default ∅ (states u !! k)) st]> ss)
    (set_chats (fun cs => <[k := c]> cs) u).

(** The global table names live users by their own id, and every roster
    entry is the table's entry for that id. *)
Definition table_ok (w : World) : Prop :=
  map_Forall (fun id l => uuid <$> (user_heap w !! l) = Some id) (ce_users w).

Definition rosters_ok (w : World) : Prop :=
  Forall (fun ch => map_Forall (fun id l => ce_users w !! id = Some l) (users ch))
         (chat_heap w).

Definition well_formed (w : World) : Prop :=
  global_ok w /\ table_ok w /\ rosters_ok w.

(** What a state change for [id] leaves behind in chat [c], whose record
    was [ch] in [w]: [l] is the user, [w'] the store afterwards. *)
Definition updated (c : nat) (ch : Chat) (id : string) (st : option (gmap string value))
    (w : World) (l : nat) (w' : World) : Prop :=
  l = default (length (user_heap w)) (ce_users w !! id)
  /\ ce_users w' !! id = Some l
  /\ (exists ch', chat_heap w' !! c = Some ch'
                  /\ channel ch' = channel ch /\ plugins ch' = plugins ch
                  /\ users ch' = <[id := l]> (users ch))
  /\ is_Some (user_heap w' !! l)
  /\ state_in l (channel ch) w' = object_assign (state_in l (channel ch) w) st
  /\ trace w'
     = (trace w
        ++ (if present (property (users ch) id) then []
            else told c (plugins ch) "$.online.new" (about_user c l))
        ++ told c (plugins ch) "$.state" (about_state c l (state_in l (channel ch) w')))%list.

(** The same for a join. *)
Definition welcomed (c : nat) (ch : Chat) (id : string) (st : option (gmap string value))
    (force : bool) (w : World) (l : nat) (w' : World) : Prop :=
  l = default (length (user_heap w)) (ce_users w !! id)
  /\ ce_users w' !! id = Some l
  /\ (exists ch', chat_heap w' !! c = Some ch'
                  /\ channel ch' = channel ch /\ plugins ch' = plugins ch
                  /\ users ch' = <[id := l]> (users ch))
  /\ is_Some (user_heap w' !! l)
  /\ state_in l (channel ch) w' = object_assign (state_in l (channel ch) w) st
  /\ trace w'
     = (trace w
        ++ (if negb (present (property (users ch) id)) || force
            then told c (plugins ch) "$.online.new" (about_user c l) else []))%list.

#[global] Instance global_ok_dec w : Decision (global_ok w).
Proof. unfold global_ok. destruct (globalChat w); apply _. Defined.

#[global] Instance well_formed_dec w : Decision (well_formed w).
Proof. unfold well_formed, table_ok, rosters_ok. apply _. Defined.

(** [w'] comes after [w]: the global table has only grown, and no chat
    has disappeared. *)
Definition evolves (w w' : World) : Prop :=
  ce_users w ⊆ ce_users w' /\ length (chat_heap w) <= length (chat_heap w').

(** A property of stores that survives whatever comes after. *)
Definition stable (S : World -> Prop) : Prop :=
  forall w w', S w -> evolves w w' -> S w'.

(** A property of stores that does not read the trace. *)
Definition quiet (S : World -> Prop) : Prop :=
  forall w e, S w -> S (log e w).

(** [keeps P m Q]: run on a well-formed store satisfying [P], the method
    [m] leaves a well-formed store that comes after it, whether it returns
    or throws; when it returns [a], [Q a] holds of the store. *)
Definition keeps {A} (P : World -> Prop) (m : M A) (Q : A -> World -> Prop) : Prop :=
  forall w, well_formed w -> P w ->
    match m w with
    | Normal a w' => well_formed w' /\ evolves w w' /\ Q a w'
    | Thrown _ w' => well_formed w' /\ evolves w w'
    end.

(** A method that neither needs nor promises more than that. *)
Definition safe {A} (m : M A) : Prop := keeps (fun _ => True) m (fun _ _ => True).

(** A chat none of whose plugins has a handler for [event] at [location]. *)
Definition no_handler (ch : Chat) (location event : string) : Prop :=
  plugin_steps 0 (plugins ch) location event = [].

(** ** Sample plugins and stores *)

(** A handler that appends its name to the [trail] of the payload. *)
Definition mark (name : string) : Handler :=
  fun v => match v with
           | VObj fs =>
               let so_far := match get_field "trail" fs with VStr s => s | _ => "" end in
               Next VNull (VObj (<["trail" := VStr (so_far ++ name)]> fs))
           | _ => Next VNull v
           end.

(** Handlers that fail: without a payload, and handing the payload on. *)
Definition reject : Handler := fun _ => Next (VStr "rejected") VUndef.
Definition reject_keeping : Handler := fun v => Next (VStr "rejected") v.

Definition marker_plugin (name location event : string) : Plugin :=
  mkPlugin name (Some {[location := {[event := mark name]}]}).

Definition rejecting_plugin (h : Handler) (location event : string) : Plugin :=
  mkPlugin "guard" (Some {[location := {[event := h]}]}).

(** A store with one public room ["lobby"] (chat 0) and the given plugins. *)
Definition lobby_channel : string := "chat-engine:chat:public.:lobby".

Definition lobby (ps : list Plugin) : Chat :=
  mkChat lobby_channel ∅ ∅ ps false false.

Definition lobby_world (ps : list Plugin) : World :=
  mkWorld "chat-engine" ∅ None None [] [lobby ps] [].

(** ** The claims that the code does not meet, as predicates *)

(** "After a step fails, the event is not delivered to local listeners." *)
Definition aborted_trigger_is_silent (c : nat) (w : World) (event : string) (payload : value)
    : Prop :=
  forall ch seed pre t post v',
    chat_heap w !! c = Some ch ->
    restore c (ce_users w) payload = Some seed ->
    plugin_steps 0 (plugins ch) "on" event = (pre ++ t :: post)%list ->
    thread pre seed = Some v' ->
    truthy (err_of (snd t v')) = true ->
    deliveries event (trace (final_world (trigger c event payload w)))
    = deliveries event (trace w).

(** "After a step fails, the event is not published." *)
Definition aborted_emit_is_silent (c : nat) (w : World) (event : string) (data : value)
    : Prop :=
  forall ch sender pre t post v',
    chat_heap w !! c = Some ch ->
    me_uuid w = Normal sender w ->
    plugin_steps 0 (plugins ch) "emit" event = (pre ++ t :: post)%list ->
    thread pre (VObj (<["chat" := VChat c]> (<["sender" := sender]> {["data" := data]})))
      = Some v' ->
    truthy (err_of (snd t v')) = true ->
    List.filter is_publish (trace (final_world (emit c event data w)))
    = List.filter is_publish (trace w).

(** "A second identical connected notification is a no-op: one
    [$.connected] for the two." *)
Definition connected_once (c : nat) (ev : statusEvent) (w : World) : Prop :=
  deliveries "$.connected" (trace (run [OnStatus c ev; OnStatus c ev] w))
  = deliveries "$.connected" (trace w) + 1.




(** "An Identity for a given id is a process-wide singleton": no two users
    carry the same id. *)
Definition one_identity_per_id (w : World) : Prop :=
  forall l1 l2 u1 u2,
    user_heap w !! l1 = Some u1 ->
    user_heap w !! l2 = Some u2 ->
    uuid u1 = uuid u2 ->
    l1 = l2.

(** The store after [ChatEngine.connect("u1")] has completed twice. *)
Definition connected_twice : World :=
  run [DoConnect "u1" None VUndef; DoConnect "u1" None VUndef] (init "chat-engine").

(** "After [leave] the connected flag is no longer set." *)
Definition leave_disconnects (c : nat) (w : World) : Prop :=
  is_connected c (final_world (leave c w)) = false.

(** The connected notification for the sample room, and the store once it
    has been delivered. *)
Definition lobby_connected : statusEvent :=
  mkStatus false "PNConnectedCategory" [lobby_channel].

Definition connected_lobby_world : World :=
  mkWorld "chat-engine" ∅ None None []
    [mkChat lobby_channel ∅ ∅ [] true false] [].

(** A store in which ["u2"] (user 0) is in the sample room's roster. *)
Definition bob : User := mkUser "u2" ∅ ∅ 1 2 false VUndef.

Definition lobby_with_bob : World :=
  mkWorld "chat-engine" {["u2" := 0]} None None [bob]
    [mkChat lobby_channel {["u2" := 0]} ∅ [] false false;
     mkChat "chat-engine:chat:public.::user:u2:read.:feed" ∅ ∅ [] false false;
     mkChat "chat-engine:chat:public.::user:u2:write.:direct" ∅ ∅ [] false false]
    [].

(** A store with the global room only (chat 0), as [ChatEngine.connect]
    creates it. *)
Definition global_world : World :=
  mkWorld "chat-engine" ∅ (Some 0) None []
    [mkChat "chat-engine" ∅ ∅ [] false true] [].

(** The channel names as the specification writes them. *)
Definition spec_chat_channel (g id : string) (needGrant : bool) : string :=
  g ++ ":chat:" ++ (if needGrant then "private" else "public") ++ "." ++ id.

Definition spec_feed_channel (g uid : string) : string :=
  g ++ ":user:" ++ uid ++ ":read.feed".

Definition spec_direct_channel (g uid : string) : string :=
  g ++ ":user:" ++ uid ++ ":write.direct".

(** ** The answer to a history query *)

(** [v == s] for a string [s], in the cases JavaScript decides without
    converting [s] to a number: [undefined] and [null] equal no string, a
    string equals itself, an object is compared through its string form.
    For a number or a boolean [v] the string is converted, which is not
    modelled: [None]. *)
Definition loose_eq_string (v : value) (s : string) : option bool :=
  match v with
  | VUndef | VNull => Some false
  | VStr e => Some (bool_decide (e = s))
  | VObj _ | VUser _ | VChat _ => Some (bool_decide ("[object Object]" = s))
  | VNum _ | VBool _ | VNative _ => None
  end.

(** [['$', 'history', event].join('.')]. *)
Definition history_event (event : string) : string :=
  join "." ["$"; "history"; event].

(** The body of the [forEach] in the callback of [history] (lines 406-418)
    for one message with the given [entry]: reading [entry.event] throws
    for [undefined] and [null] and gives [undefined] for a primitive.
    [None] where the comparison is not modelled, and for a [User], a
    [Chat] or a built-in, which no answer of the transport contains. *)
Definition replay_entry (c : nat) (event : string) (entry : value) : option (M unit) :=
  match entry with
  | VUndef | VNull => Some (throw TypeError)
  | VObj fs =>
      match loose_eq_string (get_field "event" fs) event with
      | Some b => Some (when b (trigger c (history_event event) entry))
      | None => None
      end
  | VBool _ | VNum _ | VStr _ => Some (ret tt)
  | VUser _ | VChat _ | VNative _ => None
  end.

Fixpoint replay (c : nat) (event : string) (entries : list value) : option (M unit) :=
  match entries with
  | [] => Some (ret tt)
  | entry :: rest =>
      match replay_entry c event entry, replay c event rest with
      | Some m, Some k => Some (m >>> k)
      | _, _ => None
      end
  end.

(** The callback that [history] hands to the transport (lines 398-421),
    called with [response.error] and the entries of [response.messages]:
    it throws an [Error] made from [response.error], or replays the
    entries.  The query itself is not part of the trace. *)
Inductive history_outcome : Type :=
  | HistoryError (error : value)
  | HistoryReplayed (r : result unit).

Definition onHistory (c : nat) (event : string) (error : value) (entries : list value)
    (w : World) : option history_outcome :=
  if truthy error then Some (HistoryError error)
  else match replay c event entries with
       | Some m => Some (HistoryReplayed (m w))
       | None => None
       end.

(** ** Vocabulary of the further properties *)

(** Whether [id] is in a roster. *)
Definition member (id : string) (us : gmap string nat) : bool :=
  match us !! id with
  | Some _ => true
  | None => false
  end.

(** The roster a presence notification leaves behind, when [l] is the user
    that [ChatEngine.users] holds for its uuid. *)
Definition roster_after (ev : presenceEvent) (l : nat) (us : gmap string nat)
    : gmap string nat :=
  if bool_decide (pe_action ev = "join") || bool_decide (pe_action ev = "state-change")
  then <[pe_uuid ev := l]> us
  else if bool_decide (pe_action ev = "leave") then delete (pe_uuid ev) us
  else us.

(** What a run of presence notifications means for the membership of
    [id]: the last join or state change makes it present, the last leave
    absent, anything else leaves it as it was. *)
Definition presence_effect (id : string) (b : bool) (ev : presenceEvent) : bool :=
  if bool_decide (pe_uuid ev = id) then
    if bool_decide (pe_action ev = "join") || bool_decide (pe_action ev = "state-change")
    then true
    else if bool_decide (pe_action ev = "leave") then false
    else b
  else b.

Definition present_after (evs : list presenceEvent) (id : string) (b : bool) : bool :=
  fold_left (presence_effect id) evs b.

(** Each of the presence notifications [evs], delivered to chat [c] one
    after the other from the store [w], returns. *)
Fixpoint each_returns (c : nat) (evs : list presenceEvent) (w : World) : Prop :=
  match evs with
  | [] => True
  | ev :: rest => exists w', onPresence c ev w = Normal tt w' /\ each_returns c rest w'
  end.

(** The values whose property name [to_key] gives as JavaScript does: an
    integer has its decimal digits as long as it is below [2^53] in
    magnitude, a plain object is ["[object Object]"] unless it has a
    [toString] or a [valueOf] of its own, and the text of a built-in
    function is left to the engine. *)
Definition keyed (v : value) : bool :=
  match v with
  | VNum z => bool_decide (Z.abs z < 2 ^ 53)%Z
  | VObj fs => bool_decide (fs !! "toString" = None /\ fs !! "valueOf" = None)
  | VNative k => bool_decide (k = "__proto__")
  | _ => true
  end.

(** The payload [emit] hands to the first step of its queue. *)
Definition emit_seed (c : nat) (sender data : value) : value :=
  VObj (<["chat" := VChat c]> (<["sender" := sender]> {["data" := data]})).

(** A store in which ["ian"] (user 0) is the session's own user and is in
    the sample room's roster. *)
Definition ian : User := mkUser "ian" ∅ ∅ 1 2 true VUndef.

Definition lobby_with_ian : World :=
  mkWorld "chat-engine" {["ian" := 0]} None (Some 0) [ian]
    [mkChat lobby_channel {["ian" := 0]} ∅ [] false false;
     mkChat "chat-engine:chat:public.::user:ian:read.:feed" ∅ ∅ [] false true;
     mkChat "chat-engine:chat:public.::user:ian:write.:direct" ∅ ∅ [] false true]
    [].

(** The message [emit] publishes for [data] when no plugin steps in, and
    what the listeners of the receiving chat [c] are handed for it when its
    sender is the known user [l]. *)
Definition wire_message (event sender : string) (data : value) : value :=
  VObj (<["event" := VStr event]> (<["sender" := VStr sender]> {["data" := data]})).

Definition received_message (c : nat) (event : string) (l : nat) (data : value) : value :=
  VObj (<["chat" := VChat c]>
          (<["sender" := VUser l]> (<["event" := VStr event]> {["data" := data]}))).

(** The message listeners registered with the transport, counted. *)
Definition is_listener (e : effect) : bool :=
  match e with
  | AddListener => true
  | _ => false
  end.

Definition listeners (tr : list effect) : nat :=
  length (List.filter is_listener tr).

(** The sample store after its user has emitted ["msg"] once. *)
Definition lobby_after_emit : World :=
  final_world (emit 0 "msg" (VStr "hi") lobby_with_ian).

(** The subscriptions to [chan] in a trace. *)
Definition is_subscribe (chan : string) (e : effect) : bool :=
  match e with
  | Subscribe ch => bool_decide (ch = chan)
  | _ => false
  end.

Definition subscriptions (chan : string) (tr : list effect) : nat :=
  length (List.filter (is_subscribe chan) tr).

(** What [connect] asks of the transport for the channel [chan]. *)
Definition connecting (chan : string) : list effect :=
  [AddListener; Subscribe chan; HereNow chan].

(** The store [ChatEngine.connect(id, st, false, auth)] builds from a fresh
    [ChatEngine]: the global chat (chat 0) with the user in its roster, the
    user's feed and direct chats, and the user itself (user 0), which is
    [ChatEngine.me] and the table's entry for [id]. *)
Definition session (g id : string) (st : option (gmap string value)) (auth : value) : World :=
  mkWorld g {[id := 0]} (Some 0) (Some 0)
    [mkUser id {[g := object_assign ∅ st]} {[g := 0]} 1 2 true auth]
    [mkChat g {[id := 0]} {["$.connected"]} [] false true;
     mkChat (feed_name g id) ∅ ∅ [] false true;
     mkChat (direct_name g id) ∅ ∅ [] false true]
    (connecting g ++ connecting (feed_name g id) ++ connecting (direct_name g id)
     ++ [Ran 0 "on" "$.online.new" None VUndef;
         Local 0 "$.online.new" (about_user 0 0);
         SetState g st;
         AddListener]).

(** The store the [complete] step of [ChatEngine.connect] is left with when
    it fails on an id that names a member of [Object.prototype]: the global
    chat, and the [Me] with its chats, which no table and no roster
    holds. *)
Definition stranded (g id : string) (auth : value) : World :=
  mkWorld g ∅ (Some 0) (Some 0)
    [mkUser id {[g := ∅]} ∅ 1 2 true auth]
    [mkChat g ∅ ∅ [] false true;
     mkChat (feed_name g id) ∅ ∅ [] false true;
     mkChat (direct_name g id) ∅ ∅ [] false true]
    (connecting g ++ connecting (feed_name g id) ++ connecting (direct_name g id)).

(** What lasts of a chat and of a user: a later record [ch'] (or [u'])
    of the same object has the same immutable fields, is still connected if
    it was, and has lost no [Event], plugin, state key or chat key. *)
Definition chat_kept (ch ch' : Chat) : Prop :=
  channel ch' = channel ch
  /\ autoConnect ch' = autoConnect ch
  /\ (connected ch = true -> connected ch' = true)
  /\ events ch ⊆ events ch'
  /\ plugins ch `prefix_of` plugins ch'.

Definition user_kept (u u' : User) : Prop :=
  uuid u' = uuid u
  /\ feed u' = feed u
  /\ direct u' = direct u
  /\ isMe u' = isMe u
  /\ (forall k, is_Some (states u !! k) -> is_Some (states u' !! k))
  /\ (forall k, is_Some (chats u !! k) -> is_Some (chats u' !! k)).

Definition heaps_kept (w w' : World) : Prop :=
  globalChannel w' = globalChannel w
  /\ trace w `prefix_of` trace w'
  /\ (forall c ch, chat_heap w !! c = Some ch ->
        exists ch', chat_heap w' !! c = Some ch' /\ chat_kept ch ch')
  /\ (forall l u, user_heap w !! l = Some u ->
        exists u', user_heap w' !! l = Some u' /\ user_kept u u').

(** A method after which, however it ends, what was in the heaps is kept;
    [lasting_if P] when it is run on a store satisfying [P]. *)
Definition lasting_if {A} (P : World -> Prop) (m : M A) : Prop :=
  forall w, P w -> heaps_kept w (final_world (m w)).

Definition lasting {A} (m : M A) : Prop := lasting_if (fun _ => True) m.

(** History entries as [emit] makes them: plain objects whose [event], if
    any, is a string; and those among them that carry [event]. *)
Definition plain_entry (entry : value) : bool :=
  match entry with
  | VObj fs => match get_field "event" fs with
               | VStr _ | VUndef => true
               | _ => false
               end
  | _ => false
  end.

Definition is_entry_of (event : string) (entry : value) : bool :=
  match entry with
  | VObj fs => match get_field "event" fs with
               | VStr e => bool_decide (e = event)
               | _ => false
               end
  | _ => false
  end.

(** What the replay of [entries] adds to the trace of chat [c]. *)
Definition replayed (c : nat) (ps : list Plugin) (known : gmap string nat) (event : string)
    (entries : list value) : list effect :=
  concat (map (fun entry => told c ps (history_event event)
                              (default VUndef (restore c known entry)))
              (List.filter (is_entry_of event) entries)).

(** What is asked of the transport, the authorisation service and the
    console: every effect but the calls of plugin handlers and the local
    deliveries. *)
Definition is_request (e : effect) : bool :=
  match e with
  | Ran _ _ _ _ _ | Local _ _ _ => false
  | _ => true
  end.

Definition requests (tr : list effect) : list effect := List.filter is_request tr.

(** A method that, however it ends, has asked for nothing. *)
Definition local_only {A} (m : M A) : Prop :=
  forall w, requests (trace (final_world (m w))) = requests (trace w).

(** What the construction of a chat asks for. *)
Definition room_effects (g name : string) (auto needGrant : bool) : list effect :=
  if needGrant then [PostGrant (chat_channel g name needGrant)]
  else if auto then connecting (chat_channel g name needGrant) else [].

(** * Properties *)

(** ** Channel names *)

Lemma prefix_app (g s : string) : String.prefix g (g ++ s) = true.
Proof.
  induction g as [|a g IH]; simpl; [destruct s; reflexivity|].
  destruct (ascii_dec a a); [exact IH | contradiction].
Qed.

Lemma indexOf_app (g s : string) : indexOf_is_minus1 (g ++ s) g = false.
Proof.
  unfold indexOf_is_minus1.
  destruct g as [|a g].
  - destruct s; reflexivity.
  - change (String a g ++ s) with (String a (g ++ s)).
    cbn [String.index].
    change (String a (g ++ s)) with (String a g ++ s).
    rewrite prefix_app. reflexivity.
Qed.

Lemma indexOf_self (g : string) : indexOf_is_minus1 g g = false.
Proof.
  assert (H : g = g ++ "").
  { induction g as [|a g IH]; [reflexivity|].
    change (String a g ++ "") with (String a (g ++ "")). f_equal. exact IH. }
  rewrite H at 1. apply indexOf_app.
Qed.

(** ** The plugin queue *)

Lemma run_tasks_abort pre : forall t post t0 rest v v',
  t0 :: rest = (pre ++ t :: post)%list ->
  thread pre v = Some v' ->
  truthy (err_of (snd t v')) = true ->
  run_tasks t0 rest v = ((calls pre v ++ [(fst t, v')])%list, snd t v').
Proof.
  induction pre as [|p pre IH]; intros t post t0 rest v v' Hq Hpre Herr.
  - simpl in Hq. injection Hq as -> ->. simpl in Hpre. injection Hpre as ->.
    destruct post; simpl; [reflexivity|]. rewrite Herr. reflexivity.
  - simpl in Hq. injection Hq as -> ->. simpl in Hpre.
    destruct (truthy (err_of (snd p v))) eqn:He; [discriminate|].
    destruct pre as [|p' pre']; simpl app; cbn [run_tasks]; rewrite He.
    + rewrite (IH t post t post _ v' eq_refl Hpre Herr). reflexivity.
    + rewrite (IH t post p' (pre' ++ t :: post)%list _ v' eq_refl Hpre Herr).
      reflexivity.
Qed.

Lemma run_tasks_complete tasks : forall t0 rest v v',
  t0 :: rest = tasks ->
  thread tasks v = Some v' ->
  exists err, truthy err = false /\ run_tasks t0 rest v = (calls tasks v, Next err v').
Proof.
  induction tasks as [|p tasks IH]; intros t0 rest v v' Hq Hth; [discriminate|].
  injection Hq as -> ->. simpl in Hth.
  destruct (truthy (err_of (snd p v))) eqn:He; [discriminate|].
  destruct tasks as [|p' tasks'].
  - simpl in Hth. injection Hth as <-. exists (err_of (snd p v)). split; [exact He|].
    simpl. destruct (snd p v); reflexivity.
  - destruct (IH p' tasks' _ v' eq_refl Hth) as (err & Herr & Hrun).
    exists err. split; [exact Herr|].
    cbn [run_tasks]. rewrite He, Hrun. reflexivity.
Qed.

(** Whatever happens, the tasks called are an initial part of the queue,
    each fed the output of the one before. *)
Lemma run_tasks_prefix rest : forall t v,
  exists later, calls (t :: rest) v = (fst (run_tasks t rest v) ++ later)%list.
Proof.
  induction rest as [|t' rest IH]; intros t v.
  - exists []. reflexivity.
  - cbn [run_tasks]. destruct (truthy (err_of (snd t v))).
    + eexists. reflexivity.
    + destruct (IH t' (payload_of (snd t v))) as [later Hl].
      destruct (run_tasks t' rest (payload_of (snd t v))) as [called r].
      exists later. cbn [calls fst] in *. rewrite Hl. reflexivity.
Qed.

(** The handlers are queued in the order of [this.plugins]. *)
Lemma plugin_steps_handlers ps : forall i location event,
  map snd (plugin_steps i ps location event)
  = omap (fun p => handler_of p location event) ps.
Proof.
  induction ps as [|p ps IH]; intros i location event; [reflexivity|].
  cbn [plugin_steps omap list_omap].
  destruct (handler_of p location event); cbn [map snd]; rewrite IH; reflexivity.
Qed.

(** The lookup of the loop finds what the plugin registers. *)
Lemma handler_of_registered p location event :
  handler_of p location event = registered_handler p location event.
Proof.
  unfold handler_of, registered_handler.
  destruct (middleware p) as [mw|]; [|reflexivity]. cbn.
  destruct (mw !! location) as [evs|]; reflexivity.
Qed.

Lemma plugin_steps_registered ps i location event :
  map snd (plugin_steps i ps location event) = registered_handlers ps location event.
Proof.
  rewrite plugin_steps_handlers. unfold registered_handlers.
  induction ps as [|p ps IH]; [reflexivity|].
  cbn [omap list_omap]. rewrite handler_of_registered, IH. reflexivity.
Qed.

(** ** Running the methods on a store *)

Lemma log_log a b w : log b (log a w) = log (a ++ b)%list w.
Proof. unfold log. cbn. rewrite <- app_assoc. reflexivity. Qed.

Lemma log_nil w : log [] w = w.
Proof. destruct w. unfold log. cbn. rewrite app_nil_r. reflexivity. Qed.

Lemma filter_ran f c location event called :
  (forall i v, f (Ran c location event i v) = false) ->
  List.filter f (ran c location event called) = [].
Proof.
  intros Hf. induction called as [|[i v] called IH]; [reflexivity|].
  cbn [ran map List.filter]. rewrite Hf. exact IH.
Qed.

(** Lookups in the plain objects. *)
Lemma property_own o k l : o !! k = Some l -> property o k = Own l.
Proof. intros H. unfold property. rewrite H. reflexivity. Qed.

Lemma property_missing o k :
  o !! k = None -> inherited k = false -> property o k = Missing.
Proof. intros H Hk. unfold property. rewrite H, Hk. reflexivity. Qed.

Lemma property_inherited o k :
  o !! k = None -> inherited k = true -> property o k = Inherited.
Proof. intros H Hk. unfold property. rewrite H, Hk. reflexivity. Qed.

Lemma property_ordinary o k : inherited k = false -> property o k <> Inherited.
Proof.
  intros Hk. unfold property. rewrite Hk. destruct (o !! k); discriminate.
Qed.

Lemma present_ordinary o k :
  inherited k = false -> present (property o k) = negb (bool_decide (o !! k = None)).
Proof.
  intros Hk. unfold property. rewrite Hk. destruct (o !! k); reflexivity.
Qed.

(** Stepping through a method, one bind at a time. *)
Lemma bind_ret {A B} (a : A) (k : A -> M B) w : bind (ret a) k w = k a w.
Proof. reflexivity. Qed.

Lemma bind_gets {A B} (f : World -> A) (k : A -> M B) w : bind (gets f) k w = k (f w) w.
Proof. reflexivity. Qed.

Lemma bind_modify {B} (f : World -> World) (k : unit -> M B) w :
  bind (modify f) k w = k tt (f w).
Proof. reflexivity. Qed.

Lemma bind_Normal {A B} (m : M A) (k : A -> M B) w a w' :
  m w = Normal a w' -> bind m k w = k a w'.
Proof. intros H. unfold bind. rewrite H. reflexivity. Qed.

Lemma bind_bind {A B C} (m : M A) (k : A -> M B) (k' : B -> M C) w :
  bind (bind m k) k' w = bind m (fun a => bind (k a) k') w.
Proof. unfold bind. destruct (m w); reflexivity. Qed.

Lemma get_chat_eq c ch w : chat_heap w !! c = Some ch -> get_chat c w = Normal ch w.
Proof. intros H. unfold get_chat. rewrite H. reflexivity. Qed.

Lemma get_user_eq l u w : user_heap w !! l = Some u -> get_user l w = Normal u w.
Proof. intros H. unfold get_user. rewrite H. reflexivity. Qed.

Lemma bind_get_chat {B} c ch (k : Chat -> M B) w :
  chat_heap w !! c = Some ch -> bind (get_chat c) k w = k ch w.
Proof. intros H. apply bind_Normal, get_chat_eq, H. Qed.

Lemma bind_get_user {B} l u (k : User -> M B) w :
  user_heap w !! l = Some u -> bind (get_user l) k w = k u w.
Proof. intros H. apply bind_Normal, get_user_eq, H. Qed.

Ltac mnorm :=
  repeat (rewrite bind_bind || rewrite bind_ret || rewrite bind_gets || rewrite bind_modify).

Lemma runPluginQueue_eq c ch w location event first :
  chat_heap w !! c = Some ch ->
  runPluginQueue c location event first w
  = Normal (snd (waterfall (plugin_queue first (plugins ch) location event)))
           (log (ran c location event
                   (fst (waterfall (plugin_queue first (plugins ch) location event)))) w).
Proof.
  intros Hc. unfold runPluginQueue, bind, get_chat. rewrite Hc.
  destruct (waterfall _) as [called r]. reflexivity.
Qed.

(** What a call of [trigger] appends to the trace. *)
Lemma trigger_eq c ch w event payload payload1 :
  chat_heap w !! c = Some ch ->
  restore c (ce_users w) payload = Some payload1 ->
  trigger c event payload w = Normal tt (log (told c (plugins ch) event payload1) w).
Proof.
  intros Hc Hr. unfold trigger, bind, gets. rewrite Hr.
  rewrite (runPluginQueue_eq c ch w "on" event _ Hc).
  unfold modify. rewrite log_log. reflexivity.
Qed.

Lemma restore_user c known l :
  restore c known (VObj {["user" := VUser l]}) = Some (about_user c l).
Proof. reflexivity. Qed.

Lemma restore_state c known l st :
  restore c known (VObj (<["state" := VObj st]> {["user" := VUser l]}))
  = Some (about_state c l st).
Proof. reflexivity. Qed.

Lemma deliveries_app event a b :
  deliveries event (a ++ b)%list = deliveries event a + deliveries event b.
Proof. unfold deliveries. rewrite List.filter_app, length_app. reflexivity. Qed.

Lemma deliveries_told event c ps event' payload1 :
  deliveries event (told c ps event' payload1) = if decide (event' = event) then 1 else 0.
Proof.
  unfold told. rewrite deliveries_app. unfold deliveries at 1.
  rewrite filter_ran by reflexivity.
  unfold deliveries. cbn [List.filter is_local].
  destruct (decide (event' = event)) as [Heq|Hne].
  - rewrite bool_decide_eq_true_2 by exact Heq. reflexivity.
  - rewrite bool_decide_eq_false_2 by exact Hne. reflexivity.
Qed.

(** Without a handler the listeners get the payload as [restore] left it. *)
Lemma told_no_handler c ch event payload1 :
  no_handler ch "on" event ->
  told c (plugins ch) event payload1
  = [Ran c "on" event None VUndef; Local c event payload1].
Proof. intros Hn. unfold told, plugin_queue. rewrite Hn. reflexivity. Qed.


(** The queue passes every step: the calls are the seed and then every
    handler, each on the output of the one before. *)
Lemma runPluginQueue_pass c ch w location event seed out :
  chat_heap w !! c = Some ch ->
  thread (plugin_steps 0 (plugins ch) location event) seed = Some out ->
  exists err, truthy err = false /\
    runPluginQueue c location event (Next VNull seed) w
    = Normal (Next err out)
        (log (ran c location event
                ((None, VUndef) :: calls (plugin_steps 0 (plugins ch) location event) seed)) w).
Proof.
  intros Hc Hth. rewrite (runPluginQueue_eq c ch w location event _ Hc).
  unfold plugin_queue, waterfall.
  destruct (run_tasks_complete
              ((None, fun _ => Next VNull seed) :: plugin_steps 0 (plugins ch) location event)
              _ _ VUndef out eq_refl Hth) as (err & Herr & Hrun).
  exists err. split; [exact Herr|]. rewrite Hrun. reflexivity.
Qed.

(** A step fails: the calls stop with it, and its arguments to [next] are
    those of [last]. *)
Lemma runPluginQueue_abort c ch w location event seed pre t post v' :
  chat_heap w !! c = Some ch ->
  plugin_steps 0 (plugins ch) location event = (pre ++ t :: post)%list ->
  thread pre seed = Some v' ->
  truthy (err_of (snd t v')) = true ->
  runPluginQueue c location event (Next VNull seed) w
  = Normal (snd t v')
      (log (ran c location event ((None, VUndef) :: calls pre seed ++ [(fst t, v')])%list) w).
Proof.
  intros Hc Hq Hth Herr. rewrite (runPluginQueue_eq c ch w location event _ Hc).
  unfold plugin_queue, waterfall. rewrite Hq.
  rewrite (run_tasks_abort ((None, fun _ => Next VNull seed) :: pre) t post
             (None, fun _ => Next VNull seed) (pre ++ t :: post)%list VUndef v'
             eq_refl Hth Herr).
  reflexivity.
Qed.

Lemma plugin_steps_app ps : forall i qs location event,
  plugin_steps i (ps ++ qs)%list location event
  = (plugin_steps i ps location event
     ++ plugin_steps (i + length ps) qs location event)%list.
Proof.
  induction ps as [|p ps IH]; intros i qs location event.
  - simpl. rewrite Nat.add_0_r. reflexivity.
  - cbn [app plugin_steps length]. rewrite IH.
    replace (S i + length ps) with (i + S (length ps)) by lia.
    destruct (handler_of p location event); reflexivity.
Qed.

Lemma plugin_eq c ch w module :
  chat_heap w !! c = Some ch ->
  plugin c module w
  = Normal tt (set_chat_heap
                 (fun h => <[c := set_plugins (fun ps => (ps ++ [module])%list) ch]> h) w).
Proof. intros Hc. unfold plugin, bind, get_chat. rewrite Hc. reflexivity. Qed.

(** C8: for any stage, event name and seed payload, the queue consists of
    the seed step followed by exactly the handlers the registered plugins
    register for that stage and event, in the order the plugins were
    registered (a plugin registered later comes last).  The steps are run
    from the first on, each on the output of the step before it; when no
    step signals failure all of them are run and [last] receives the output
    of the final one. *)
Theorem pipeline_in_registration_order c ch w location event seed :
  chat_heap w !! c = Some ch ->
  map snd (plugin_queue (Next VNull seed) (plugins ch) location event)
    = ((fun _ => Next VNull seed) :: registered_handlers (plugins ch) location event)
  /\ (exists r called later,
        runPluginQueue c location event (Next VNull seed) w
        = Normal r (log (ran c location event called) w)
        /\ ((None, VUndef) :: calls (plugin_steps 0 (plugins ch) location event) seed
            = called ++ later)%list)
  /\ (forall out,
        thread (plugin_steps 0 (plugins ch) location event) seed = Some out ->
        exists err, truthy err = false /\
          runPluginQueue c location event (Next VNull seed) w
          = Normal (Next err out)
              (log (ran c location event
                      ((None, VUndef)
                         :: calls (plugin_steps 0 (plugins ch) location event) seed)) w))
  /\ (forall module,
        exists w', plugin c module w = Normal tt w' /\
          exists ch', chat_heap w' !! c = Some ch' /\
            plugins ch' = (plugins ch ++ [module])%list /\
            forall stage name,
              map snd (plugin_steps 0 (plugins ch') stage name)
              = (registered_handlers (plugins ch) stage name
                 ++ match registered_handler module stage name with
                    | Some h => [h]
                    | None => []
                    end)%list).
Proof.
  intros Hc. split; [|split; [|split]].
  - unfold plugin_queue. cbn [map snd]. rewrite plugin_steps_registered. reflexivity.
  - rewrite (runPluginQueue_eq c ch w location event _ Hc).
    unfold plugin_queue, waterfall.
    destruct (run_tasks_prefix (plugin_steps 0 (plugins ch) location event)
                (None, fun _ => Next VNull seed) VUndef) as [later Hl].
    eexists _, _, later. split; [reflexivity|]. exact Hl.
  - intros out Hth. exact (runPluginQueue_pass c ch w location event seed out Hc Hth).
  - intros module. rewrite (plugin_eq c ch w module Hc).
    eexists. split; [reflexivity|]. eexists. split.
    + cbn. apply list_lookup_insert_eq. eapply lookup_lt_Some. exact Hc.
    + split; [reflexivity|]. intros stage name. cbn [plugins set_plugins].
      rewrite plugin_steps_registered. unfold registered_handlers.
      rewrite omap_app. cbn [omap list_omap].
      destruct (registered_handler module stage name); reflexivity.
Qed.

Lemma pipeline_in_registration_order_witness :
  (exists err, truthy err = false /\
     runPluginQueue 0 "emit" "e" (Next VNull (VObj ∅))
       (lobby_world [marker_plugin "P1" "emit" "e"; marker_plugin "P2" "emit" "e"])
     = Normal (Next err (VObj {["trail" := VStr "P1P2"]}))
         (log [Ran 0 "emit" "e" None VUndef;
               Ran 0 "emit" "e" (Some 0) (VObj ∅);
               Ran 0 "emit" "e" (Some 1) (VObj {["trail" := VStr "P1"]})]
            (lobby_world [marker_plugin "P1" "emit" "e"; marker_plugin "P2" "emit" "e"])))
  /\ (exists err, truthy err = false /\
        runPluginQueue 0 "on" "e" (Next VNull (VObj ∅))
          (lobby_world [marker_plugin "P1" "on" "e"; marker_plugin "Q" "emit" "e";
                        marker_plugin "R" "on" "f"; marker_plugin "P2" "on" "e"])
        = Normal (Next err (VObj {["trail" := VStr "P1P2"]}))
            (log [Ran 0 "on" "e" None VUndef;
                  Ran 0 "on" "e" (Some 0) (VObj ∅);
                  Ran 0 "on" "e" (Some 3) (VObj {["trail" := VStr "P1"]})]
               (lobby_world [marker_plugin "P1" "on" "e"; marker_plugin "Q" "emit" "e";
                             marker_plugin "R" "on" "f"; marker_plugin "P2" "on" "e"])))
  /\ map snd (plugin_queue (Next VNull (VObj ∅))
                [marker_plugin "P1" "on" "e"; marker_plugin "Q" "emit" "e";
                 marker_plugin "R" "on" "f"; marker_plugin "P2" "on" "e"] "emit" "e")
     = [fun _ => Next VNull (VObj ∅); mark "Q"].
Proof.
  split; [|split].
  - destruct (pipeline_in_registration_order 0
                (lobby [marker_plugin "P1" "emit" "e"; marker_plugin "P2" "emit" "e"])
                (lobby_world [marker_plugin "P1" "emit" "e"; marker_plugin "P2" "emit" "e"])
                "emit" "e" (VObj ∅))
      as (_ & _ & H & _); [reflexivity|].
    apply (H (VObj {["trail" := VStr "P1P2"]})). vm_compute. reflexivity.
  - destruct (pipeline_in_registration_order 0
                (lobby [marker_plugin "P1" "on" "e"; marker_plugin "Q" "emit" "e";
                        marker_plugin "R" "on" "f"; marker_plugin "P2" "on" "e"])
                (lobby_world [marker_plugin "P1" "on" "e"; marker_plugin "Q" "emit" "e";
                              marker_plugin "R" "on" "f"; marker_plugin "P2" "on" "e"])
                "on" "e" (VObj ∅))
      as (_ & _ & H & _); [reflexivity|].
    apply (H (VObj {["trail" := VStr "P1P2"]})). vm_compute. reflexivity.
  - destruct (pipeline_in_registration_order 0
                (lobby [marker_plugin "P1" "on" "e"; marker_plugin "Q" "emit" "e";
                        marker_plugin "R" "on" "f"; marker_plugin "P2" "on" "e"])
                (lobby_world [marker_plugin "P1" "on" "e"; marker_plugin "Q" "emit" "e";
                              marker_plugin "R" "on" "f"; marker_plugin "P2" "on" "e"])
                "emit" "e" (VObj ∅))
      as (H & _); [reflexivity|].
    exact H.
Defined.

(** ** A failing step *)


Lemma ensure_event_eq c ch w event :
  chat_heap w !! c = Some ch ->
  ensure_event c event w
  = Normal tt
      (if decide (event ∈ events ch) then w
       else log [AddListener]
              (set_chat_heap
                 (fun h => <[c := set_events (fun es => {[event]} ∪ es) ch]> h) w)).
Proof.
  intros Hc. unfold ensure_event, bind, get_chat. rewrite Hc.
  destruct (decide (event ∈ events ch)); reflexivity.
Qed.

Lemma publish_eq c ch w event m :
  chat_heap w !! c = Some ch ->
  publish c event m w
  = match m with
    | VObj fs => Normal tt (log [Publish (channel ch) (VObj (<["event" := VStr event]> fs))] w)
    | VUser _ | VChat _ | VNative _ => Normal tt (log [Publish (channel ch) m] w)
    | _ => Thrown TypeError w
    end.
Proof.
  intros Hc. unfold publish, bind, get_chat. rewrite Hc. destruct m; reflexivity.
Qed.

(** [ensure_event] followed by [publish], on the trace. *)
Lemma ensure_then_publish c ch w event m :
  chat_heap w !! c = Some ch ->
  exists w',
    trace w' = (trace w ++ if decide (event ∈ events ch) then [] else [AddListener])%list
    /\ (ensure_event c event >>> publish c event m) w
       = match m with
         | VObj fs =>
             Normal tt (log [Publish (channel ch) (VObj (<["event" := VStr event]> fs))] w')
         | VUser _ | VChat _ | VNative _ => Normal tt (log [Publish (channel ch) m] w')
         | _ => Thrown TypeError w'
         end.
Proof.
  intros Hc. unfold bind at 1. rewrite (ensure_event_eq c ch w event Hc).
  destruct (decide (event ∈ events ch)).
  - exists w. split; [rewrite app_nil_r; reflexivity|].
    apply publish_eq. exact Hc.
  - exists (log [AddListener]
              (set_chat_heap
                 (fun h => <[c := set_events (fun es => {[event]} ∪ es) ch]> h) w)).
    split; [reflexivity|].
    rewrite (publish_eq c (set_events (fun es => {[event]} ∪ es) ch)).
    + destruct m; reflexivity.
    + cbn. apply list_lookup_insert_eq. eapply lookup_lt_Some. exact Hc.
Qed.

(** C3, as the code has it: when a middleware step signals failure, the
    remaining steps of the chain are not executed, and [last] is called at
    once with what the failing step passed to [next].  [last] does not look
    at the error: in the trigger stage the local listeners receive the event
    with the failing step's payload; in the emit stage the event is
    published when that payload is an object, and the call throws without
    publishing when it is absent or a primitive. *)
Theorem failed_step_skips_rest_only c ch w location event seed pre t post v' :
  chat_heap w !! c = Some ch ->
  plugin_steps 0 (plugins ch) location event = (pre ++ t :: post)%list ->
  thread pre seed = Some v' ->
  truthy (err_of (snd t v')) = true ->
  let called := ran c location event ((None, VUndef) :: calls pre seed ++ [(fst t, v')])%list in
  runPluginQueue c location event (Next VNull seed) w = Normal (snd t v') (log called w)
  /\ (forall payload,
        location = "on" ->
        restore c (ce_users w) payload = Some seed ->
        trigger c event payload w
        = Normal tt (log (called ++ [Local c event (payload_of (snd t v'))])%list w))
  /\ (forall data sender,
        location = "emit" ->
        me_uuid w = Normal sender w ->
        seed = VObj (<["chat" := VChat c]> (<["sender" := sender]> {["data" := data]})) ->
        exists w',
          List.filter is_ran (trace w') = List.filter is_ran (trace w ++ called)%list /\
          match payload_of (snd t v') with
          | VObj fs =>
              emit c event data w
              = Normal tt
                  (log [Publish (channel ch)
                          (VObj (<["event" := VStr event]> (delete "chat" fs)))] w')
          | VUser _ | VChat _ | VNative _ =>
              emit c event data w
              = Normal tt (log [Publish (channel ch) (payload_of (snd t v'))] w')
          | _ =>
              emit c event data w = Thrown TypeError w'
              /\ List.filter is_publish (trace w') = List.filter is_publish (trace w)
          end).
Proof.
  intros Hc Hq Hth Herr called.
  pose proof (runPluginQueue_abort c ch w location event seed pre t post v' Hc Hq Hth Herr)
    as Hrun.
  split; [exact Hrun|]. split.
  - intros payload -> Hr. unfold trigger, bind, gets. rewrite Hr, Hrun.
    unfold modify. rewrite log_log. reflexivity.
  - intros data sender -> Hme ->.
    assert (Hemit : emit c event data w
              = match payload_of (snd t v') with
                | VUndef | VNull => Thrown TypeError (log called w)
                | VObj fs =>
                    (ensure_event c event >>> publish c event (VObj (delete "chat" fs)))
                      (log called w)
                | p => (ensure_event c event >>> publish c event p) (log called w)
                end).
    { unfold emit. unfold bind at 1. rewrite Hme. unfold bind at 1. rewrite Hrun.
      destruct (payload_of (snd t v')); reflexivity. }
    rewrite Hemit. clear Hemit.
    assert (Hc' : chat_heap (log called w) !! c = Some ch) by exact Hc.
    assert (Hnp : List.filter is_publish (trace (log called w))
                  = List.filter is_publish (trace w)).
    { unfold log. cbn [trace]. rewrite List.filter_app. unfold called.
      rewrite filter_ran by reflexivity. apply app_nil_r. }
    assert (Hadd : forall w', 
              trace w' = (trace (log called w)
                          ++ if decide (event ∈ events ch) then [] else [AddListener])%list ->
              List.filter is_ran (trace w') = List.filter is_ran (trace w ++ called)%list
              /\ List.filter is_publish (trace w') = List.filter is_publish (trace w)).
    { intros w' ->. rewrite !List.filter_app, Hnp.
      destruct (decide (event ∈ events ch)); cbn [List.filter is_ran is_publish];
        rewrite !app_nil_r; rewrite <- List.filter_app; split; reflexivity. }
    destruct (payload_of (snd t v')) as [| |b|z|s|fields|l|c0|k] eqn:Hp.
    + exists (log called w). split; [reflexivity|]. split; [reflexivity | exact Hnp].
    + exists (log called w). split; [reflexivity|]. split; [reflexivity | exact Hnp].
    + destruct (ensure_then_publish c ch (log called w) event (VBool b) Hc')
        as (w' & Htr & Hrun').
      exists w'. destruct (Hadd w' Htr). split; [assumption|]. split; assumption.
    + destruct (ensure_then_publish c ch (log called w) event (VNum z) Hc')
        as (w' & Htr & Hrun').
      exists w'. destruct (Hadd w' Htr). split; [assumption|]. split; assumption.
    + destruct (ensure_then_publish c ch (log called w) event (VStr s) Hc')
        as (w' & Htr & Hrun').
      exists w'. destruct (Hadd w' Htr). split; [assumption|]. split; assumption.
    + destruct (ensure_then_publish c ch (log called w) event (VObj (delete "chat" fields)) Hc')
        as (w' & Htr & Hrun').
      exists w'. destruct (Hadd w' Htr). split; assumption.
    + destruct (ensure_then_publish c ch (log called w) event (VUser l) Hc')
        as (w' & Htr & Hrun').
      exists w'. destruct (Hadd w' Htr). split; assumption.
    + destruct (ensure_then_publish c ch (log called w) event (VChat c0) Hc')
        as (w' & Htr & Hrun').
      exists w'. destruct (Hadd w' Htr). split; assumption.
    + destruct (ensure_then_publish c ch (log called w) event (VNative k) Hc')
        as (w' & Htr & Hrun').
      exists w'. destruct (Hadd w' Htr). split; assumption.
Qed.

Lemma failed_step_skips_rest_only_witness :
  trigger 0 "msg" (VObj {["data" := VStr "hi"]})
    (lobby_world [rejecting_plugin reject "on" "msg"; marker_plugin "P2" "on" "msg"])
  = Normal tt
      (log [Ran 0 "on" "msg" None VUndef;
            Ran 0 "on" "msg" (Some 0) (VObj (<["chat" := VChat 0]> {["data" := VStr "hi"]}));
            Local 0 "msg" VUndef]
         (lobby_world [rejecting_plugin reject "on" "msg"; marker_plugin "P2" "on" "msg"])).
Proof.
  destruct (failed_step_skips_rest_only 0
              (lobby [rejecting_plugin reject "on" "msg"; marker_plugin "P2" "on" "msg"])
              (lobby_world [rejecting_plugin reject "on" "msg"; marker_plugin "P2" "on" "msg"])
              "on" "msg" (VObj (<["chat" := VChat 0]> {["data" := VStr "hi"]}))
              [] (Some 0, reject) [(Some 1, mark "P2")]
              (VObj (<["chat" := VChat 0]> {["data" := VStr "hi"]})))
    as (_ & H & _); [reflexivity | reflexivity | reflexivity | reflexivity |].
  exact (H (VObj {["data" := VStr "hi"]}) eq_refl eq_refl).
Defined.

(** C3 as stated fails.  With a plugin whose trigger-stage handler for
    ["msg"] rejects, the listeners of ["msg"] are still called; with one
    whose emit-stage handler rejects while handing the payload on, the
    event is still published. *)
Lemma aborted_event_still_delivered :
  ~ aborted_trigger_is_silent 0
      (lobby_world [rejecting_plugin reject "on" "msg"]) "msg" (VObj {["data" := VStr "hi"]})
  /\ ~ aborted_emit_is_silent 0
         (lobby_world [rejecting_plugin reject_keeping "emit" "msg"]) "msg" (VStr "hi").
Proof.
  split; intros H.
  - specialize (H (lobby [rejecting_plugin reject "on" "msg"])
                  (VObj (<["chat" := VChat 0]> {["data" := VStr "hi"]}))
                  [] (Some 0, reject) []
                  (VObj (<["chat" := VChat 0]> {["data" := VStr "hi"]}))
                  eq_refl eq_refl eq_refl eq_refl eq_refl).
    vm_compute in H. discriminate H.
  - specialize (H (lobby [rejecting_plugin reject_keeping "emit" "msg"]) VUndef
                  [] (Some 0, reject_keeping) []
                  (VObj (<["chat" := VChat 0]> (<["sender" := VUndef]> {["data" := VStr "hi"]})))
                  eq_refl eq_refl eq_refl eq_refl eq_refl).
    vm_compute in H. discriminate H.
Qed.

(** ** The connection flag *)

Lemma onStatus_matching c ch w ev :
  chat_heap w !! c = Some ch ->
  se_category ev = "PNConnectedCategory" ->
  channel ch ∈ se_affectedChannels ev ->
  onStatus c ev w
  = Normal tt
      (log ((if se_error ev then [ConsoleLog] else [])
            ++ told c (plugins ch) "$.connected" VUndef)%list
         (set_chat_heap (fun h => <[c := set_connected true ch]> h) w)).
Proof.
  intros Hc Hcat Hin. unfold onStatus.
  assert (Hlt : c < length (chat_heap w)) by (eapply lookup_lt_Some; exact Hc).
  assert (Hrest : forall w0, chat_heap w0 = chat_heap w ->
            (let* ch := get_chat c in
             if decide (se_category ev = "PNConnectedCategory") then
               if decide (channel ch ∈ se_affectedChannels ev) then
                 put_chat c (set_connected true ch) >>> trigger c "$.connected" VUndef
               else ret tt
             else ret tt) w0
            = Normal tt (log (told c (plugins ch) "$.connected" VUndef)
                           (set_chat_heap (fun h => <[c := set_connected true ch]> h) w0))).
  { intros w0 Hw0. rewrite (bind_get_chat c ch) by (rewrite Hw0; exact Hc).
    destruct (decide (se_category ev = "PNConnectedCategory")); [|contradiction].
    destruct (decide (channel ch ∈ se_affectedChannels ev)); [|contradiction].
    unfold put_chat. rewrite bind_modify.
    apply (trigger_eq c (set_connected true ch)); [|reflexivity].
    cbn [chat_heap set_chat_heap]. apply list_lookup_insert_eq. rewrite Hw0. exact Hlt. }
  destruct (se_error ev); cbn [when].
  - rewrite bind_modify, Hrest by reflexivity.
    unfold log, set_chat_heap. cbn. rewrite <- app_assoc. reflexivity.
  - rewrite bind_ret. apply Hrest. reflexivity.
Qed.

(** C1, as the code has it: every connected status notification naming
    the room's channel sets the connected flag and triggers [$.connected];
    [onStatus] does not test the flag, so the same notification delivered
    twice leaves the flag set and yields two [$.connected] deliveries. *)
Theorem connected_notifies_each_time c ch w ev :
  chat_heap w !! c = Some ch ->
  se_category ev = "PNConnectedCategory" ->
  channel ch ∈ se_affectedChannels ev ->
  exists w1 w2,
    onStatus c ev w = Normal tt w1
    /\ onStatus c ev w1 = Normal tt w2
    /\ is_connected c w1 = true
    /\ is_connected c w2 = true
    /\ deliveries "$.connected" (trace w1) = deliveries "$.connected" (trace w) + 1
    /\ deliveries "$.connected" (trace w2) = deliveries "$.connected" (trace w) + 2.
Proof.
  intros Hc Hcat Hin.
  assert (Hlt : c < length (chat_heap w)) by (eapply lookup_lt_Some; exact Hc).
  assert (Hlog : deliveries "$.connected"
             ((if se_error ev then [ConsoleLog] else [])
              ++ told c (plugins ch) "$.connected" VUndef)%list = 1).
  { rewrite deliveries_app, deliveries_told.
    destruct (se_error ev); reflexivity. }
  pose proof (onStatus_matching c ch w ev Hc Hcat Hin) as H1.
  set (w1 := log _ _) in H1.
  assert (Hc1 : chat_heap w1 !! c = Some (set_connected true ch)).
  { subst w1. cbn. apply list_lookup_insert_eq. exact Hlt. }
  assert (Ht1 : deliveries "$.connected" (trace w1)
                = deliveries "$.connected" (trace w) + 1).
  { subst w1. unfold log, set_chat_heap. cbn [trace].
    rewrite deliveries_app, Hlog. reflexivity. }
  clearbody w1.
  pose proof (onStatus_matching c (set_connected true ch) w1 ev Hc1 Hcat Hin) as H2.
  exists w1. eexists. split; [exact H1|]. split; [exact H2|].
  split; [unfold is_connected; rewrite Hc1; reflexivity|].
  split.
  - unfold is_connected. cbn [chat_heap log set_chat_heap].
    rewrite list_lookup_insert_eq; [reflexivity|].
    eapply lookup_lt_Some. exact Hc1.
  - split; [exact Ht1|].
    unfold log, set_chat_heap. cbn [trace plugins set_connected].
    rewrite deliveries_app, Ht1, Hlog. lia.
Qed.

Lemma connected_notifies_each_time_witness :
  exists w1 w2,
    onStatus 0 lobby_connected (lobby_world []) = Normal tt w1
    /\ onStatus 0 lobby_connected w1 = Normal tt w2
    /\ is_connected 0 w1 = true
    /\ is_connected 0 w2 = true
    /\ deliveries "$.connected" (trace w1)
       = deliveries "$.connected" (trace (lobby_world [])) + 1
    /\ deliveries "$.connected" (trace w2)
       = deliveries "$.connected" (trace (lobby_world [])) + 2.
Proof.
  apply (connected_notifies_each_time 0 (lobby []) (lobby_world []) lobby_connected).
  - reflexivity.
  - reflexivity.
  - left.
Defined.

(** C1 as stated fails: the sample room, never connected before, receives
    the same connected notification twice and delivers [$.connected]
    twice. *)
Lemma second_connected_notification_delivered :
  se_category lobby_connected = "PNConnectedCategory"
  /\ lobby_channel ∈ se_affectedChannels lobby_connected
  /\ ~ connected_once 0 lobby_connected (lobby_world []).
Proof.
  split; [reflexivity|]. split; [left|].
  unfold connected_once. vm_compute. discriminate.
Qed.

(** ** Leaving a room *)

Lemma leave_eq c ch w :
  chat_heap w !! c = Some ch ->
  leave c w = Normal tt (log [Unsubscribe (channel ch)] w).
Proof. intros Hc. unfold leave, bind, get_chat. rewrite Hc. reflexivity. Qed.

(** C5, as the code has it: [leave] on a connected room asks the transport
    to unsubscribe from the room's channel and does nothing else: the
    connected flag stays set, the roster is unchanged, and nothing is
    subscribed again. *)
Theorem leave_only_unsubscribes c ch w :
  chat_heap w !! c = Some ch ->
  connected ch = true ->
  exists w',
    leave c w = Normal tt w'
    /\ trace w' = (trace w ++ [Unsubscribe (channel ch)])%list
    /\ chat_heap w' = chat_heap w
    /\ is_connected c w' = true
    /\ roster c w' = roster c w
    /\ ce_users w' = ce_users w
    /\ user_heap w' = user_heap w.
Proof.
  intros Hc Hconn. exists (log [Unsubscribe (channel ch)] w).
  split; [apply leave_eq; exact Hc|].
  unfold is_connected, roster. cbn. rewrite Hc.
  repeat split; try reflexivity. exact Hconn.
Qed.

Lemma leave_only_unsubscribes_witness :
  exists w',
    leave 0 connected_lobby_world = Normal tt w'
    /\ trace w' = (trace connected_lobby_world ++ [Unsubscribe lobby_channel])%list
    /\ chat_heap w' = chat_heap connected_lobby_world
    /\ is_connected 0 w' = true
    /\ roster 0 w' = roster 0 connected_lobby_world
    /\ ce_users w' = ce_users connected_lobby_world
    /\ user_heap w' = user_heap connected_lobby_world.
Proof.
  apply (leave_only_unsubscribes 0 (mkChat lobby_channel ∅ ∅ [] true false)
           connected_lobby_world); reflexivity.
Defined.

(** C5 as stated fails: the sample room is connected, and after [leave]
    its connected flag is still set. *)
Lemma leave_keeps_connected_flag :
  is_connected 0 connected_lobby_world = true
  /\ ~ leave_disconnects 0 connected_lobby_world.
Proof.
  split; [reflexivity|]. unfold leave_disconnects. vm_compute. discriminate.
Qed.

(** ** A participant leaves *)

Lemma userLeave_present c ch w id l :
  chat_heap w !! c = Some ch ->
  users ch !! id = Some l ->
  userLeave c id w
  = Normal tt
      (set_chat_heap (fun h => <[c := set_users (fun us => delete id us) ch]> h)
         (log (told c (plugins ch) "$.offline.leave" (about_user c l)) w)).
Proof.
  intros Hc Hl. unfold userLeave. rewrite (bind_get_chat c ch) by exact Hc.
  rewrite (property_own _ _ _ Hl). cbn [found].
  rewrite (bind_Normal _ _ _ tt _ (trigger_eq c ch w _ _ _ Hc (restore_user c _ l))).
  rewrite (bind_get_chat c ch) by exact Hc. reflexivity.
Qed.

Lemma userLeave_absent c ch w id :
  chat_heap w !! c = Some ch ->
  users ch !! id = None ->
  inherited id = false ->
  userLeave c id w = Normal tt w.
Proof.
  intros Hc Hl Hid. unfold userLeave. rewrite (bind_get_chat c ch) by exact Hc.
  rewrite (property_missing _ _ Hl Hid). reflexivity.
Qed.

Lemma restore_member c known k :
  restore c known (VObj {["user" := VNative k]}) = Some (about_member c k).
Proof. reflexivity. Qed.


Lemma onPresence_leave c ch w ev :
  chat_heap w !! c = Some ch ->
  channel ch = pe_channel ev ->
  pe_action ev = "leave" ->
  onPresence c ev w = userLeave c (pe_uuid ev) w.
Proof.
  intros Hc Hchan Hact. unfold onPresence. rewrite (bind_get_chat c ch) by exact Hc.
  destruct (decide (channel ch = pe_channel ev)); [|contradiction].
  rewrite Hact.
  change (bool_decide ("leave" = "join")) with false.
  change (bool_decide ("leave" = "leave")) with true.
  change (bool_decide ("leave" = "timeout")) with false.
  change (bool_decide ("leave" = "state-change")) with false.
  cbn [when]. rewrite bind_ret.
  unfold bind. destruct (userLeave c (pe_uuid ev) w) as [[] w'|x w']; reflexivity.
Qed.




(** ** Creating users *)

Lemma new_Chat_quiet chan w :
  new_Chat chan false false w
  = Normal (length (chat_heap w))
      (set_chat_heap
         (fun h => (h ++ [mkChat (chat_channel (globalChannel w) chan false) ∅ ∅ [] false false])%list)
         w).
Proof.
  unfold new_Chat. rewrite !bind_gets, bind_modify.
  unfold onPrep.
  rewrite bind_bind.
  rewrite (bind_get_chat _ (mkChat (chat_channel (globalChannel w) chan false) ∅ ∅ [] false false)).
  - reflexivity.
  - cbn [chat_heap set_chat_heap]. apply list_lookup_middle. reflexivity.
Qed.

Lemma update_eq l u c ch st w :
  user_heap w !! l = Some u ->
  chat_heap w !! c = Some ch ->
  update l st (Some c) w
  = Normal tt
      (set_user_heap
         (fun h => <[l := set_states
                            (fun ss => <[channel ch :=
                                           object_assign (default ∅ (states u !! channel ch)) st]> ss)
                            u]> h) w).
Proof.
  intros Hl Hc. unfold update, state, chat_key.
  mnorm. rewrite (bind_get_chat c ch) by exact Hc.
  mnorm. rewrite (bind_get_user l u) by exact Hl.
  mnorm. rewrite (bind_get_chat c ch) by exact Hc.
  mnorm. rewrite (bind_get_user l u) by exact Hl.
  reflexivity.
Qed.

Lemma addChat_eq l u c ch st w :
  user_heap w !! l = Some u ->
  chat_heap w !! c = Some ch ->
  addChat l c st w
  = Normal tt (set_user_heap (fun h => <[l := joined (channel ch) c st u]> h) w).
Proof.
  intros Hl Hc. unfold addChat.
  rewrite (bind_get_chat c ch) by exact Hc.
  rewrite (bind_get_user l u) by exact Hl.
  unfold put_user. rewrite bind_modify. unfold assign.
  rewrite (update_eq l (set_chats (fun cs => <[channel ch := c]> cs) u) c ch).
  - unfold set_user_heap. cbn. rewrite list_insert_insert_eq. reflexivity.
  - cbn. apply list_lookup_insert_eq. eapply lookup_lt_Some. exact Hl.
  - exact Hc.
Qed.

Lemma new_User_eq id w :
  ce_users w !! id = None ->
  inherited id = false ->
  global_ok w ->
  new_User id (Some ∅) (globalChat w) false w
  = Normal (length (user_heap w)) (with_new_user id w).
Proof.
  intros Hid Hord Hg. unfold new_User.
  assert (Hgc : globalChat_channel w = Normal (gname w) w).
  { unfold globalChat_channel, gname, global_ok in *. rewrite bind_gets.
    destruct (globalChat w) as [g|]; [|reflexivity].
    destruct (lookup_lt_is_Some_2 _ _ Hg) as [gch Hgch].
    rewrite (bind_get_chat g gch) by exact Hgch. rewrite Hgch. reflexivity. }
  rewrite (bind_Normal _ _ _ _ _ Hgc).
  rewrite (bind_Normal _ _ _ _ _ (new_Chat_quiet _ _)).
  rewrite (bind_Normal _ _ _ _ _ (new_Chat_quiet _ _)).
  rewrite bind_gets, bind_modify, bind_gets.
  cbn [ce_users set_user_heap set_chat_heap user_heap chat_heap globalChannel length].
  rewrite (property_missing _ _ Hid Hord). cbn [present negb when].
  rewrite bind_modify.
  unfold assign, update, state, chat_key.
  set (u0 := mkUser id ∅ ∅ _ _ false VUndef).
  match goal with |- context [bind _ _ ?x] => set (w1 := x) end.
  assert (Hu0 : user_heap w1 !! length (user_heap w) = Some u0).
  { subst w1. cbn. apply list_lookup_middle. reflexivity. }
  assert (Hkey : (match globalChat w with
                  | Some c => let* ch := get_chat c in ret (channel ch)
                  | None => ret "undefined"
                  end) w1 = Normal (gkey w) w1).
  { unfold gkey, global_ok in *. destruct (globalChat w) as [g|]; [|reflexivity].
    destruct (lookup_lt_is_Some_2 _ _ Hg) as [gch Hgch].
    rewrite (bind_get_chat g gch); [rewrite Hgch; reflexivity|].
    subst w1. cbn. rewrite <- app_assoc. apply lookup_app_l_Some. exact Hgch. }
  mnorm. rewrite (bind_Normal _ _ _ _ _ Hkey).
  mnorm. rewrite (bind_get_user _ u0) by exact Hu0.
  mnorm. rewrite (bind_Normal _ _ _ _ _ Hkey).
  mnorm. rewrite (bind_get_user _ u0) by exact Hu0.
  unfold put_user. mnorm.
  subst w1. unfold with_new_user, set_user_heap, set_ce_users, set_chat_heap.
  cbn [ce_users user_heap chat_heap globalChannel globalChat me trace].
  f_equal. f_equal.
  - rewrite insert_app_r_alt by lia. rewrite Nat.sub_diag.
    unfold set_states, u0, object_assign.
    cbn [uuid states chats feed direct isMe authData].
    rewrite lookup_empty. cbn [default].
    rewrite (left_id_L ∅ (∪)). rewrite insert_empty.
    rewrite length_app. cbn [length]. rewrite Nat.add_1_r. reflexivity.
  - rewrite <- app_assoc. reflexivity.
Qed.

Lemma set_ce_users_id id l w :
  ce_users w !! id = Some l ->
  set_ce_users (fun us => <[id := l]> us) w = w.
Proof.
  intros H. destruct w. unfold set_ce_users. cbn in *. rewrite insert_id by exact H.
  reflexivity.
Qed.

Lemma ensure_user_known id l w :
  ce_users w !! id = Some l -> ensure_user id w = Normal (Own l) w.
Proof.
  intros H. unfold ensure_user. mnorm. rewrite (property_own _ _ _ H). mnorm.
  rewrite set_ce_users_id by exact H. reflexivity.
Qed.

Lemma ensure_user_fresh id w :
  ce_users w !! id = None ->
  inherited id = false ->
  global_ok w ->
  ensure_user id w = Normal (Own (length (user_heap w))) (with_new_user id w).
Proof.
  intros H Hord Hg. unfold ensure_user. mnorm. rewrite (property_missing _ _ H Hord). mnorm.
  rewrite (bind_Normal _ _ _ _ _ (new_User_eq id w H Hord Hg)). mnorm.
  rewrite set_ce_users_id; [reflexivity|].
  cbn [ce_users with_new_user]. apply lookup_insert_eq.
Qed.

(** The table object inherits the name: what is found is no user. *)
Lemma ensure_user_inherited id w :
  ce_users w !! id = None ->
  inherited id = true ->
  ensure_user id w = Normal Inherited w.
Proof.
  intros H Hid. unfold ensure_user. mnorm. rewrite (property_inherited _ _ H Hid).
  reflexivity.
Qed.

(** A user met for the first time is created, and then treated as any
    known user. *)
Lemma createUser_fresh c id st force w :
  ce_users w !! id = None ->
  inherited id = false ->
  global_ok w ->
  createUser c id st force w = createUser c id st force (with_new_user id w).
Proof.
  intros H Hord Hg. unfold createUser.
  rewrite (bind_Normal _ _ _ _ _ (ensure_user_fresh id w H Hord Hg)).
  rewrite (bind_Normal _ _ (with_new_user id w) (Own (length (user_heap w)))
             (with_new_user id w));
    [reflexivity|].
  apply ensure_user_known. cbn [ce_users with_new_user]. apply lookup_insert_eq.
Qed.

(** A join for a name the table inherits stops at [addChat]; the stores of
    users and chats are as they were, and nothing has been announced. *)
Lemma createUser_inherited c id st force w :
  ce_users w !! id = None ->
  inherited id = true ->
  createUser c id st force w = Thrown TypeError w.
Proof.
  intros H Hid. unfold createUser.
  rewrite (bind_Normal _ _ _ _ _ (ensure_user_inherited id w H Hid)). reflexivity.
Qed.

Lemma userUpdate_fresh c id st w :
  ce_users w !! id = None ->
  inherited id = false ->
  global_ok w ->
  userUpdate c id st w = userUpdate c id st (with_new_user id w).
Proof.
  intros H Hord Hg. unfold userUpdate.
  rewrite (bind_Normal _ _ _ _ _ (ensure_user_fresh id w H Hord Hg)).
  rewrite (bind_Normal _ _ (with_new_user id w) (Own (length (user_heap w)))
             (with_new_user id w));
    [reflexivity|].
  apply ensure_user_known. cbn [ce_users with_new_user]. apply lookup_insert_eq.
Qed.

Lemma createUser_known c ch id l u st force w :
  chat_heap w !! c = Some ch ->
  ce_users w !! id = Some l ->
  user_heap w !! l = Some u ->
  createUser c id st force w
  = Normal l
      (set_chat_heap (fun h => <[c := set_users (fun us => <[id := l]> us) ch]> h)
         (log (if negb (present (property (users ch) id)) || force
               then told c (plugins ch) "$.online.new" (about_user c l) else [])
            (set_user_heap (fun h => <[l := joined (channel ch) c st u]> h) w))).
Proof.
  intros Hc Hid Hl. unfold createUser.
  rewrite (bind_Normal _ _ _ _ _ (ensure_user_known id l w Hid)).
  rewrite (bind_Normal _ _ _ _ _ (addChat_eq l u c ch st w Hl Hc)).
  rewrite (bind_get_chat c ch) by exact Hc.
  destruct (negb (present (property (users ch) id)) || force); cbn [when].
  - erewrite (bind_Normal _ _ _ tt) by (apply (trigger_eq c ch); [exact Hc | reflexivity]).
    rewrite (bind_get_chat c ch) by exact Hc.
    unfold put_chat. mnorm. reflexivity.
  - mnorm. rewrite (bind_get_chat c ch) by exact Hc.
    unfold put_chat. mnorm. rewrite log_nil. reflexivity.
Qed.

Lemma object_assign_idem s st :
  object_assign (object_assign s st) st = object_assign s st.
Proof.
  destruct st as [m|]; [|reflexivity]. unfold object_assign.
  rewrite (assoc_L (∪)). rewrite (idemp_L (∪)). reflexivity.
Qed.

Ltac world_fields :=
  unfold log, set_user_heap, set_chat_heap, set_ce_users;
  cbn [globalChannel ce_users globalChat me user_heap chat_heap trace].

Lemma default_some {A} (d x : A) : default d (Some x) = x.
Proof. reflexivity. Qed.

Lemma state_eq l u c ch w :
  user_heap w !! l = Some u ->
  chat_heap w !! c = Some ch ->
  state l (Some c) w = Normal (default ∅ (states u !! channel ch)) w.
Proof.
  intros Hl Hc. unfold state, chat_key. mnorm.
  rewrite (bind_get_chat c ch) by exact Hc. mnorm.
  rewrite (bind_get_user l u) by exact Hl. reflexivity.
Qed.

(** ** State changes *)

(** A state change for a participant already in the roster. *)
Lemma userUpdate_in_roster c ch id l l' u st w :
  chat_heap w !! c = Some ch ->
  ce_users w !! id = Some l' ->
  users ch !! id = Some l ->
  user_heap w !! l = Some u ->
  userUpdate c id st w
  = Normal tt
      (log (told c (plugins ch) "$.state"
              (about_state c l (object_assign (default ∅ (states u !! channel ch)) st)))
         (set_user_heap
            (fun h => <[l := set_states
                               (fun ss => <[channel ch :=
                                   object_assign (default ∅ (states u !! channel ch)) st]> ss)
                               u]> h) w)).
Proof.
  intros Hc Hid Hr Hl. unfold userUpdate.
  rewrite (bind_Normal _ _ _ _ _ (ensure_user_known id l' w Hid)).
  rewrite (bind_get_chat c ch) by exact Hc.
  rewrite (property_own _ _ _ Hr). cbn [present negb when]. mnorm.
  rewrite (bind_get_chat c ch) by exact Hc. rewrite (property_own _ _ _ Hr).
  unfold assign. rewrite (bind_Normal _ _ _ _ _ (update_eq l u c ch st w Hl Hc)).
  erewrite (bind_Normal _ _ _ _) by
    (eapply state_eq;
     [cbn [user_heap set_user_heap]; apply list_lookup_insert_eq;
      eapply lookup_lt_Some; exact Hl | exact Hc]).
  cbn [states set_states]. rewrite lookup_insert_eq, default_some.
  apply (trigger_eq c ch); [exact Hc | apply restore_state].
Qed.

(** A state change for a participant the room did not know: the whole
    join is done first. *)
Lemma userUpdate_new_to_room c ch id l u st w :
  chat_heap w !! c = Some ch ->
  ce_users w !! id = Some l ->
  users ch !! id = None ->
  inherited id = false ->
  user_heap w !! l = Some u ->
  userUpdate c id st w
  = Normal tt
      (log (told c (plugins ch) "$.state"
              (about_state c l (object_assign (default ∅ (states u !! channel ch)) st)))
         (set_user_heap (fun h => <[l := joined (channel ch) c st u]> h)
            (set_chat_heap (fun h => <[c := set_users (fun us => <[id := l]> us) ch]> h)
               (log (told c (plugins ch) "$.online.new" (about_user c l)) w)))).
Proof.
  intros Hc Hid Hr Hord Hl. unfold userUpdate.
  assert (Hlt : l < length (user_heap w)) by (eapply lookup_lt_Some; exact Hl).
  assert (Hct : c < length (chat_heap w)) by (eapply lookup_lt_Some; exact Hc).
  rewrite (bind_Normal _ _ _ _ _ (ensure_user_known id l w Hid)).
  rewrite (bind_get_chat c ch) by exact Hc.
  rewrite (property_missing _ _ Hr Hord). cbn [present negb when]. mnorm.
  rewrite (bind_Normal _ _ _ _ _ (createUser_known c ch id l u st false w Hc Hid Hl)).
  rewrite (property_missing _ _ Hr Hord). cbn [present negb orb]. mnorm.
  set (ch1 := set_users (fun us => <[id := l]> us) ch).
  set (u1 := joined (channel ch) c st u).
  match goal with |- context [bind _ _ ?x] => set (w1 := x) end.
  assert (Hc1 : chat_heap w1 !! c = Some ch1).
  { subst w1. cbn [chat_heap set_chat_heap log set_user_heap].
    apply list_lookup_insert_eq. exact Hct. }
  assert (Hl1 : user_heap w1 !! l = Some u1).
  { subst w1. cbn [user_heap set_chat_heap log set_user_heap].
    apply list_lookup_insert_eq. exact Hlt. }
  rewrite (bind_get_chat c ch1) by exact Hc1.
  cbn [users ch1 set_users]. rewrite (property_own _ _ l (lookup_insert_eq _ _ _)).
  unfold assign. rewrite (bind_Normal _ _ _ _ _ (update_eq l u1 c ch1 st w1 Hl1 Hc1)).
  erewrite (bind_Normal _ _ _ _) by
    (eapply state_eq;
     [cbn [user_heap set_user_heap]; apply list_lookup_insert_eq;
      eapply lookup_lt_Some; exact Hl1 | exact Hc1]).
  cbn [states set_states]. rewrite lookup_insert_eq, default_some.
  erewrite trigger_eq; [ | exact Hc1 | apply restore_state ].
  cbn [channel plugins ch1 set_users].
  assert (Hm : object_assign (default ∅ (states u1 !! channel ch)) st
               = object_assign (default ∅ (states u !! channel ch)) st).
  { subst u1. unfold joined. cbn [states set_states set_chats].
    rewrite lookup_insert_eq, default_some. apply object_assign_idem. }
  rewrite Hm. f_equal. subst w1. world_fields. f_equal.
  rewrite list_insert_insert_eq. f_equal.
  subst u1. unfold joined, set_states, set_chats.
  cbn [uuid states chats feed direct isMe authData].
  rewrite insert_insert_eq. reflexivity.
Qed.

Lemma state_in_new_user id k w :
  state_in (length (user_heap w)) k (with_new_user id w) = ∅
  /\ state_in (length (user_heap w)) k w = ∅.
Proof.
  unfold state_in. split.
  - cbn [user_heap with_new_user].
    rewrite list_lookup_middle by reflexivity. cbn [states].
    destruct (decide (gkey w = k)) as [->|Hne].
    + rewrite lookup_singleton_eq. reflexivity.
    + rewrite lookup_singleton_ne by exact Hne. reflexivity.
  - rewrite lookup_ge_None_2 by lia. reflexivity.
Qed.

Lemma userUpdate_known_facts c ch id l u st w :
  chat_heap w !! c = Some ch ->
  ce_users w !! id = Some l ->
  user_heap w !! l = Some u ->
  (users ch !! id = None /\ inherited id = false \/ users ch !! id = Some l) ->
  exists w', userUpdate c id st w = Normal tt w' /\ updated c ch id st w l w'.
Proof.
  intros Hc Hid Hl Hr.
  assert (Hlt : l < length (user_heap w)) by (eapply lookup_lt_Some; exact Hl).
  assert (Hct : c < length (chat_heap w)) by (eapply lookup_lt_Some; exact Hc).
  destruct Hr as [[Hr Hord]|Hr].
  - eexists. split; [apply (userUpdate_new_to_room c ch id l u st w Hc Hid Hr Hord Hl)|].
    unfold updated, state_in. world_fields. rewrite Hl, (property_missing _ _ Hr Hord).
    cbn [present].
    rewrite !list_lookup_insert_eq by (try rewrite length_insert; assumption).
    split; [rewrite Hid; reflexivity|].
    split; [exact Hid|]. split.
    { eexists. split; [reflexivity|]. repeat split; reflexivity. }
    split; [eexists; reflexivity|].
    unfold joined. cbn [states set_states set_chats]. rewrite lookup_insert_eq, default_some.
    split; [reflexivity|]. rewrite <- app_assoc. reflexivity.
  - eexists. split; [apply (userUpdate_in_roster c ch id l l u st w Hc Hid Hr Hl)|].
    unfold updated, state_in. world_fields. rewrite Hl, (property_own _ _ _ Hr).
    cbn [present].
    rewrite !list_lookup_insert_eq by assumption.
    split; [rewrite Hid; reflexivity|].
    split; [exact Hid|]. split.
    { exists ch. split; [exact Hc|]. repeat split; try reflexivity.
      rewrite insert_id by exact Hr. reflexivity. }
    split; [eexists; reflexivity|].
    cbn [states set_states]. rewrite lookup_insert_eq, default_some.
    split; reflexivity.
Qed.

Lemma well_formed_table id l w :
  well_formed w -> ce_users w !! id = Some l ->
  exists u, user_heap w !! l = Some u /\ uuid u = id.
Proof.
  intros (_ & Ht & _) Hid. specialize (Ht id l Hid). cbn in Ht.
  destruct (user_heap w !! l) as [u|]; [|discriminate].
  exists u. split; [reflexivity|]. cbn in Ht. congruence.
Qed.

Lemma well_formed_roster c ch id l w :
  well_formed w -> chat_heap w !! c = Some ch -> users ch !! id = Some l ->
  ce_users w !! id = Some l.
Proof.
  intros (_ & _ & Hr) Hc Hid. unfold rosters_ok in Hr.
  rewrite Forall_lookup in Hr. exact (Hr c ch Hc id l Hid).
Qed.

(** The roster entry of a well-formed store is either absent or the
    table's. *)
Lemma roster_cases c ch id w :
  well_formed w -> chat_heap w !! c = Some ch ->
  match ce_users w !! id with
  | Some l => users ch !! id = None \/ users ch !! id = Some l
  | None => users ch !! id = None
  end.
Proof.
  intros Hwf Hc. destruct (users ch !! id) as [l'|] eqn:Hr.
  - rewrite (well_formed_roster c ch id l' w Hwf Hc Hr). right. reflexivity.
  - destruct (ce_users w !! id); [left|]; reflexivity.
Qed.

(** What [this.users[uuid]] is, when it is no inherited member. *)
Lemma property_cases o k :
  property o k <> Inherited ->
  (o !! k = None /\ inherited k = false) \/ exists l, o !! k = Some l.
Proof.
  unfold property. destruct (o !! k) as [l|]; [right; eauto|].
  destruct (inherited k); [congruence | left; split; reflexivity].
Qed.

Lemma userUpdate_facts c ch id st w :
  well_formed w ->
  chat_heap w !! c = Some ch ->
  property (users ch) id <> Inherited ->
  exists l w', userUpdate c id st w = Normal tt w' /\ updated c ch id st w l w'.
Proof.
  intros Hwf Hc Hp.
  assert (Hr : match ce_users w !! id with
               | Some l => users ch !! id = None /\ inherited id = false
                           \/ users ch !! id = Some l
               | None => users ch !! id = None /\ inherited id = false
               end).
  { pose proof (roster_cases c ch id w Hwf Hc) as Hr.
    destruct (property_cases _ _ Hp) as [Hn|[l' Hl']].
    - destruct (ce_users w !! id); [left|]; exact Hn.
    - rewrite (well_formed_roster c ch id l' w Hwf Hc Hl'). right. exact Hl'. }
  destruct (ce_users w !! id) as [l|] eqn:Hid.
  - destruct (well_formed_table id l w Hwf Hid) as (u & Hl & _).
    destruct (userUpdate_known_facts c ch id l u st w Hc Hid Hl Hr) as (w' & Hrun & Hup).
    exists l, w'. split; assumption.
  - destruct Hr as [Hr Hord].
    rewrite (userUpdate_fresh c id st w Hid Hord (proj1 Hwf)).
    destruct (userUpdate_known_facts c ch id (length (user_heap w))
                (mkUser id {[gkey w := ∅]} ∅
                   (length (chat_heap w)) (S (length (chat_heap w))) false VUndef)
                st (with_new_user id w))
      as (w' & Hrun & Hup).
    + cbn [chat_heap with_new_user]. apply lookup_app_l_Some. exact Hc.
    + cbn [ce_users with_new_user]. apply lookup_insert_eq.
    + cbn [user_heap with_new_user]. apply list_lookup_middle. reflexivity.
    + left. split; [exact Hr | exact Hord].
    + exists (length (user_heap w)), w'. split; [exact Hrun|].
      destruct Hup as (_ & H1 & H2 & H3 & H4 & H5).
      destruct (state_in_new_user id (channel ch) w) as [E1 E2].
      split; [rewrite Hid; reflexivity|].
      split; [exact H1|]. split; [exact H2|]. split; [exact H3|].
      split; [rewrite H4, E1, E2; reflexivity | exact H5].
Qed.


Lemma onPresence_state_change c ch w ev :
  chat_heap w !! c = Some ch ->
  channel ch = pe_channel ev ->
  pe_action ev = "state-change" ->
  onPresence c ev w = userUpdate c (pe_uuid ev) (pe_state ev) w.
Proof.
  intros Hc Hchan Hact. unfold onPresence. rewrite (bind_get_chat c ch) by exact Hc.
  destruct (decide (channel ch = pe_channel ev)); [|contradiction].
  rewrite Hact.
  change (bool_decide ("state-change" = "join")) with false.
  change (bool_decide ("state-change" = "leave")) with false.
  change (bool_decide ("state-change" = "timeout")) with false.
  change (bool_decide ("state-change" = "state-change")) with true.
  cbn [when]. mnorm. reflexivity.
Qed.

Lemma deliveries_nil event : deliveries event [] = 0.
Proof. reflexivity. Qed.




(** ** Merging state *)





(** ** A participant joins *)

Lemma onPresence_join c ch w ev :
  chat_heap w !! c = Some ch ->
  channel ch = pe_channel ev ->
  pe_action ev = "join" ->
  onPresence c ev w
  = (let* l := createUser c (pe_uuid ev) (pe_state ev) false in
     trigger c "$.online.join" (VObj {["user" := VUser l]})) w.
Proof.
  intros Hc Hchan Hact. unfold onPresence. rewrite (bind_get_chat c ch) by exact Hc.
  destruct (decide (channel ch = pe_channel ev)); [|contradiction].
  rewrite Hact.
  change (bool_decide ("join" = "join")) with true.
  change (bool_decide ("join" = "leave")) with false.
  change (bool_decide ("join" = "timeout")) with false.
  change (bool_decide ("join" = "state-change")) with false.
  cbn [when]. unfold bind.
  destruct (createUser c (pe_uuid ev) (pe_state ev) false w) as [l w1|x w1]; [|reflexivity].
  destruct (trigger c "$.online.join" (VObj {["user" := VUser l]}) w1) as [[] w2|x w2];
    reflexivity.
Qed.

Lemma createUser_known_facts c ch id l u st force w :
  chat_heap w !! c = Some ch ->
  ce_users w !! id = Some l ->
  user_heap w !! l = Some u ->
  exists w', createUser c id st force w = Normal l w' /\ welcomed c ch id st force w l w'.
Proof.
  intros Hc Hid Hl.
  assert (Hlt : l < length (user_heap w)) by (eapply lookup_lt_Some; exact Hl).
  assert (Hct : c < length (chat_heap w)) by (eapply lookup_lt_Some; exact Hc).
  eexists. split; [apply (createUser_known c ch id l u st force w Hc Hid Hl)|].
  unfold welcomed, state_in. world_fields. rewrite Hl.
  rewrite !list_lookup_insert_eq by assumption.
  split; [rewrite Hid; reflexivity|].
  split; [exact Hid|]. split.
  { eexists. split; [reflexivity|]. repeat split; reflexivity. }
  split; [eexists; reflexivity|].
  unfold joined. cbn [states set_states set_chats]. rewrite lookup_insert_eq, default_some.
  split; reflexivity.
Qed.

Lemma createUser_facts c ch id st force w :
  well_formed w ->
  chat_heap w !! c = Some ch ->
  property (ce_users w) id <> Inherited ->
  exists l w', createUser c id st force w = Normal l w' /\ welcomed c ch id st force w l w'.
Proof.
  intros Hwf Hc Hp.
  destruct (ce_users w !! id) as [l|] eqn:Hid.
  - destruct (well_formed_table id l w Hwf Hid) as (u & Hl & _).
    destruct (createUser_known_facts c ch id l u st force w Hc Hid Hl) as (w' & Hrun & Hup).
    exists l, w'. split; assumption.
  - assert (Hord : inherited id = false).
    { destruct (property_cases _ _ Hp) as [[_ H]|[l H]]; [exact H | congruence]. }
    rewrite (createUser_fresh c id st force w Hid Hord (proj1 Hwf)).
    destruct (createUser_known_facts c ch id (length (user_heap w))
                (mkUser id {[gkey w := ∅]} ∅
                   (length (chat_heap w)) (S (length (chat_heap w))) false VUndef)
                st force (with_new_user id w))
      as (w' & Hrun & Hup).
    + cbn [chat_heap with_new_user]. apply lookup_app_l_Some. exact Hc.
    + cbn [ce_users with_new_user]. apply lookup_insert_eq.
    + cbn [user_heap with_new_user]. apply list_lookup_middle. reflexivity.
    + exists (length (user_heap w)), w'. split; [exact Hrun|].
      destruct Hup as (_ & H1 & H2 & H3 & H4 & H5).
      destruct (state_in_new_user id (channel ch) w) as [E1 E2].
      split; [rewrite Hid; reflexivity|].
      split; [exact H1|]. split; [exact H2|]. split; [exact H3|].
      split; [rewrite H4, E1, E2; reflexivity | exact H5].
Qed.

(** C2: on a join presence notification for the room's channel the
    participant's user is taken from the global table (created there if
    absent), the state is merged into the user's state for the room, and the
    user is put in the roster.  [$.online.new], carrying that user, is
    triggered only when the id was not in the roster before, namely when
    [this.users[uuid]] was falsy; for an id already in the roster it is not
    triggered, unless [createUser] is called with its force flag.
    ([$.online.join] follows in either case.)  Where the table has no user
    of that id but yields a member of [Object.prototype], the call throws a
    [TypeError] and announces no one. *)
Theorem join_announces_new_participants_only c ch w ev :
  well_formed w ->
  chat_heap w !! c = Some ch ->
  channel ch = pe_channel ev ->
  pe_action ev = "join" ->
  (property (ce_users w) (pe_uuid ev) = Inherited ->
   onPresence c ev w = Thrown TypeError w)
  /\ (property (ce_users w) (pe_uuid ev) <> Inherited ->
      exists l w',
        onPresence c ev w = Normal tt w'
        /\ ce_users w' !! pe_uuid ev = Some l
        /\ roster c w' = <[pe_uuid ev := l]> (users ch)
        /\ state_in l (channel ch) w'
           = object_assign (state_in l (channel ch) w) (pe_state ev)
        /\ trace w'
           = (trace w
              ++ (if present (property (users ch) (pe_uuid ev)) then []
                  else told c (plugins ch) "$.online.new" (about_user c l))
              ++ told c (plugins ch) "$.online.join" (about_user c l))%list
        /\ deliveries "$.online.new" (trace w')
           = deliveries "$.online.new" (trace w)
             + (if present (property (users ch) (pe_uuid ev)) then 0 else 1)
        /\ (is_Some (users ch !! pe_uuid ev) ->
            deliveries "$.online.new" (trace w') = deliveries "$.online.new" (trace w))
        /\ (no_handler ch "on" "$.online.new" ->
            property (users ch) (pe_uuid ev) = Missing ->
            Local c "$.online.new" (about_user c l) ∈ trace w')
        /\ exists w'',
             createUser c (pe_uuid ev) (pe_state ev) true w = Normal l w''
             /\ deliveries "$.online.new" (trace w'')
                = deliveries "$.online.new" (trace w) + 1).
Proof.
  intros Hwf Hc Hchan Hact. rewrite (onPresence_join c ch w ev Hc Hchan Hact). split.
  { intros Hp. unfold property in Hp.
    destruct (ce_users w !! pe_uuid ev) eqn:Hid; [discriminate|].
    destruct (inherited (pe_uuid ev)) eqn:Hin; [|discriminate].
    unfold bind. rewrite (createUser_inherited c _ (pe_state ev) false w Hid Hin).
    reflexivity. }
  intros Hp.
  destruct (createUser_facts c ch (pe_uuid ev) (pe_state ev) false w Hwf Hc Hp)
    as (l & w1 & Hrun & Hl & Hid & (ch' & Hc' & _ & Hpl & Hus) & _ & Hst & Htr).
  destruct (createUser_facts c ch (pe_uuid ev) (pe_state ev) true w Hwf Hc Hp)
    as (l2 & w2 & Hrun2 & Hl2 & Hid2 & _ & _ & _ & Htr2).
  rewrite <- Hl in Hl2.
  subst l2.
  exists l. eexists.
  split.
  { rewrite (bind_Normal _ _ _ _ _ Hrun).
    apply (trigger_eq c ch'); [exact Hc' | apply restore_user]. }
  cbn [ce_users chat_heap user_heap trace log]. unfold roster, state_in.
  cbn [ce_users chat_heap user_heap trace log]. rewrite Hc', Hpl.
  fold (state_in l (channel ch) w1). fold (state_in l (channel ch) w).
  assert (Hnew : (if negb (present (property (users ch) (pe_uuid ev))) || false
                  then told c (plugins ch) "$.online.new" (about_user c l) else [])
                 = if present (property (users ch) (pe_uuid ev)) then []
                   else told c (plugins ch) "$.online.new" (about_user c l)).
  { destruct (present (property (users ch) (pe_uuid ev))); reflexivity. }
  rewrite Hnew in Htr.
  assert (Hcount : deliveries "$.online.new"
                     (trace w1 ++ told c (plugins ch) "$.online.join" (about_user c l))
                   = deliveries "$.online.new" (trace w)
                     + (if present (property (users ch) (pe_uuid ev)) then 0 else 1)).
  { rewrite Htr, !deliveries_app, deliveries_told.
    destruct (present (property (users ch) (pe_uuid ev)));
      rewrite ?deliveries_told, ?deliveries_nil;
      repeat case_decide; try congruence; lia. }
  split; [exact Hid|]. split; [exact Hus|]. split; [exact Hst|].
  split; [rewrite Htr, <- app_assoc; reflexivity|].
  split; [exact Hcount|].
  split.
  { intros [l0 Hr]. rewrite Hcount, (property_own _ _ _ Hr). cbn [present]. lia. }
  split.
  { intros Hn Hr. rewrite Htr, Hr, (told_no_handler c ch _ _ Hn). cbn [present].
    rewrite !elem_of_app. left. right. right. left. }
  exists w2. split; [exact Hrun2|].
  rewrite Htr2, orb_true_r, deliveries_app, deliveries_told. reflexivity.
Qed.

Lemma join_announces_new_participants_only_witness :
  onPresence 0 (mkPresence "join" "constructor" None lobby_channel) (lobby_world [])
  = Thrown TypeError (lobby_world [])
  /\ (exists w',
       onPresence 0 (mkPresence "join" "u2" (Some {["name" := VStr "Bob"]}) lobby_channel)
         (lobby_world []) = Normal tt w'
       /\ ce_users w' !! "u2" = Some 0
       /\ roster 0 w' = {["u2" := 0]}
       /\ state_in 0 lobby_channel w' = {["name" := VStr "Bob"]}
       /\ trace w'
          = [Ran 0 "on" "$.online.new" None VUndef;
             Local 0 "$.online.new" (VObj (<["chat" := VChat 0]> {["user" := VUser 0]}));
             Ran 0 "on" "$.online.join" None VUndef;
             Local 0 "$.online.join" (VObj (<["chat" := VChat 0]> {["user" := VUser 0]}))]
       /\ deliveries "$.online.new" (trace w') = 1)
  /\ exists w',
       onPresence 0 (mkPresence "join" "u2" None lobby_channel) lobby_with_bob
       = Normal tt w'
       /\ trace w'
          = [Ran 0 "on" "$.online.join" None VUndef;
             Local 0 "$.online.join" (VObj (<["chat" := VChat 0]> {["user" := VUser 0]}))]
       /\ deliveries "$.online.new" (trace w') = 0.
Proof.
  split; [|split].
  - apply (join_announces_new_participants_only 0 (lobby []) (lobby_world [])
             (mkPresence "join" "constructor" None lobby_channel));
      [apply (bool_decide_unpack _); vm_compute; exact I | reflexivity..].
  - destruct (join_announces_new_participants_only 0 (lobby []) (lobby_world [])
                (mkPresence "join" "u2" (Some {["name" := VStr "Bob"]}) lobby_channel))
      as [_ H]; [apply (bool_decide_unpack _); vm_compute; exact I | reflexivity..|].
    destruct H as (l & w' & Hrun & _); [discriminate|].
    exists w'. split; [exact Hrun|].
    apply (f_equal final_world) in Hrun. cbn [final_world] in Hrun. subst w'.
    vm_compute. repeat split; reflexivity.
  - destruct (join_announces_new_participants_only 0
                (mkChat lobby_channel {["u2" := 0]} ∅ [] false false) lobby_with_bob
                (mkPresence "join" "u2" None lobby_channel))
      as [_ H]; [apply (bool_decide_unpack _); vm_compute; exact I | reflexivity..|].
    destruct H as (l & w' & Hrun & _); [discriminate|].
    exists w'. split; [exact Hrun|].
    apply (f_equal final_world) in Hrun. cbn [final_world] in Hrun. subst w'.
    vm_compute. repeat split; reflexivity.
Defined.

(** ** Channel names of rooms and users *)

Lemma new_Chat_eq chan auto needGrant w :
  new_Chat chan auto needGrant w
  = Normal (length (chat_heap w))
      (log (if needGrant then [PostGrant (chat_channel (globalChannel w) chan needGrant)]
            else if auto
                 then [AddListener;
                       Subscribe (chat_channel (globalChannel w) chan needGrant);
                       HereNow (chat_channel (globalChannel w) chan needGrant)]
                 else [])
         (set_chat_heap
            (fun h => (h ++ [mkChat (chat_channel (globalChannel w) chan needGrant)
                               ∅ ∅ [] false auto])%list) w)).
Proof.
  unfold new_Chat. mnorm.
  set (ch := mkChat _ ∅ ∅ [] false auto).
  match goal with |- context [bind _ _ ?x] => set (w1 := x) end.
  assert (Hc : chat_heap w1 !! length (chat_heap w) = Some ch).
  { subst w1. cbn [chat_heap set_chat_heap]. apply list_lookup_middle. reflexivity. }
  destruct needGrant.
  - unfold grant. mnorm. rewrite (bind_get_chat _ ch) by exact Hc. mnorm. reflexivity.
  - unfold onPrep. mnorm. rewrite (bind_get_chat _ ch) by exact Hc.
    cbn [autoConnect ch]. destruct auto; cbn [when].
    + unfold connect. mnorm. rewrite (bind_get_chat _ ch) by exact Hc.
      cbn [connected ch negb when]. mnorm. reflexivity.
    + mnorm. rewrite log_nil. reflexivity.
Qed.

Lemma chat_channel_fresh g id needGrant :
  indexOf_is_minus1 id g = true ->
  chat_channel g id needGrant
  = g ++ ":chat:" ++ (if needGrant then "private." else "public.") ++ ":" ++ id.
Proof.
  intros H. unfold chat_channel. rewrite H. destruct needGrant; reflexivity.
Qed.

Lemma chat_channel_kept g rest needGrant :
  chat_channel g (g ++ rest) needGrant = g ++ rest.
Proof. unfold chat_channel. rewrite indexOf_app. reflexivity. Qed.

Lemma chat_channel_global g needGrant : chat_channel g g needGrant = g.
Proof. unfold chat_channel. rewrite indexOf_self. reflexivity. Qed.

Lemma new_User_prefix id st chat is_me w :
  global_ok w ->
  exists e f d,
    users f = ∅ /\ users d = ∅ /\
    channel f = chat_channel (globalChannel w) (feed_name (gname w) id) false /\
    channel d = chat_channel (globalChannel w) (direct_name (gname w) id) false /\
    new_User id st chat is_me w
    = (when (negb (present (property (ce_users w) id)))
            (modify (set_ce_users (fun us => <[id := length (user_heap w)]> us))) >>>
       assign (length (user_heap w)) st chat >>>
       ret (length (user_heap w)))
        (set_user_heap
           (fun h => (h ++ [mkUser id ∅ ∅ (length (chat_heap w)) (S (length (chat_heap w)))
                              is_me VUndef])%list)
           (log e (set_chat_heap (fun h => (h ++ [f; d])%list) w))).
Proof.
  intros Hg. unfold new_User.
  assert (Hgc : globalChat_channel w = Normal (gname w) w).
  { unfold globalChat_channel, gname, global_ok in *. rewrite bind_gets.
    destruct (globalChat w) as [g|]; [|reflexivity].
    destruct (lookup_lt_is_Some_2 _ _ Hg) as [gch Hgch].
    rewrite (bind_get_chat g gch) by exact Hgch. rewrite Hgch. reflexivity. }
  rewrite (bind_Normal _ _ _ _ _ Hgc).
  rewrite (bind_Normal _ _ _ _ _ (new_Chat_eq _ _ _ _)).
  rewrite (bind_Normal _ _ _ _ _ (new_Chat_eq _ _ _ _)).
  mnorm.
  cbn [ce_users user_heap chat_heap globalChannel log set_chat_heap set_user_heap].
  match goal with
  | |- context [log ?e2 (set_chat_heap (fun h2 => (h2 ++ [?d])%list)
                  (log ?e1 (set_chat_heap (fun h1 => (h1 ++ [?f])%list) w)))] =>
      exists (e1 ++ e2)%list, f, d
  end.
  split; [reflexivity|]. split; [reflexivity|].
  split; [reflexivity|]. split; [reflexivity|].
  rewrite length_app. cbn [length]. rewrite Nat.add_1_r.
  f_equal. unfold log, set_chat_heap, set_user_heap.
  cbn [globalChannel ce_users globalChat me user_heap chat_heap trace].
  rewrite <- !app_assoc. reflexivity.
Qed.

Lemma bind_get_chat_none {B} c (k : Chat -> M B) w :
  chat_heap w !! c = None -> bind (get_chat c) k w = Thrown InvalidReference w.
Proof. intros H. unfold bind, get_chat. rewrite H. reflexivity. Qed.

Lemma bind_get_user_none {B} l (k : User -> M B) w :
  user_heap w !! l = None -> bind (get_user l) k w = Thrown InvalidReference w.
Proof. intros H. unfold bind, get_user. rewrite H. reflexivity. Qed.

(** [update] either throws at once or rewrites one entry of the states of
    its user. *)
Lemma update_cases l st chat w :
  (exists e, update l st chat w = Thrown e w)
  \/ (exists u k m,
        user_heap w !! l = Some u
        /\ update l st chat w
           = Normal tt
               (set_user_heap
                  (fun h => <[l := set_states (fun ss => <[k := m]> ss) u]> h) w)).
Proof.
  unfold update, state, chat_key.
  destruct chat as [c|].
  - destruct (chat_heap w !! c) as [ch|] eqn:Hc.
    + destruct (user_heap w !! l) as [u|] eqn:Hl.
      * right. exists u. eexists _, _. split; [reflexivity|].
        mnorm. rewrite (bind_get_chat c ch) by exact Hc.
        mnorm. rewrite (bind_get_user l u) by exact Hl.
        mnorm. rewrite (bind_get_chat c ch) by exact Hc.
        mnorm. rewrite (bind_get_user l u) by exact Hl.
        reflexivity.
      * left. exists InvalidReference.
        mnorm. rewrite (bind_get_chat c ch) by exact Hc.
        mnorm. apply bind_get_user_none. exact Hl.
    + left. exists InvalidReference. mnorm. apply bind_get_chat_none. exact Hc.
  - destruct (user_heap w !! l) as [u|] eqn:Hl.
    + right. exists u. eexists _, _. split; [reflexivity|].
      mnorm. rewrite (bind_get_user l u) by exact Hl.
      mnorm. rewrite (bind_get_user l u) by exact Hl.
      reflexivity.
    + left. exists InvalidReference. mnorm. apply bind_get_user_none. exact Hl.
Qed.

(** [update] touches nothing but the states of its user. *)
Lemma update_frame l st chat w :
  chat_heap (final_world (update l st chat w)) = chat_heap w
  /\ forall u, user_heap w !! l = Some u ->
       exists u', user_heap (final_world (update l st chat w)) !! l = Some u'
                  /\ uuid u' = uuid u /\ feed u' = feed u /\ direct u' = direct u
                  /\ isMe u' = isMe u.
Proof.
  destruct (update_cases l st chat w) as [[e ->]|(u & k & m & Hl & ->)];
    cbn [final_world chat_heap user_heap set_user_heap].
  - split; [reflexivity|]. intros u Hu. exists u. repeat split; [exact Hu].
  - split; [reflexivity|]. intros u1 Hu1. rewrite Hl in Hu1. injection Hu1 as <-.
    eexists. split.
    { apply list_lookup_insert_eq. eapply lookup_lt_Some. exact Hl. }
    repeat split; reflexivity.
Qed.

(** C4, as the code has it: the parts of a channel name are joined with
    [":"], and the visibility part ends in a dot of its own.  A room built
    from an identifier that does not contain the global namespace gets the
    channel [<globalNamespace>:chat:<public.|private.>:<identifier>]; in a
    session whose global room carries the namespace as its channel, the
    feed and direct rooms of every user, [Me] or not, are
    [<globalNamespace>:user:<id>:read.:feed] and
    [<globalNamespace>:user:<id>:write.:direct]. *)
Theorem channel_names w id auto needGrant uid st chat is_me :
  indexOf_is_minus1 id (globalChannel w) = true ->
  gname w = globalChannel w ->
  global_ok w ->
  (exists w', new_Chat id auto needGrant w = Normal (length (chat_heap w)) w'
     /\ channel <$> (chat_heap w' !! length (chat_heap w))
        = Some (globalChannel w ++ ":chat:"
                ++ (if needGrant then "private." else "public.") ++ ":" ++ id))
  /\ chat_channel (globalChannel w) (globalChannel w) false = globalChannel w
  /\ (exists u,
        user_heap (final_world (new_User uid st chat is_me w)) !! length (user_heap w)
        = Some u
        /\ uuid u = uid
        /\ isMe u = is_me
        /\ channel <$> (chat_heap (final_world (new_User uid st chat is_me w)) !! feed u)
           = Some (globalChannel w ++ ":user:" ++ uid ++ ":read.:feed")
        /\ channel <$> (chat_heap (final_world (new_User uid st chat is_me w)) !! direct u)
           = Some (globalChannel w ++ ":user:" ++ uid ++ ":write.:direct")).
Proof.
  intros Hfresh Hg Hok. split; [|split].
  - eexists. split; [apply new_Chat_eq|].
    cbn [chat_heap log set_chat_heap]. rewrite list_lookup_middle by reflexivity.
    cbn [fmap option_fmap option_map channel].
    rewrite (chat_channel_fresh _ _ _ Hfresh). reflexivity.
  - apply chat_channel_global.
  - destruct (new_User_prefix uid st chat is_me w Hok)
      as (e & f & d & _ & _ & Hcf & Hcd & ->).
    rewrite Hg in Hcf, Hcd.
    set (l := length (user_heap w)).
    set (u0 := mkUser uid ∅ ∅ _ _ is_me VUndef).
    set (w3 := set_user_heap _ _).
    assert (Hgoal : forall w4,
              chat_heap w4 = (chat_heap w ++ [f; d])%list ->
              user_heap w4 !! l = Some u0 ->
              exists u,
                user_heap (final_world ((assign l st chat >>> ret l) w4)) !! l = Some u
                /\ uuid u = uid /\ isMe u = is_me
                /\ channel <$> (chat_heap (final_world ((assign l st chat >>> ret l) w4))
                                !! feed u)
                   = Some (globalChannel w ++ ":user:" ++ uid ++ ":read.:feed")
                /\ channel <$> (chat_heap (final_world ((assign l st chat >>> ret l) w4))
                                !! direct u)
                   = Some (globalChannel w ++ ":user:" ++ uid ++ ":write.:direct")).
    { intros w4 Hch Hl.
      destruct (update_frame l st chat w4) as (Hc' & Hu').
      destruct (Hu' u0 Hl) as (u' & Hl' & E1 & E2 & E3 & E4).
      assert (Hfin : final_world ((assign l st chat >>> ret l) w4)
                     = final_world (update l st chat w4)).
      { unfold assign, bind, ret. destruct (update l st chat w4); reflexivity. }
      rewrite Hfin, Hc', Hch. exists u'. split; [exact Hl'|].
      split; [exact E1|]. split; [exact E4|]. rewrite E2, E3. cbn [feed direct u0].
      split.
      - rewrite (list_lookup_middle (chat_heap w) _ _ (length (chat_heap w))) by reflexivity.
        cbn [fmap option_fmap option_map]. f_equal. rewrite Hcf.
        apply (chat_channel_kept (globalChannel w) (":user:" ++ uid ++ ":read.:feed")).
      - rewrite (lookup_app_r (chat_heap w)) by lia.
        replace (S (length (chat_heap w)) - length (chat_heap w)) with 1 by lia.
        cbn [lookup list_lookup fmap option_fmap option_map]. f_equal. rewrite Hcd.
        apply (chat_channel_kept (globalChannel w) (":user:" ++ uid ++ ":write.:direct")). }
    assert (Hl3 : user_heap w3 !! l = Some u0).
    { subst w3. cbn. apply list_lookup_middle. reflexivity. }
    destruct (negb (present (property (ce_users w) uid))); cbn [when].
    + rewrite bind_modify. apply Hgoal; [reflexivity | exact Hl3].
    + rewrite bind_ret. apply Hgoal; [reflexivity | exact Hl3].
Qed.

Lemma channel_names_witness :
  (exists w', new_Chat "lobby" true true global_world = Normal 1 w'
     /\ channel <$> (chat_heap w' !! 1) = Some "chat-engine:chat:private.:lobby")
  /\ chat_channel "chat-engine" "chat-engine" false = "chat-engine"
  /\ (exists u,
        user_heap (final_world (new_User "u2" (Some ∅) (Some 0) true global_world)) !! 0
        = Some u
        /\ uuid u = "u2"
        /\ isMe u = true
        /\ channel <$> (chat_heap (final_world
                                     (new_User "u2" (Some ∅) (Some 0) true global_world))
                        !! feed u)
           = Some "chat-engine:user:u2:read.:feed"
        /\ channel <$> (chat_heap (final_world
                                     (new_User "u2" (Some ∅) (Some 0) true global_world))
                        !! direct u)
           = Some "chat-engine:user:u2:write.:direct").
Proof.
  apply (channel_names global_world "lobby" true true "u2" (Some ∅) (Some 0) true).
  - reflexivity.
  - reflexivity.
  - cbn. lia.
Defined.

(** C4 as stated fails: for the namespace ["chat-engine"] the private room
    ["lobby"] and the feed and direct rooms of ["u2"] do not get the names
    the specification writes. *)
Lemma channel_names_differ_from_spec :
  indexOf_is_minus1 "lobby" "chat-engine" = true
  /\ chat_channel "chat-engine" "lobby" true <> spec_chat_channel "chat-engine" "lobby" true
  /\ chat_channel "chat-engine" "lobby" false <> spec_chat_channel "chat-engine" "lobby" false
  /\ chat_channel "chat-engine" (feed_name "chat-engine" "u2") false
     <> spec_feed_channel "chat-engine" "u2"
  /\ chat_channel "chat-engine" (direct_name "chat-engine" "u2") false
     <> spec_direct_channel "chat-engine" "u2".
Proof.
  split; [reflexivity|]. repeat split; vm_compute; discriminate.
Qed.

(** ** Well-formed stores stay well formed *)

Lemma evolves_refl w : evolves w w.
Proof. split; reflexivity. Qed.

Lemma evolves_trans w1 w2 w3 : evolves w1 w2 -> evolves w2 w3 -> evolves w1 w3.
Proof. intros [H1 H2] [H3 H4]. split; [etransitivity; eassumption | lia]. Qed.

Lemma wf_put_chat c ch' w :
  well_formed w ->
  map_Forall (fun id l => ce_users w !! id = Some l) (users ch') ->
  well_formed (set_chat_heap (fun h => <[c := ch']> h) w).
Proof.
  intros (Hg & Ht & Hr) Hch. split; [|split].
  - unfold global_ok in *. cbn [globalChat chat_heap set_chat_heap].
    destruct (globalChat w); [|exact I]. rewrite length_insert. exact Hg.
  - exact Ht.
  - unfold rosters_ok in *. cbn [chat_heap ce_users set_chat_heap].
    apply Forall_insert; assumption.
Qed.

Lemma wf_alloc_chat ch' w :
  well_formed w ->
  users ch' = ∅ ->
  well_formed (set_chat_heap (fun h => (h ++ [ch'])%list) w).
Proof.
  intros (Hg & Ht & Hr) Hch. split; [|split].
  - unfold global_ok in *. cbn [globalChat chat_heap set_chat_heap].
    destruct (globalChat w); [|exact I]. rewrite length_app. lia.
  - exact Ht.
  - unfold rosters_ok in *. cbn [chat_heap ce_users set_chat_heap].
    apply Forall_app. split; [exact Hr|]. apply Forall_singleton.
    rewrite Hch. apply map_Forall_empty.
Qed.

Lemma wf_put_user l u u' w :
  well_formed w ->
  user_heap w !! l = Some u ->
  uuid u' = uuid u ->
  well_formed (set_user_heap (fun h => <[l := u']> h) w).
Proof.
  intros (Hg & Ht & Hr) Hl Hu. split; [exact Hg|]. split; [|exact Hr].
  unfold table_ok in *. cbn [ce_users user_heap set_user_heap].
  intros id l0 Hid. specialize (Ht id l0 Hid). cbn in Ht. cbn.
  destruct (decide (l0 = l)) as [->|Hne].
  - rewrite list_lookup_insert_eq by (eapply lookup_lt_Some; exact Hl).
    rewrite Hl in Ht. cbn in *. congruence.
  - rewrite list_lookup_insert_ne by congruence. exact Ht.
Qed.

Lemma wf_alloc_user u w :
  well_formed w ->
  well_formed (set_user_heap (fun h => (h ++ [u])%list) w).
Proof.
  intros (Hg & Ht & Hr). split; [exact Hg|]. split; [|exact Hr].
  unfold table_ok in *. cbn [ce_users user_heap set_user_heap].
  intros id l0 Hid. specialize (Ht id l0 Hid). cbn in Ht. cbn.
  destruct (user_heap w !! l0) as [u0|] eqn:Hl0; [|discriminate].
  rewrite (lookup_app_l_Some _ _ _ _ Hl0). exact Ht.
Qed.

Lemma wf_table_insert id l w :
  well_formed w ->
  uuid <$> (user_heap w !! l) = Some id ->
  ce_users w !! id = None \/ ce_users w !! id = Some l ->
  well_formed (set_ce_users (fun us => <[id := l]> us) w).
Proof.
  intros (Hg & Ht & Hr) Hl Hid. split; [exact Hg|]. split.
  - unfold table_ok in *. cbn [ce_users user_heap set_ce_users].
    apply map_Forall_insert_2; assumption.
  - unfold rosters_ok in *. cbn [chat_heap ce_users set_ce_users].
    eapply Forall_impl; [exact Hr|]. intros ch Hch id' l' Hr'.
    specialize (Hch id' l' Hr'). cbn in Hch.
    destruct (decide (id = id')) as [<-|Hne].
    + destruct Hid as [Hid|Hid]; rewrite Hid in Hch; [discriminate|].
      injection Hch as ->. apply lookup_insert_eq.
    + rewrite lookup_insert_ne by exact Hne. exact Hch.
Qed.

Lemma wf_set_globalChat g w :
  well_formed w ->
  g < length (chat_heap w) ->
  well_formed (set_globalChat (Some g) w).
Proof. intros (Hg & Ht & Hr) Hlt. split; [exact Hlt|]. split; assumption. Qed.

Lemma evolves_table_insert id l w :
  ce_users w !! id = None \/ ce_users w !! id = Some l ->
  evolves w (set_ce_users (fun us => <[id := l]> us) w).
Proof.
  intros Hid. split; [|reflexivity]. cbn [ce_users set_ce_users].
  destruct Hid as [Hid|Hid].
  - apply insert_subseteq. exact Hid.
  - rewrite insert_id by exact Hid. reflexivity.
Qed.

Lemma evolves_put_chat c ch' w : evolves w (set_chat_heap (fun h => <[c := ch']> h) w).
Proof. split; [reflexivity|]. cbn [chat_heap set_chat_heap]. rewrite length_insert. lia. Qed.

Lemma evolves_alloc_chat ch' w : evolves w (set_chat_heap (fun h => (h ++ [ch'])%list) w).
Proof. split; [reflexivity|]. cbn [chat_heap set_chat_heap]. rewrite length_app. lia. Qed.

(** The rules. *)
Lemma keeps_ret {A} (P : World -> Prop) (a : A) (Q : A -> World -> Prop) :
  (forall w, P w -> Q a w) -> keeps P (ret a) Q.
Proof. intros H w Hwf Hp. cbn. split; [exact Hwf|]. split; [apply evolves_refl | auto]. Qed.

Lemma keeps_bind {A B} (P : World -> Prop) (m : M A) (Q : A -> World -> Prop)
    (k : A -> M B) (R : B -> World -> Prop) :
  keeps P m Q -> (forall a, keeps (Q a) (k a) R) -> keeps P (bind m k) R.
Proof.
  intros Hm Hk w Hwf Hp. unfold bind. specialize (Hm w Hwf Hp).
  destruct (m w) as [a w1|e w1]; [|exact Hm].
  destruct Hm as (Hwf1 & Hev1 & Hq). specialize (Hk a w1 Hwf1 Hq).
  destruct (k a w1) as [b w2|e w2].
  - destruct Hk as (Hwf2 & Hev2 & Hr). split; [exact Hwf2|].
    split; [eapply evolves_trans; eassumption | exact Hr].
  - destruct Hk as (Hwf2 & Hev2). split; [exact Hwf2|].
    eapply evolves_trans; eassumption.
Qed.

Lemma keeps_conseq {A} (P P' : World -> Prop) (m : M A) (Q Q' : A -> World -> Prop) :
  keeps P m Q -> (forall w, P' w -> P w) -> (forall a w, Q a w -> Q' a w) -> keeps P' m Q'.
Proof.
  intros Hm Hp Hq w Hwf Hp'. specialize (Hm w Hwf (Hp w Hp')).
  destruct (m w) as [a w1|e w1]; [|exact Hm].
  destruct Hm as (H1 & H2 & H3). auto.
Qed.

Lemma keeps_pre {A} (P P' : World -> Prop) (m : M A) (Q : A -> World -> Prop) :
  keeps P m Q -> (forall w, P' w -> P w) -> keeps P' m Q.
Proof. intros Hm Hp. eapply keeps_conseq; [exact Hm | exact Hp | auto]. Qed.

Lemma keeps_pre_wf {A} (P P' : World -> Prop) (m : M A) (Q : A -> World -> Prop) :
  keeps P m Q -> (forall w, well_formed w -> P' w -> P w) -> keeps P' m Q.
Proof. intros Hm Hp w Hwf Hp'. exact (Hm w Hwf (Hp w Hwf Hp')). Qed.

(** Going on from a store reached on the way. *)
Lemma keeps_from {A} (P : World -> Prop) (m : M A) (Q : A -> World -> Prop) w0 w :
  keeps P m Q -> well_formed w -> P w -> evolves w0 w ->
  match m w with
  | Normal a w' => well_formed w' /\ evolves w0 w' /\ Q a w'
  | Thrown _ w' => well_formed w' /\ evolves w0 w'
  end.
Proof.
  intros Hm Hwf Hp Hev. specialize (Hm w Hwf Hp).
  destruct (m w) as [a w'|e w'].
  - destruct Hm as (H1 & H2 & H3). split; [exact H1|].
    split; [eapply evolves_trans; eassumption | exact H3].
  - destruct Hm as (H1 & H2). split; [exact H1 | eapply evolves_trans; eassumption].
Qed.

Lemma keeps_frame {A} (S P : World -> Prop) (m : M A) (Q : A -> World -> Prop) :
  stable S ->
  keeps P m Q ->
  keeps (fun w => P w /\ S w) m (fun a w => Q a w /\ S w).
Proof.
  intros Hs Hm w Hwf [Hp Hsw]. specialize (Hm w Hwf Hp).
  destruct (m w) as [a w1|e w1]; [|exact Hm].
  destruct Hm as (H1 & H2 & H3). split; [exact H1|]. split; [exact H2|].
  split; [exact H3|]. eapply Hs; eassumption.
Qed.

(** A method that needs nothing can be run in any context that is
    stable. *)
Lemma keeps_in {A} (S : World -> Prop) (m : M A) (Q : A -> World -> Prop) :
  stable S ->
  keeps (fun _ => True) m Q ->
  keeps S m (fun a w => Q a w /\ S w).
Proof.
  intros Hs Hm. eapply keeps_conseq; [apply (keeps_frame S _ m Q Hs Hm)| |]; cbn; auto.
Qed.

Lemma keeps_throw {A} (P : World -> Prop) e (Q : A -> World -> Prop) : keeps P (throw e) Q.
Proof. intros w Hwf _. cbn. split; [exact Hwf | apply evolves_refl]. Qed.

Lemma keeps_gets {A} (P : World -> Prop) (f : World -> A) :
  keeps P (gets f) (fun a w => a = f w /\ P w).
Proof. intros w Hwf Hp. cbn. split; [exact Hwf|]. split; [apply evolves_refl | auto]. Qed.

Lemma keeps_get_chat (P : World -> Prop) c :
  keeps P (get_chat c) (fun ch w => chat_heap w !! c = Some ch /\ P w).
Proof.
  intros w Hwf Hp. unfold get_chat. destruct (chat_heap w !! c) as [ch|] eqn:Hc.
  - split; [exact Hwf|]. split; [apply evolves_refl | auto].
  - split; [exact Hwf | apply evolves_refl].
Qed.

Lemma keeps_get_user (P : World -> Prop) l :
  keeps P (get_user l) (fun u w => user_heap w !! l = Some u /\ P w).
Proof.
  intros w Hwf Hp. unfold get_user. destruct (user_heap w !! l) as [u|] eqn:Hl.
  - split; [exact Hwf|]. split; [apply evolves_refl | auto].
  - split; [exact Hwf | apply evolves_refl].
Qed.

Lemma keeps_modify (P : World -> Prop) (f : World -> World) (Q : unit -> World -> Prop) :
  (forall w, well_formed w -> P w -> well_formed (f w) /\ evolves w (f w) /\ Q tt (f w)) ->
  keeps P (modify f) Q.
Proof. intros H w Hwf Hp. cbn. apply H; assumption. Qed.

Lemma evolves_log e w : evolves w (log e w).
Proof. split; reflexivity. Qed.

Lemma keeps_log (P : World -> Prop) e :
  quiet P ->
  keeps P (modify (log e)) (fun _ w => P w).
Proof.
  intros H. apply keeps_modify. intros w Hwf Hp.
  split; [exact Hwf|]. split; [apply evolves_log | apply H; exact Hp].
Qed.

Lemma keeps_when (P : World -> Prop) (b : bool) (m : M unit) :
  keeps P m (fun _ w => P w) -> keeps P (when b m) (fun _ w => P w).
Proof. intros H. destruct b; [exact H|]. apply keeps_ret. auto. Qed.

Lemma stable_table id l : stable (fun w => ce_users w !! id = Some l).
Proof. intros w w' H [Hsub _]. eapply lookup_weaken; eassumption. Qed.

Lemma quiet_true : quiet (fun _ => True).
Proof. intros w e _. exact I. Qed.

Lemma quiet_table id l : quiet (fun w => ce_users w !! id = Some l).
Proof. intros w e H. exact H. Qed.

(** The methods that only read the store and write the trace. *)
Lemma runPluginQueue_keeps (P : World -> Prop) c location event first :
  quiet P ->
  keeps P (runPluginQueue c location event first) (fun _ w => P w).
Proof.
  intros Hq. unfold runPluginQueue.
  eapply keeps_bind; [apply keeps_get_chat|]. intros ch.
  destruct (waterfall _) as [called r].
  eapply keeps_bind.
  - eapply keeps_pre; [apply (keeps_log P _ Hq) | cbn; tauto].
  - intros ?. apply keeps_ret. auto.
Qed.

Lemma trigger_keeps (P : World -> Prop) c event payload :
  quiet P ->
  keeps P (trigger c event payload) (fun _ w => P w).
Proof.
  intros Hq. unfold trigger.
  eapply keeps_bind; [apply keeps_gets|]. intros known.
  destruct (restore c known payload) as [payload1|]; [|apply keeps_throw].
  eapply keeps_bind.
  - eapply keeps_pre; [apply (runPluginQueue_keeps P _ _ _ _ Hq) | cbn; tauto].
  - intros r. apply (keeps_log P _ Hq).
Qed.

Lemma connect_keeps (P : World -> Prop) c :
  quiet P -> keeps P (connect c) (fun _ w => P w).
Proof.
  intros Hq. unfold connect.
  eapply keeps_bind; [apply keeps_get_chat|]. intros ch.
  eapply keeps_pre; [apply (keeps_when P); apply (keeps_log P _ Hq) | cbn; tauto].
Qed.

Lemma onPrep_keeps (P : World -> Prop) c :
  quiet P -> keeps P (onPrep c) (fun _ w => P w).
Proof.
  intros Hq. unfold onPrep.
  eapply keeps_bind; [apply keeps_get_chat|]. intros ch.
  eapply keeps_pre; [apply (keeps_when P); apply (connect_keeps P _ Hq) | cbn; tauto].
Qed.

Lemma leave_keeps (P : World -> Prop) c :
  quiet P -> keeps P (leave c) (fun _ w => P w).
Proof.
  intros Hq. unfold leave.
  eapply keeps_bind; [apply keeps_get_chat|]. intros ch.
  eapply keeps_pre; [apply (keeps_log P _ Hq) | cbn; tauto].
Qed.

Lemma setState_keeps (P : World -> Prop) c st :
  quiet P -> keeps P (setState c st) (fun _ w => P w).
Proof.
  intros Hq. unfold setState.
  eapply keeps_bind; [apply keeps_get_chat|]. intros ch.
  eapply keeps_pre; [apply (keeps_log P _ Hq) | cbn; tauto].
Qed.

Lemma publish_keeps (P : World -> Prop) c event m :
  quiet P -> keeps P (publish c event m) (fun _ w => P w).
Proof.
  intros Hq. unfold publish.
  eapply keeps_bind; [apply keeps_get_chat|]. intros ch.
  destruct m; try apply keeps_throw;
    (eapply keeps_pre; [apply (keeps_log P _ Hq) | cbn; tauto]).
Qed.

(** Writing a chat or a user back. *)
Lemma put_chat_keeps c ch' :
  keeps (fun w => map_Forall (fun id l => ce_users w !! id = Some l) (users ch'))
        (put_chat c ch') (fun _ _ => True).
Proof.
  apply keeps_modify. intros w Hwf Hr.
  split; [apply wf_put_chat; assumption|]. split; [apply evolves_put_chat | exact I].
Qed.

Lemma roster_in_table c ch w :
  well_formed w -> chat_heap w !! c = Some ch ->
  map_Forall (fun id l => ce_users w !! id = Some l) (users ch).
Proof.
  intros (_ & _ & Hr) Hc. unfold rosters_ok in Hr.
  exact (Forall_lookup_1 _ _ _ _ Hr Hc).
Qed.

Lemma put_chat_same_roster_keeps c ch ch' :
  users ch' = users ch ->
  keeps (fun w => chat_heap w !! c = Some ch) (put_chat c ch') (fun _ _ => True).
Proof.
  intros Hus w Hwf Hc.
  apply (put_chat_keeps c ch' w Hwf). rewrite Hus.
  exact (roster_in_table c ch w Hwf Hc).
Qed.

Lemma put_user_keeps l u u' :
  uuid u' = uuid u ->
  keeps (fun w => user_heap w !! l = Some u) (put_user l u') (fun _ _ => True).
Proof.
  intros Hu. apply keeps_modify. intros w Hwf Hl.
  split; [eapply wf_put_user; eassumption|]. split; [split; reflexivity | exact I].
Qed.

Lemma safe_of {A} (P : World -> Prop) (m : M A) (Q : A -> World -> Prop) :
  keeps (fun _ => True) m Q -> keeps P m (fun _ _ => True).
Proof. intros H. eapply keeps_conseq; [exact H | intros; exact I | intros; exact I]. Qed.

Lemma ensure_event_safe c event : safe (ensure_event c event).
Proof.
  unfold safe, ensure_event.
  eapply keeps_bind; [apply keeps_get_chat|]. intros ch.
  destruct (decide (event ∈ events ch)); [apply keeps_ret; auto|].
  eapply keeps_bind.
  - eapply keeps_pre; [apply (put_chat_same_roster_keeps c ch); reflexivity | cbn; tauto].
  - intros ?. eapply keeps_pre; [apply (keeps_log _ _ quiet_true) | auto].
Qed.

Lemma plugin_safe c module : safe (plugin c module).
Proof.
  unfold safe, plugin.
  eapply keeps_bind; [apply keeps_get_chat|]. intros ch.
  eapply keeps_pre; [apply (put_chat_same_roster_keeps c ch); reflexivity | cbn; tauto].
Qed.

Lemma onStatus_safe c ev : safe (onStatus c ev).
Proof.
  unfold safe, onStatus.
  eapply keeps_bind.
  { apply (keeps_when (fun _ => True)). apply (keeps_log _ _ quiet_true). }
  intros ?. eapply keeps_bind; [apply keeps_get_chat|]. intros ch.
  destruct (decide _); [|apply keeps_ret; auto].
  destruct (decide _); [|apply keeps_ret; auto].
  eapply keeps_bind.
  - eapply keeps_pre; [apply (put_chat_same_roster_keeps c ch); reflexivity | cbn; tauto].
  - intros ?. eapply safe_of. apply (trigger_keeps _ _ _ _ quiet_true).
Qed.

Lemma me_uuid_safe : safe me_uuid.
Proof.
  unfold safe, me_uuid.
  eapply keeps_bind; [apply keeps_gets|]. intros m.
  destruct m as [l|]; [|apply keeps_ret; auto].
  eapply keeps_bind; [apply keeps_get_user|]. intros u. apply keeps_ret. auto.
Qed.

Lemma emit_safe c event data : safe (emit c event data).
Proof.
  unfold safe, emit.
  eapply keeps_bind; [apply me_uuid_safe|]. intros sender.
  eapply keeps_bind; [apply (runPluginQueue_keeps _ _ _ _ _ quiet_true)|]. intros r.
  destruct (payload_of r); try apply keeps_throw;
    (eapply keeps_bind; [apply ensure_event_safe|]; intros ?;
     apply (publish_keeps _ _ _ _ quiet_true)).
Qed.

Lemma onMessage_safe c event chan message : safe (onMessage c event chan message).
Proof.
  unfold safe, onMessage.
  eapply keeps_bind; [apply keeps_get_chat|]. intros ch.
  destruct (decide _); [|apply keeps_ret; auto].
  destruct message; try apply keeps_throw; try (apply keeps_ret; auto).
  destruct (get_field "event" fields);
    try apply keeps_throw; try (apply keeps_ret; auto).
  destruct (decide _); [|apply keeps_ret; auto].
  eapply safe_of. apply (trigger_keeps _ _ _ _ quiet_true).
Qed.

Lemma chat_key_safe chat : safe (chat_key chat).
Proof.
  unfold safe, chat_key. destruct chat as [c|]; [|apply keeps_ret; auto].
  eapply keeps_bind; [apply keeps_get_chat|]. intros ch. apply keeps_ret. auto.
Qed.

Lemma state_safe l chat : safe (state l chat).
Proof.
  unfold safe, state.
  eapply keeps_bind; [apply chat_key_safe|]. intros k.
  eapply keeps_bind; [apply keeps_get_user|]. intros u. apply keeps_ret. auto.
Qed.

Lemma update_safe l st chat : safe (update l st chat).
Proof.
  unfold safe, update.
  eapply keeps_bind; [apply state_safe|]. intros chatState.
  eapply keeps_bind; [apply chat_key_safe|]. intros k.
  eapply keeps_bind; [apply keeps_get_user|]. intros u.
  eapply keeps_pre; [apply (put_user_keeps l u); reflexivity | cbn; tauto].
Qed.

Lemma addChat_safe l c st : safe (addChat l c st).
Proof.
  unfold safe, addChat.
  eapply keeps_bind; [apply keeps_get_chat|]. intros ch.
  eapply keeps_bind; [apply keeps_get_user|]. intros u.
  eapply keeps_bind.
  - eapply keeps_pre; [apply (put_user_keeps l u); reflexivity | cbn; tauto].
  - intros ?. apply update_safe.
Qed.

Lemma me_update_safe l st chat : safe (me_update l st chat).
Proof.
  unfold safe, me_update.
  eapply keeps_bind; [apply update_safe|]. intros ?.
  destruct chat as [c|]; [|apply keeps_throw].
  apply (setState_keeps _ _ _ quiet_true).
Qed.

(** Creating chats and users. *)
Lemma new_Chat_keeps (P : World -> Prop) chan auto needGrant :
  keeps P (new_Chat chan auto needGrant) (fun c w => c < length (chat_heap w)).
Proof.
  intros w Hwf _. rewrite new_Chat_eq.
  split.
  { apply (wf_alloc_chat (mkChat (chat_channel (globalChannel w) chan needGrant)
                            ∅ ∅ [] false auto) w Hwf eq_refl). }
  split.
  { apply (evolves_alloc_chat (mkChat (chat_channel (globalChannel w) chan needGrant)
                                 ∅ ∅ [] false auto) w). }
  cbn [chat_heap log set_chat_heap]. rewrite length_app. cbn [length]. lia.
Qed.

(** [update] leaves the table of users alone. *)
Lemma update_table l st chat w :
  ce_users (final_world (update l st chat w)) = ce_users w.
Proof.
  destruct (update_cases l st chat w) as [[e ->]|(u & k & m & _ & ->)]; reflexivity.
Qed.

Lemma new_User_keeps id st chat is_me o :
  keeps (fun w => ce_users w !! id = o) (new_User id st chat is_me)
        (fun l w => ce_users w !! id
                    = match o with
                      | Some l' => Some l'
                      | None => if inherited id then None else Some l
                      end).
Proof.
  intros w Hwf Hp.
  destruct (new_User_prefix id st chat is_me w (proj1 Hwf))
    as (e & f & d & Hf & Hd & _ & _ & ->).
  set (l := length (user_heap w)).
  set (u0 := mkUser id ∅ ∅ _ _ is_me VUndef).
  set (w3 := set_user_heap _ _).
  assert (Hwf3 : well_formed w3).
  { subst w3. apply wf_alloc_user.
    change (well_formed (set_chat_heap (fun h => (h ++ [f; d])%list) w)).
    assert (H2 : well_formed (set_chat_heap (fun h => (h ++ [d])%list)
                                (set_chat_heap (fun h => (h ++ [f])%list) w))).
    { apply wf_alloc_chat; [apply wf_alloc_chat; assumption | assumption]. }
    unfold set_chat_heap in *. cbn in *. rewrite <- app_assoc in H2. exact H2. }
  assert (Hev3 : evolves w w3).
  { subst w3. split; [reflexivity|]. cbn. rewrite length_app. lia. }
  assert (Hl3 : user_heap w3 !! l = Some u0).
  { subst w3. cbn. apply list_lookup_middle. reflexivity. }
  assert (Hrest : forall o' : nat -> option nat,
                    keeps (fun w' => ce_users w' !! id = o' l)
                      (assign l st chat >>> ret l)
                      (fun a w' => ce_users w' !! id = o' a)).
  { intros o' w' Hwf' Hp'. unfold assign, bind.
    pose proof (update_safe l st chat w' Hwf' I) as Hs.
    pose proof (update_table l st chat w') as Ht.
    destruct (update l st chat w') as [[] w''|x w'']; cbn [final_world] in Ht; [|exact Hs].
    unfold ret. destruct Hs as (H1 & H2 & _).
    split; [exact H1|]. split; [exact H2|]. rewrite Ht. exact Hp'. }
  destruct o as [l'|].
  - rewrite (property_own _ _ _ Hp). cbn [present negb when]. rewrite bind_ret.
    refine (keeps_from _ _ (fun _ w' => ce_users w' !! id = Some l') w w3
              (Hrest (fun _ => Some l')) Hwf3 _ _); [exact Hp | exact Hev3].
  - destruct (inherited id) eqn:Hin.
    + rewrite (property_inherited _ _ Hp Hin). cbn [present negb when]. rewrite bind_ret.
      refine (keeps_from _ _ (fun _ w' => ce_users w' !! id = None) w w3
                (Hrest (fun _ => None)) Hwf3 _ _); [exact Hp | exact Hev3].
    + rewrite (property_missing _ _ Hp Hin). cbn [present negb when]. rewrite bind_modify.
      refine (keeps_from _ _ (fun a w' => ce_users w' !! id = Some a) w _
                (Hrest (fun a => Some a)) _ _ _).
      * apply wf_table_insert; [exact Hwf3 | rewrite Hl3; reflexivity | left; exact Hp].
      * cbn. apply lookup_insert_eq.
      * eapply evolves_trans; [exact Hev3|]. apply evolves_table_insert. left. exact Hp.
Qed.

Lemma new_User_safe id st chat is_me : safe (new_User id st chat is_me).
Proof.
  intros w Hwf _.
  pose proof (new_User_keeps id st chat is_me (ce_users w !! id) w Hwf eq_refl) as H.
  destruct (new_User id st chat is_me w); tauto.
Qed.

Lemma new_Me_safe id auth : safe (new_Me id auth).
Proof.
  unfold safe, new_Me.
  eapply keeps_bind; [apply keeps_gets|]. intros g.
  eapply keeps_bind; [eapply keeps_pre; [apply new_User_safe | intros; exact I]|]. intros l.
  eapply keeps_bind; [apply keeps_get_user|]. intros u.
  eapply keeps_bind.
  - eapply keeps_pre; [apply (put_user_keeps l u); reflexivity | cbn; tauto].
  - intros ?. apply keeps_ret. auto.
Qed.

Lemma table_insert_keeps id l :
  keeps (fun w => ce_users w !! id = Some l)
        (modify (set_ce_users (fun us => <[id := l]> us)))
        (fun _ w => ce_users w !! id = Some l).
Proof.
  apply keeps_modify. intros w Hwf Hid. split; [|split].
  - apply wf_table_insert; [exact Hwf | | right; exact Hid].
    destruct (well_formed_table id l w Hwf Hid) as (u & Hl & Hu). rewrite Hl. cbn. congruence.
  - apply evolves_table_insert. right. exact Hid.
  - cbn. apply lookup_insert_eq.
Qed.

Lemma ensure_user_keeps id :
  keeps (fun _ => True) (ensure_user id)
        (fun s w => forall l, s = Own l -> ce_users w !! id = Some l).
Proof.
  unfold ensure_user.
  eapply keeps_bind; [apply keeps_gets|]. intros known.
  unfold property. destruct (known !! id) as [l|] eqn:Hk.
  - eapply keeps_bind with (Q := fun _ w => ce_users w !! id = Some l).
    + eapply keeps_pre; [apply table_insert_keeps|]. cbn. intros w [-> _]. exact Hk.
    + intros ?. apply keeps_ret. intros w H l' [= <-]. exact H.
  - destruct (inherited id) eqn:Hin.
    + apply keeps_ret. intros w _ l [=].
    + eapply keeps_bind; [apply keeps_gets|]. intros g.
      eapply keeps_bind with (Q := fun l w => ce_users w !! id = Some l).
      * eapply keeps_conseq; [apply (new_User_keeps id (Some ∅) g false None) | |].
        -- cbn. intros w (_ & -> & _). exact Hk.
        -- cbn. intros l w. rewrite Hin. auto.
      * intros l. eapply keeps_bind; [apply table_insert_keeps|].
        intros ?. apply keeps_ret. intros w H l' [= <-]. exact H.
Qed.

(** Reconciling presence. *)
Lemma createUser_keeps c id st force :
  keeps (fun _ => True) (createUser c id st force) (fun l w => ce_users w !! id = Some l).
Proof.
  unfold createUser.
  eapply keeps_bind; [apply ensure_user_keeps|]. intros [l| |]; try apply keeps_throw.
  eapply keeps_bind.
  { eapply keeps_pre with (P := fun w => ce_users w !! id = Some l);
      [|cbn; intros w H; exact (H l eq_refl)].
    apply (keeps_in _ _ _ (stable_table id l) (addChat_safe l c st)). }
  intros ?. eapply keeps_bind; [apply keeps_get_chat|]. intros ch.
  eapply keeps_bind.
  { eapply keeps_pre.
    - apply (keeps_when (fun w => ce_users w !! id = Some l)).
      apply (trigger_keeps _ _ _ _ (quiet_table id l)).
    - cbn. tauto. }
  intros ?. eapply keeps_bind; [apply keeps_get_chat|]. intros ch'.
  eapply keeps_bind.
  { eapply keeps_pre
      with (P := fun w => (chat_heap w !! c = Some ch' /\ ce_users w !! id = Some l)
                          /\ ce_users w !! id = Some l); [|cbn; tauto].
    apply keeps_frame; [apply stable_table|].
    eapply keeps_pre_wf;
      [apply (put_chat_keeps c (set_users (fun us => <[id := l]> us) ch'))|].
    intros w Hwf [Hc Hid]. cbn [users set_users].
    apply map_Forall_insert_2; [exact Hid | exact (roster_in_table c ch' w Hwf Hc)]. }
  intros ?. apply keeps_ret. cbn. tauto.
Qed.

Lemma userUpdate_safe c id st : safe (userUpdate c id st).
Proof.
  unfold safe, userUpdate.
  eapply keeps_bind; [eapply safe_of; apply ensure_user_keeps|]. intros ?.
  eapply keeps_bind; [apply keeps_get_chat|]. intros ch.
  eapply keeps_bind.
  { eapply keeps_pre with (P := fun _ => True); [|auto].
    apply (keeps_when (fun _ => True)).
    eapply keeps_bind; [eapply safe_of; apply createUser_keeps|].
    intros ?. apply keeps_ret. auto. }
  intros ?. eapply keeps_bind; [apply keeps_get_chat|]. intros ch'.
  destruct (property (users ch') id) as [l| |]; try apply keeps_throw.
  eapply keeps_bind; [eapply safe_of; apply update_safe|]. intros ?.
  eapply keeps_bind; [eapply safe_of; apply state_safe|]. intros merged.
  apply (trigger_keeps _ _ _ _ quiet_true).
Qed.

Lemma userLeave_safe c id : safe (userLeave c id).
Proof.
  unfold safe, userLeave.
  eapply keeps_bind; [apply keeps_get_chat|]. intros ch.
  destruct (found (property (users ch) id) id) as [who|]; [|apply keeps_ret; auto].
  eapply keeps_bind; [eapply safe_of; apply (trigger_keeps _ _ _ _ quiet_true)|]. intros ?.
  eapply keeps_bind; [apply keeps_get_chat|]. intros ch'.
  eapply keeps_pre_wf; [apply (put_chat_keeps c (set_users (fun us => delete id us) ch'))|].
  intros w Hwf [Hc _]. cbn [users set_users].
  apply map_Forall_delete. exact (roster_in_table c ch' w Hwf Hc).
Qed.

Lemma userDisconnect_safe c id : safe (userDisconnect c id).
Proof.
  unfold safe, userDisconnect.
  eapply keeps_bind; [apply keeps_get_chat|]. intros ch.
  destruct (found (property (users ch) id) id) as [who|]; [|apply keeps_ret; auto].
  eapply safe_of. apply (trigger_keeps _ _ _ _ quiet_true).
Qed.

Lemma when_safe b (m : M unit) : safe m -> safe (when b m).
Proof. intros H. apply (keeps_when (fun _ => True)). exact H. Qed.

Lemma onPresence_safe c ev : safe (onPresence c ev).
Proof.
  unfold safe, onPresence.
  eapply keeps_bind; [apply keeps_get_chat|]. intros ch.
  destruct (decide _); [|apply keeps_ret; auto].
  eapply keeps_bind.
  { eapply safe_of. apply when_safe.
    eapply keeps_bind; [eapply safe_of; apply createUser_keeps|]. intros l.
    apply (trigger_keeps _ _ _ _ quiet_true). }
  intros ?. eapply keeps_bind; [apply when_safe, userLeave_safe|].
  intros ?. eapply keeps_bind; [apply when_safe, userDisconnect_safe|].
  intros ?. apply when_safe, userUpdate_safe.
Qed.

Lemma each_occupant_safe c occupants : safe (each_occupant c occupants).
Proof.
  induction occupants as [|[id st] rest IH]; cbn [each_occupant].
  - apply keeps_ret. auto.
  - eapply keeps_bind; [apply userUpdate_safe|]. intros ?. exact IH.
Qed.

Lemma onHereNow_safe c error occupants : safe (onHereNow c error occupants).
Proof.
  unfold onHereNow. destruct error.
  - apply (keeps_log (fun _ => True) [ConsoleLog] quiet_true).
  - apply each_occupant_safe.
Qed.

Lemma connect_complete_safe id st auth : safe (connect_complete id st auth).
Proof.
  unfold safe, connect_complete.
  eapply keeps_bind; [apply keeps_gets|]. intros g.
  eapply keeps_bind; [apply new_Chat_keeps|]. intros gchat.
  eapply keeps_bind.
  { apply keeps_modify with (Q := fun _ _ => True). intros w Hwf Hlt.
    split; [apply wf_set_globalChat; assumption|]. split; [split; reflexivity | exact I]. }
  intros ?. eapply keeps_bind; [apply new_Me_safe|]. intros m.
  eapply keeps_bind.
  { apply keeps_modify with (Q := fun _ _ => True). intros w Hwf _.
    split; [exact Hwf|]. split; [split; reflexivity | exact I]. }
  intros ?. eapply keeps_bind; [eapply safe_of; apply createUser_keeps|]. intros ?.
  eapply keeps_bind; [apply me_update_safe|]. intros ?.
  apply ensure_event_safe.
Qed.

Lemma perform_safe a : safe (perform a).
Proof.
  destruct a; cbn [perform].
  - apply connect_complete_safe.
  - eapply keeps_bind; [eapply safe_of; apply new_Chat_keeps|].
    intros ?. apply keeps_ret. auto.
  - eapply keeps_bind; [apply new_User_safe|]. intros ?. apply keeps_ret. auto.
  - apply plugin_safe.
  - apply (connect_keeps _ _ quiet_true).
  - apply (leave_keeps _ _ quiet_true).
  - apply emit_safe.
  - eapply keeps_bind; [apply keeps_gets|]. intros m.
    destruct m as [l|]; [|apply keeps_throw].
    eapply safe_of. apply me_update_safe.
  - apply (onPrep_keeps _ _ quiet_true).
  - apply onStatus_safe.
  - apply onPresence_safe.
  - apply onHereNow_safe.
  - apply onMessage_safe.
Qed.

Lemma safe_final {A} (m : M A) w :
  safe m -> well_formed w ->
  well_formed (final_world (m w)) /\ evolves w (final_world (m w)).
Proof.
  intros Hm Hwf. specialize (Hm w Hwf I). destruct (m w); cbn; tauto.
Qed.

Lemma init_well_formed g : well_formed (init g).
Proof.
  split; [exact I|]. split; [apply map_Forall_empty | apply Forall_nil_2].
Qed.

Lemma run_well_formed acts : forall w,
  well_formed w -> well_formed (run acts w) /\ evolves w (run acts w).
Proof.
  induction acts as [|a acts IH]; intros w Hwf; cbn [run].
  - split; [exact Hwf | apply evolves_refl].
  - destruct (safe_final (perform a) w (perform_safe a) Hwf) as [H1 H2].
    destruct (IH _ H1) as [H3 H4]. split; [exact H3|].
    eapply evolves_trans; eassumption.
Qed.

(** * Further properties *)

(** ** Presence notifications, one at a time *)

Lemma userDisconnect_eq c ch w id :
  chat_heap w !! c = Some ch ->
  userDisconnect c id w
  = Normal tt
      (match property (users ch) id with
       | Own l => log (told c (plugins ch) "$.offline.disconnect" (about_user c l)) w
       | Inherited => log (told c (plugins ch) "$.offline.disconnect" (about_member c id)) w
       | Missing => w
       end).
Proof.
  intros Hc. unfold userDisconnect. rewrite (bind_get_chat c ch) by exact Hc.
  destruct (property (users ch) id) as [l| |]; cbn [found]; [| |reflexivity].
  - apply (trigger_eq c ch); [exact Hc | apply restore_user].
  - apply (trigger_eq c ch); [exact Hc | apply restore_member].
Qed.

Lemma onPresence_timeout c ch w ev :
  chat_heap w !! c = Some ch ->
  channel ch = pe_channel ev ->
  pe_action ev = "timeout" ->
  onPresence c ev w = userDisconnect c (pe_uuid ev) w.
Proof.
  intros Hc Hchan Hact. unfold onPresence. rewrite (bind_get_chat c ch) by exact Hc.
  destruct (decide (channel ch = pe_channel ev)); [|contradiction].
  rewrite Hact.
  change (bool_decide ("timeout" = "join")) with false.
  change (bool_decide ("timeout" = "leave")) with false.
  change (bool_decide ("timeout" = "timeout")) with true.
  change (bool_decide ("timeout" = "state-change")) with false.
  cbn [when]. mnorm.
  unfold bind. destruct (userDisconnect c (pe_uuid ev) w) as [[] w'|x w']; reflexivity.
Qed.

(** X1: a timeout presence notification on the room's channel announces a
    participant who is in the roster with [$.offline.disconnect] and, unlike
    a leave, removes nobody: chats, users and the global table stay as they
    were.  For an id that is not in the roster nothing happens at all,
    unless it is the name of a member of [Object.prototype]: the roster
    object yields that member, and it is announced in place of a user. *)
Theorem timeout_keeps_roster c ch w ev :
  chat_heap w !! c = Some ch ->
  channel ch = pe_channel ev ->
  pe_action ev = "timeout" ->
  exists w',
    onPresence c ev w = Normal tt w'
    /\ chat_heap w' = chat_heap w
    /\ user_heap w' = user_heap w
    /\ ce_users w' = ce_users w
    /\ trace w'
       = (trace w
          ++ match property (users ch) (pe_uuid ev) with
             | Own l => told c (plugins ch) "$.offline.disconnect" (about_user c l)
             | Inherited =>
                 told c (plugins ch) "$.offline.disconnect" (about_member c (pe_uuid ev))
             | Missing => []
             end)%list
    /\ deliveries "$.offline.disconnect" (trace w')
       = deliveries "$.offline.disconnect" (trace w)
         + (if present (property (users ch) (pe_uuid ev)) then 1 else 0).
Proof.
  intros Hc Hchan Hact. rewrite (onPresence_timeout c ch w ev Hc Hchan Hact).
  rewrite (userDisconnect_eq c ch w _ Hc). eexists. split; [reflexivity|].
  destruct (property (users ch) (pe_uuid ev)) as [l| |]; cbn [present].
  - cbn [chat_heap user_heap ce_users trace log]. repeat split; try reflexivity.
    rewrite deliveries_app, deliveries_told. reflexivity.
  - cbn [chat_heap user_heap ce_users trace log]. repeat split; try reflexivity.
    rewrite deliveries_app, deliveries_told. reflexivity.
  - repeat split; try reflexivity; [symmetry; apply app_nil_r | lia].
Qed.

Lemma timeout_keeps_roster_witness :
  (exists w',
     onPresence 0 (mkPresence "timeout" "u2" None lobby_channel) lobby_with_bob
     = Normal tt w'
     /\ chat_heap w' = chat_heap lobby_with_bob
     /\ user_heap w' = user_heap lobby_with_bob
     /\ ce_users w' = ce_users lobby_with_bob
     /\ trace w'
        = [Ran 0 "on" "$.offline.disconnect" None VUndef;
           Local 0 "$.offline.disconnect"
             (VObj (<["chat" := VChat 0]> {["user" := VUser 0]}))]
     /\ deliveries "$.offline.disconnect" (trace w') = 1)
  /\ (exists w',
        onPresence 0 (mkPresence "timeout" "valueOf" None lobby_channel) lobby_with_bob
        = Normal tt w'
        /\ chat_heap w' = chat_heap lobby_with_bob
        /\ user_heap w' = user_heap lobby_with_bob
        /\ ce_users w' = ce_users lobby_with_bob
        /\ trace w'
           = [Ran 0 "on" "$.offline.disconnect" None VUndef;
              Local 0 "$.offline.disconnect"
                (VObj (<["chat" := VChat 0]> {["user" := VNative "valueOf"]}))]
        /\ deliveries "$.offline.disconnect" (trace w') = 1)
  /\ (exists w',
        onPresence 0 (mkPresence "timeout" "u3" None lobby_channel) lobby_with_bob
        = Normal tt w'
        /\ chat_heap w' = chat_heap lobby_with_bob
        /\ user_heap w' = user_heap lobby_with_bob
        /\ ce_users w' = ce_users lobby_with_bob
        /\ trace w' = []
        /\ deliveries "$.offline.disconnect" (trace w') = 0).
Proof.
  split; [|split].
  - exact (timeout_keeps_roster 0 (mkChat lobby_channel {["u2" := 0]} ∅ [] false false)
             lobby_with_bob (mkPresence "timeout" "u2" None lobby_channel)
             eq_refl eq_refl eq_refl).
  - exact (timeout_keeps_roster 0 (mkChat lobby_channel {["u2" := 0]} ∅ [] false false)
             lobby_with_bob (mkPresence "timeout" "valueOf" None lobby_channel)
             eq_refl eq_refl eq_refl).
  - exact (timeout_keeps_roster 0 (mkChat lobby_channel {["u2" := 0]} ∅ [] false false)
             lobby_with_bob (mkPresence "timeout" "u3" None lobby_channel)
             eq_refl eq_refl eq_refl).
Defined.

Lemma onPresence_other_action c ch w ev :
  chat_heap w !! c = Some ch ->
  pe_action ev <> "join" -> pe_action ev <> "leave" ->
  pe_action ev <> "timeout" -> pe_action ev <> "state-change" ->
  onPresence c ev w = Normal tt w.
Proof.
  intros Hc H1 H2 H3 H4. unfold onPresence. rewrite (bind_get_chat c ch) by exact Hc.
  destruct (decide (channel ch = pe_channel ev)); [|reflexivity].
  rewrite !bool_decide_eq_false_2 by assumption. reflexivity.
Qed.

(** X2: [onPresence] ignores what is not for it: a presence notification
    for another channel, whatever its action, and one for this channel whose
    action is none of join, leave, timeout and state-change, both leave the
    store and the trace exactly as they were. *)
Theorem foreign_presence_ignored c ch w ev :
  chat_heap w !! c = Some ch ->
  channel ch <> pe_channel ev
  \/ (pe_action ev <> "join" /\ pe_action ev <> "leave"
      /\ pe_action ev <> "timeout" /\ pe_action ev <> "state-change") ->
  onPresence c ev w = Normal tt w.
Proof.
  intros Hc [Hne|(H1 & H2 & H3 & H4)].
  - unfold onPresence. rewrite (bind_get_chat c ch) by exact Hc.
    destruct (decide (channel ch = pe_channel ev)); [contradiction | reflexivity].
  - apply (onPresence_other_action c ch w ev Hc H1 H2 H3 H4).
Qed.

Lemma foreign_presence_ignored_witness :
  onPresence 0 (mkPresence "join" "u9" None "chat-engine:chat:public.:elsewhere")
    lobby_with_bob
  = Normal tt lobby_with_bob.
Proof.
  apply (foreign_presence_ignored 0
           (mkChat lobby_channel {["u2" := 0]} ∅ [] false false) lobby_with_bob).
  - reflexivity.
  - left. cbn. discriminate.
Defined.

(** ** Presence notifications, in sequence *)

Lemma chat_heap_insert_same c (ch ch' : Chat) (h : list Chat) :
  h !! c = Some ch -> <[c := ch']> h !! c = Some ch'.
Proof.
  intros Hc. apply list_lookup_insert_eq. apply lookup_lt_is_Some. eauto.
Qed.

Lemma onPresence_roster c ch w ev :
  well_formed w ->
  chat_heap w !! c = Some ch ->
  channel ch = pe_channel ev ->
  inherited (pe_uuid ev) = false ->
  exists w' ch' l,
    onPresence c ev w = Normal tt w'
    /\ chat_heap w' !! c = Some ch'
    /\ channel ch' = channel ch
    /\ plugins ch' = plugins ch
    /\ users ch' = roster_after ev l (users ch).
Proof.
  intros Hwf Hc Hchan Hord. unfold roster_after.
  destruct (decide (pe_action ev = "join")) as [Hj|Hj].
  { rewrite (onPresence_join c ch w ev Hc Hchan Hj).
    destruct (createUser_facts c ch (pe_uuid ev) (pe_state ev) false w Hwf Hc
                (property_ordinary _ _ Hord))
      as (l & w1 & Hcu & _ & _ & (ch' & Hc' & Hch' & Hpl & Hus) & _).
    rewrite (bind_Normal _ _ _ _ _ Hcu).
    rewrite (trigger_eq c ch' w1 _ _ _ Hc' (restore_user _ _ _)).
    eexists _, ch', l. split; [reflexivity|].
    rewrite Hj. cbn [orb]. change (bool_decide ("join" = "join")) with true. cbn [orb].
    repeat split; assumption. }
  destruct (decide (pe_action ev = "state-change")) as [Hs|Hs].
  { rewrite (onPresence_state_change c ch w ev Hc Hchan Hs).
    destruct (userUpdate_facts c ch (pe_uuid ev) (pe_state ev) w Hwf Hc
                (property_ordinary _ _ Hord))
      as (l & w1 & Hu & _ & _ & (ch' & Hc' & Hch' & Hpl & Hus) & _).
    rewrite Hu. eexists w1, ch', l. split; [reflexivity|].
    rewrite Hs. change (bool_decide ("state-change" = "join")) with false.
    change (bool_decide ("state-change" = "state-change")) with true. cbn [orb].
    repeat split; assumption. }
  rewrite (bool_decide_eq_false_2 _ Hj), (bool_decide_eq_false_2 _ Hs). cbn [orb].
  destruct (decide (pe_action ev = "leave")) as [Hl|Hl].
  { rewrite (onPresence_leave c ch w ev Hc Hchan Hl).
    rewrite (bool_decide_eq_true_2 _ Hl).
    destruct (users ch !! pe_uuid ev) as [l|] eqn:Hin.
    - rewrite (userLeave_present c ch w _ l Hc Hin).
      eexists _, (set_users (fun us => delete (pe_uuid ev) us) ch), 0.
      split; [reflexivity|]. cbn [chat_heap set_chat_heap log].
      split; [apply (chat_heap_insert_same c ch), Hc|]. repeat split.
    - rewrite (userLeave_absent c ch w _ Hc Hin Hord).
      exists w, ch, 0. rewrite (delete_id _ _ Hin). repeat split. exact Hc. }
  rewrite (bool_decide_eq_false_2 _ Hl).
  destruct (decide (pe_action ev = "timeout")) as [Ht|Ht].
  { rewrite (onPresence_timeout c ch w ev Hc Hchan Ht), (userDisconnect_eq c ch w _ Hc).
    eexists _, ch, 0. split; [reflexivity|].
    split; [|repeat split].
    destruct (property (users ch) (pe_uuid ev)); exact Hc. }
  rewrite (onPresence_other_action c ch w ev Hc Hj Hl Ht Hs).
  exists w, ch, 0. repeat split. exact Hc.
Qed.

Lemma member_roster_after id ev l us :
  member id (roster_after ev l us) = presence_effect id (member id us) ev.
Proof.
  unfold member, roster_after, presence_effect.
  destruct (bool_decide (pe_action ev = "join") || bool_decide (pe_action ev = "state-change")).
  - case_bool_decide as Hid.
    + subst id. rewrite lookup_insert_eq. reflexivity.
    + rewrite lookup_insert_ne by exact Hid. reflexivity.
  - destruct (bool_decide (pe_action ev = "leave")).
    + case_bool_decide as Hid.
      * subst id. rewrite lookup_delete_eq. reflexivity.
      * rewrite lookup_delete_ne by exact Hid. reflexivity.
    + case_bool_decide; reflexivity.
Qed.

(** X3: roster reconciliation.  After any sequence of presence
    notifications on a room's channel, delivered one after the other to a
    well-formed store and none of them about an id that names a member of
    [Object.prototype], each of them returns and an id is in the roster
    exactly when the last join, state change or leave about it was not a
    leave (or, with none of these, when it was there before).  Timeouts and
    unknown actions change nothing; a state change adds like a join. *)
Theorem roster_follows_presence c evs : forall w ch,
  well_formed w ->
  chat_heap w !! c = Some ch ->
  Forall (fun ev => pe_channel ev = channel ch /\ inherited (pe_uuid ev) = false) evs ->
  each_returns c evs w
  /\ forall id,
       member id (roster c (run (map (OnPresence c) evs) w))
       = present_after evs id (member id (users ch)).
Proof.
  induction evs as [|ev evs IH]; intros w ch Hwf Hc Hall.
  - split; [exact I|]. intros id.
    cbn [map run present_after fold_left]. unfold roster. rewrite Hc. reflexivity.
  - inversion Hall as [|? ? [Hev Hord] Hrest]; subst.
    destruct (onPresence_roster c ch w ev Hwf Hc (eq_sym Hev) Hord)
      as (w' & ch' & l & Hrun & Hc' & Hch' & _ & Hus).
    pose proof (safe_final (onPresence c ev) w (onPresence_safe c ev) Hwf) as [Hwf' _].
    rewrite Hrun in Hwf'. cbn [final_world] in Hwf'.
    assert (Hrest' : Forall (fun ev => pe_channel ev = channel ch'
                                       /\ inherited (pe_uuid ev) = false) evs)
      by (rewrite Hch'; exact Hrest).
    destruct (IH w' ch' Hwf' Hc' Hrest') as [Hret Hmem].
    split.
    + cbn [each_returns]. exists w'. split; [exact Hrun | exact Hret].
    + intros id. cbn [map run perform present_after fold_left].
      rewrite Hrun. cbn [final_world]. rewrite Hmem.
      unfold present_after. rewrite Hus, member_roster_after. reflexivity.
Qed.

Lemma roster_follows_presence_witness :
  each_returns 0
    [mkPresence "join" "u1" None lobby_channel;
     mkPresence "state-change" "u3" (Some {["mood" := VStr "fine"]}) lobby_channel;
     mkPresence "timeout" "u1" None lobby_channel;
     mkPresence "leave" "u2" None lobby_channel]
    lobby_with_bob
  /\ member "u2"
       (roster 0
          (run (map (OnPresence 0)
                  [mkPresence "join" "u1" None lobby_channel;
                   mkPresence "state-change" "u3" (Some {["mood" := VStr "fine"]})
                     lobby_channel;
                   mkPresence "timeout" "u1" None lobby_channel;
                   mkPresence "leave" "u2" None lobby_channel])
             lobby_with_bob))
     = false
  /\ member "u3"
       (roster 0
          (run (map (OnPresence 0)
                  [mkPresence "join" "u1" None lobby_channel;
                   mkPresence "state-change" "u3" (Some {["mood" := VStr "fine"]})
                     lobby_channel;
                   mkPresence "timeout" "u1" None lobby_channel;
                   mkPresence "leave" "u2" None lobby_channel])
             lobby_with_bob))
     = true.
Proof.
  destruct (roster_follows_presence 0
              [mkPresence "join" "u1" None lobby_channel;
               mkPresence "state-change" "u3" (Some {["mood" := VStr "fine"]}) lobby_channel;
               mkPresence "timeout" "u1" None lobby_channel;
               mkPresence "leave" "u2" None lobby_channel]
              lobby_with_bob
              (mkChat lobby_channel {["u2" := 0]} ∅ [] false false)) as [Hret Hmem].
  - apply (bool_decide_unpack _). vm_compute. exact I.
  - reflexivity.
  - repeat constructor.
  - split; [exact Hret|]. split; [exact (Hmem "u2") | exact (Hmem "u3")].
Defined.

(** ** The occupancy answer *)

Lemma member_insert id id0 l (us : gmap string nat) :
  member id (<[id0 := l]> us) = bool_decide (id = id0) || member id us.
Proof.
  unfold member. case_bool_decide as Hid.
  - subst id. rewrite lookup_insert_eq. reflexivity.
  - rewrite lookup_insert_ne by congruence. reflexivity.
Qed.

Lemma each_occupant_facts c occupants : forall w ch,
  well_formed w ->
  chat_heap w !! c = Some ch ->
  Forall (fun o => inherited (fst o) = false) occupants ->
  exists w' ch',
    each_occupant c occupants w = Normal tt w'
    /\ well_formed w'
    /\ chat_heap w' !! c = Some ch'
    /\ channel ch' = channel ch
    /\ plugins ch' = plugins ch
    /\ (forall id, member id (users ch')
                   = member id (users ch) || bool_decide (id ∈ occupants.*1))
    /\ deliveries "$.state" (trace w') = deliveries "$.state" (trace w) + length occupants.
Proof.
  induction occupants as [|[id0 st] rest IH]; intros w ch Hwf Hc Hall.
  - exists w, ch. cbn [each_occupant length fmap list_fmap].
    split; [reflexivity|]. split; [exact Hwf|]. split; [exact Hc|].
    split; [reflexivity|]. split; [reflexivity|]. split; [|lia].
    intros id. rewrite bool_decide_eq_false_2 by apply not_elem_of_nil.
    symmetry. apply orb_false_r.
  - inversion Hall as [|? ? Hord Hrest]; subst. cbn [fst] in Hord.
    destruct (userUpdate_facts c ch id0 st w Hwf Hc (property_ordinary _ _ Hord))
      as (l & w1 & Hu & _ & _ & (ch1 & Hc1 & Hch1 & Hpl1 & Hus1) & _ & _ & Htr).
    pose proof (safe_final (userUpdate c id0 st) w (userUpdate_safe c id0 st) Hwf) as [Hwf1 _].
    rewrite Hu in Hwf1. cbn [final_world] in Hwf1.
    destruct (IH w1 ch1 Hwf1 Hc1 Hrest)
      as (w' & ch' & Hrun & Hwf' & Hc' & Hch' & Hpl' & Hmem & Hdel).
    exists w', ch'. cbn [each_occupant]. rewrite (bind_Normal _ _ _ _ _ Hu).
    split; [exact Hrun|]. split; [exact Hwf'|]. split; [exact Hc'|].
    split; [congruence|]. split; [congruence|]. split.
    + intros id. rewrite Hmem, Hus1, member_insert, fmap_cons. cbn [fst].
      rewrite (bool_decide_ext _ _ (elem_of_cons (rest.*1) id id0)), bool_decide_or.
      destruct (bool_decide (id = id0)), (member id (users ch)),
        (bool_decide (id ∈ rest.*1)); reflexivity.
    + rewrite Hdel, Htr, !deliveries_app, deliveries_told.
      assert (deliveries "$.state"
                (if present (property (users ch) id0) then []
                 else told c (plugins ch) "$.online.new" (about_user c l)) = 0) as ->.
      { destruct (present (property (users ch) id0)); [reflexivity|].
        rewrite deliveries_told. case_decide; [discriminate | reflexivity]. }
      case_decide; [|congruence]. cbn [length]. lia.
Qed.

(** X4: the occupancy answer only adds.  [onHereNow] on a well-formed
    store, for an answer that lists no id naming a member of
    [Object.prototype], returns; with an error it logs and leaves every
    roster as it was, otherwise the room's roster afterwards holds whoever
    was in it before and every occupant of the answer, and each occupant,
    new or not and as often as it is listed, has been announced with one
    [$.state]. *)
Theorem hereNow_only_adds c error occupants w ch :
  well_formed w ->
  chat_heap w !! c = Some ch ->
  Forall (fun o => inherited (fst o) = false) occupants ->
  exists w',
    onHereNow c error occupants w = Normal tt w'
    /\ well_formed w'
    /\ (forall id, member id (roster c w')
                   = member id (users ch)
                     || (negb error && bool_decide (id ∈ occupants.*1)))
    /\ deliveries "$.state" (trace w')
       = deliveries "$.state" (trace w) + (if error then 0 else length occupants)
    /\ (error = true -> trace w' = (trace w ++ [ConsoleLog])%list).
Proof.
  intros Hwf Hc Hall. unfold onHereNow. destruct error.
  - exists (log [ConsoleLog] w). split; [reflexivity|].
    pose proof (safe_final (onHereNow c true occupants) w
                  (onHereNow_safe c true occupants) Hwf) as [Hwf' _].
    split; [exact Hwf'|]. unfold roster. cbn [chat_heap log trace negb andb]. rewrite Hc.
    split; [intros id; symmetry; apply orb_false_r|].
    split; [|reflexivity]. rewrite deliveries_app. cbn. lia.
  - destruct (each_occupant_facts c occupants w ch Hwf Hc Hall)
      as (w' & ch' & Hrun & Hwf' & Hc' & _ & _ & Hmem & Hdel).
    exists w'. split; [exact Hrun|]. split; [exact Hwf'|]. unfold roster. rewrite Hc'.
    split; [exact Hmem|]. split; [exact Hdel | discriminate].
Qed.

Lemma hereNow_only_adds_witness :
  exists w',
    onHereNow 0 false [("u1", None); ("u2", Some {["mood" := VStr "fine"]}); ("u1", None)]
      lobby_with_bob = Normal tt w'
    /\ well_formed w'
    /\ (forall id, member id (roster 0 w')
                   = member id {["u2" := 0]}
                     || (negb false && bool_decide (id ∈ ["u1"; "u2"; "u1"])))
    /\ deliveries "$.state" (trace w') = 3
    /\ (false = true -> trace w' = (trace lobby_with_bob ++ [ConsoleLog])%list).
Proof.
  refine (hereNow_only_adds 0 false
            [("u1", None); ("u2", Some {["mood" := VStr "fine"]}); ("u1", None)]
            lobby_with_bob (mkChat lobby_channel {["u2" := 0]} ∅ [] false false) _ _ _).
  - apply (bool_decide_unpack _). vm_compute. exact I.
  - reflexivity.
  - repeat constructor.
Defined.

(** ** Emitting and receiving *)

Lemma emit_eq c ch w event data sender :
  chat_heap w !! c = Some ch ->
  me_uuid w = Normal sender w ->
  emit c event data w
  = match payload_of (snd (waterfall (plugin_queue (Next VNull (emit_seed c sender data))
                                        (plugins ch) "emit" event))) with
    | VUndef | VNull => throw TypeError
    | VObj fs => ensure_event c event >>> publish c event (VObj (delete "chat" fs))
    | p => ensure_event c event >>> publish c event p
    end
      (log (ran c "emit" event
              (fst (waterfall (plugin_queue (Next VNull (emit_seed c sender data))
                                 (plugins ch) "emit" event)))) w).
Proof.
  intros Hc Hme. unfold emit. rewrite (bind_Normal _ _ _ _ _ Hme).
  rewrite (bind_Normal _ _ _ _ _ (runPluginQueue_eq c ch w "emit" event _ Hc)).
  fold (emit_seed c sender data).
  destruct (payload_of _); reflexivity.
Qed.

Lemma ensure_event_facts c ch w event :
  chat_heap w !! c = Some ch ->
  exists w' ch',
    ensure_event c event w = Normal tt w'
    /\ chat_heap w' !! c = Some ch'
    /\ channel ch' = channel ch /\ plugins ch' = plugins ch /\ users ch' = users ch
    /\ events ch' = {[event]} ∪ events ch
    /\ ce_users w' = ce_users w /\ user_heap w' = user_heap w /\ me w' = me w
    /\ trace w' = (trace w ++ if decide (event ∈ events ch) then [] else [AddListener])%list.
Proof.
  intros Hc. rewrite (ensure_event_eq c ch w event Hc).
  destruct (decide (event ∈ events ch)) as [Hin|Hin].
  - exists w, ch. split; [reflexivity|]. split; [exact Hc|].
    repeat split; [|symmetry; apply app_nil_r].
    apply set_eq. intros x. rewrite elem_of_union, elem_of_singleton.
    split; [tauto | intros [->|?]; assumption].
  - eexists _, (set_events (fun es => {[event]} ∪ es) ch). split; [reflexivity|].
    cbn [chat_heap set_chat_heap log]. split; [apply (chat_heap_insert_same c ch), Hc|].
    repeat split.
Qed.

Lemma filter_publish_ran c location event called tr :
  List.filter is_publish (tr ++ ran c location event called)%list
  = List.filter is_publish tr.
Proof.
  rewrite List.filter_app, filter_ran by reflexivity. apply app_nil_r.
Qed.

(** X5: whatever the plugins do, [emit] publishes at most once and never
    sends the chat along.  When it returns, exactly one message has been
    published, on the room's channel, and a plain-object message has no
    [chat] property and carries the event name under [event]; the [Event]
    is registered afterwards.  When it throws, it is a [TypeError] and
    nothing has been published. *)
Theorem emit_publishes_once c ch w event data sender :
  chat_heap w !! c = Some ch ->
  me_uuid w = Normal sender w ->
  match emit c event data w with
  | Normal _ w' =>
      (exists m,
         List.filter is_publish (trace w')
         = (List.filter is_publish (trace w) ++ [Publish (channel ch) m])%list
         /\ forall fs, m = VObj fs ->
              fs !! "chat" = None /\ fs !! "event" = Some (VStr event))
      /\ exists ch', chat_heap w' !! c = Some ch' /\ event ∈ events ch'
  | Thrown e w' =>
      e = TypeError
      /\ List.filter is_publish (trace w') = List.filter is_publish (trace w)
  end.
Proof.
  intros Hc Hme. rewrite (emit_eq c ch w event data sender Hc Hme).
  set (q := waterfall _). clearbody q.
  set (w0 := log (ran c "emit" event (fst q)) w).
  assert (Hc0 : chat_heap w0 !! c = Some ch) by exact Hc.
  assert (Hp0 : List.filter is_publish (trace w0) = List.filter is_publish (trace w))
    by apply filter_publish_ran.
  destruct (ensure_event_facts c ch w0 event Hc0)
    as (w1 & ch1 & He & Hc1 & Hch1 & _ & _ & Hev1 & _ & _ & _ & Htr1).
  assert (Hp1 : List.filter is_publish (trace w1) = List.filter is_publish (trace w)).
  { rewrite Htr1, List.filter_app, Hp0.
    destruct (decide (event ∈ events ch)); apply app_nil_r. }
  assert (Hin : event ∈ events ch1).
  { rewrite Hev1. apply elem_of_union_l, elem_of_singleton. reflexivity. }
  clearbody w0.
  assert (Hpub : forall m, (ensure_event c event >>> publish c event m) w0
                           = publish c event m w1).
  { intros m.
    exact (bind_Normal (ensure_event c event) (fun _ => publish c event m) w0 tt w1 He). }
  assert (Hsent : forall m,
            is_object m = true -> m <> VNull ->
            (forall fs, m = VObj fs -> fs !! "chat" = None) ->
            match publish c event m w1 with
            | Normal _ w' =>
                (exists m',
                   List.filter is_publish (trace w')
                   = (List.filter is_publish (trace w) ++ [Publish (channel ch) m'])%list
                   /\ forall fs, m' = VObj fs ->
                        fs !! "chat" = None /\ fs !! "event" = Some (VStr event))
                /\ exists ch', chat_heap w' !! c = Some ch' /\ event ∈ events ch'
        | Thrown e w' =>
            e = TypeError
            /\ List.filter is_publish (trace w') = List.filter is_publish (trace w)
        end).
  { intros m Hobj Hnn Hchat. rewrite (publish_eq c ch1 w1 event m Hc1).
    destruct m as [| |b|z|s|fs|l|c0|k]; try discriminate; try congruence.
    - split; [|exists ch1; split; assumption].
      eexists. cbn [trace log]. rewrite List.filter_app, Hp1, Hch1.
      split; [reflexivity|]. intros fs' [= <-].
      split; [rewrite lookup_insert_ne by discriminate; apply (Hchat fs eq_refl)
             | apply lookup_insert_eq].
    - split; [|exists ch1; split; assumption].
      eexists. cbn [trace log]. rewrite List.filter_app, Hp1, Hch1.
      split; [reflexivity | discriminate].
    - split; [|exists ch1; split; assumption].
      eexists. cbn [trace log]. rewrite List.filter_app, Hp1, Hch1.
      split; [reflexivity | discriminate].
    - split; [|exists ch1; split; assumption].
      eexists. cbn [trace log]. rewrite List.filter_app, Hp1, Hch1.
      split; [reflexivity | discriminate]. }
  destruct (payload_of (snd q)) as [| |b|z|s|fs|l|c0|k].
  - split; [reflexivity | exact Hp0].
  - split; [reflexivity | exact Hp0].
  - rewrite Hpub, (publish_eq c ch1 w1 event _ Hc1). split; [reflexivity | exact Hp1].
  - rewrite Hpub, (publish_eq c ch1 w1 event _ Hc1). split; [reflexivity | exact Hp1].
  - rewrite Hpub, (publish_eq c ch1 w1 event _ Hc1). split; [reflexivity | exact Hp1].
  - rewrite Hpub. apply Hsent; [reflexivity | discriminate |].
    intros fs' [= <-]. apply lookup_delete_eq.
  - rewrite Hpub. apply Hsent; [reflexivity | discriminate | discriminate].
  - rewrite Hpub. apply Hsent; [reflexivity | discriminate | discriminate].
  - rewrite Hpub, (publish_eq c ch1 w1 event _ Hc1).
    split; [|exists ch1; split; assumption].
    eexists. cbn [trace log]. rewrite List.filter_app, Hp1, Hch1.
    split; [reflexivity | discriminate].
Qed.

Lemma emit_publishes_once_witness :
  match emit 0 "msg" (VStr "hi") (lobby_world [marker_plugin "P1" "emit" "msg"]) with
  | Normal _ w' =>
      (exists m,
         List.filter is_publish (trace w')
         = [Publish lobby_channel m]
         /\ forall fs, m = VObj fs ->
              fs !! "chat" = None /\ fs !! "event" = Some (VStr "msg"))
      /\ exists ch', chat_heap w' !! 0 = Some ch' /\ "msg" ∈ events ch'
  | Thrown e w' => e = TypeError /\ List.filter is_publish (trace w') = []
  end.
Proof.
  refine (emit_publishes_once 0 (lobby [marker_plugin "P1" "emit" "msg"])
            (lobby_world [marker_plugin "P1" "emit" "msg"]) "msg" (VStr "hi") VUndef _ _);
    reflexivity.
Defined.

Lemma me_uuid_frame w w' sender :
  me w' = me w -> user_heap w' = user_heap w ->
  me_uuid w = Normal sender w -> me_uuid w' = Normal sender w'.
Proof.
  intros Hm Hu. unfold me_uuid, bind, gets. rewrite Hm.
  destruct (me w) as [l|]; [|intros [= <-]; reflexivity].
  unfold get_user. rewrite Hu.
  destruct (user_heap w !! l); [intros [= <-]; reflexivity | discriminate].
Qed.

Lemma emit_returns c ch w event data sender w1 :
  chat_heap w !! c = Some ch ->
  me_uuid w = Normal sender w ->
  emit c event data w = Normal tt w1 ->
  exists ch1 m,
    chat_heap w1 !! c = Some ch1
    /\ channel ch1 = channel ch /\ plugins ch1 = plugins ch /\ users ch1 = users ch
    /\ events ch1 = {[event]} ∪ events ch
    /\ ce_users w1 = ce_users w /\ user_heap w1 = user_heap w /\ me w1 = me w
    /\ trace w1
       = (trace w
          ++ ran c "emit" event
               (fst (waterfall (plugin_queue (Next VNull (emit_seed c sender data))
                                  (plugins ch) "emit" event)))
          ++ (if decide (event ∈ events ch) then [] else [AddListener])
          ++ [Publish (channel ch) m])%list.
Proof.
  intros Hc Hme. rewrite (emit_eq c ch w event data sender Hc Hme).
  set (q := waterfall _). clearbody q.
  set (w0 := log (ran c "emit" event (fst q)) w).
  assert (Hc0 : chat_heap w0 !! c = Some ch) by exact Hc.
  destruct (ensure_event_facts c ch w0 event Hc0)
    as (w' & ch1 & He & Hc1 & Hch1 & Hpl1 & Hus1 & Hev1 & Htab & Huh & Hm & Htr1).
  assert (Hpub : forall m, (ensure_event c event >>> publish c event m) w0
                           = publish c event m w').
  { intros m.
    exact (bind_Normal (ensure_event c event) (fun _ => publish c event m) w0 tt w' He). }
  assert (Hsent : forall m,
            publish c event m w' = Normal tt w1 ->
            exists m', w1 = log [Publish (channel ch) m'] w').
  { intros m. rewrite (publish_eq c ch1 w' event m Hc1), Hch1.
    destruct m; intros [= <-]; eexists; reflexivity. }
  intros Hrun.
  assert (exists m', w1 = log [Publish (channel ch) m'] w') as [m' ->].
  { destruct (payload_of (snd q)); try discriminate Hrun;
      rewrite Hpub in Hrun; exact (Hsent _ Hrun). }
  exists ch1, m'. cbn [chat_heap ce_users user_heap me trace log].
  rewrite Htr1. unfold w0. cbn [trace log]. rewrite <- !app_assoc.
  repeat split; assumption.
Qed.

(** X6: an [Event] is created once per chat and event name.  A first [emit]
    of an event registers one message listener with the transport;
    emitting the same event on the same chat again, with whatever data,
    registers none, whether that call returns or throws. *)
Theorem event_registered_once c ch w event d1 d2 sender w1 :
  chat_heap w !! c = Some ch ->
  me_uuid w = Normal sender w ->
  emit c event d1 w = Normal tt w1 ->
  listeners (trace w1)
  = listeners (trace w) + (if decide (event ∈ events ch) then 0 else 1)
  /\ listeners (trace (final_world (emit c event d2 w1))) = listeners (trace w1).
Proof.
  intros Hc Hme Hrun.
  destruct (emit_returns c ch w event d1 sender w1 Hc Hme Hrun)
    as (ch1 & m & Hc1 & _ & _ & _ & Hev1 & _ & Huh & Hm & Htr).
  assert (Hl : forall tr location called,
            listeners (tr ++ ran c location event called)%list = listeners tr).
  { intros tr location called. unfold listeners.
    rewrite List.filter_app, filter_ran by reflexivity. rewrite app_nil_r. reflexivity. }
  split.
  - rewrite Htr, !app_assoc. unfold listeners. rewrite List.filter_app, length_app.
    cbn [List.filter is_listener length]. rewrite List.filter_app, length_app.
    fold (listeners (trace w ++ ran c "emit" event
                       (fst (waterfall (plugin_queue (Next VNull (emit_seed c sender d1))
                                          (plugins ch) "emit" event))))%list).
    rewrite Hl. unfold listeners.
    destruct (decide (event ∈ events ch)); cbn [List.filter is_listener length]; lia.
  - pose proof (me_uuid_frame w w1 sender Hm Huh Hme) as Hme1.
    rewrite (emit_eq c ch1 w1 event d2 sender Hc1 Hme1).
    set (q := waterfall _). clearbody q.
    set (w0 := log (ran c "emit" event (fst q)) w1).
    assert (Hc0 : chat_heap w0 !! c = Some ch1) by exact Hc1.
    assert (Hl0 : listeners (trace w0) = listeners (trace w1)) by apply Hl.
    assert (Hin : event ∈ events ch1).
    { rewrite Hev1. apply elem_of_union_l, elem_of_singleton. reflexivity. }
    assert (He : ensure_event c event w0 = Normal tt w0).
    { rewrite (ensure_event_eq c ch1 w0 event Hc0).
      destruct (decide (event ∈ events ch1)); [reflexivity | contradiction]. }
    assert (Hpub : forall m', listeners (trace (final_world
                     ((ensure_event c event >>> publish c event m') w0)))
                   = listeners (trace w1)).
    { intros m'.
      rewrite (bind_Normal (ensure_event c event) (fun _ => publish c event m') w0 tt w0 He).
      rewrite (publish_eq c ch1 w0 event m' Hc0).
      destruct m'; cbn [final_world trace log]; try exact Hl0;
        unfold listeners; rewrite List.filter_app, length_app;
        cbn [List.filter is_listener length]; fold (listeners (trace w0));
        fold (listeners (trace w1)); lia. }
    clearbody w0.
    destruct (payload_of (snd q)); try apply Hpub; exact Hl0.
Qed.

Lemma event_registered_once_witness :
  listeners (trace lobby_after_emit) = listeners (trace lobby_with_ian) + 1
  /\ listeners (trace (final_world (emit 0 "msg" (VStr "again") lobby_after_emit)))
     = listeners (trace lobby_after_emit).
Proof.
  refine (event_registered_once 0 (mkChat lobby_channel {["ian" := 0]} ∅ [] false false)
            lobby_with_ian "msg" (VStr "hi") (VStr "again") (VStr "ian") lobby_after_emit
            _ _ _);
    reflexivity.
Defined.

Lemma restore_message c known id l event data :
  id <> "" ->
  known !! id = Some l ->
  restore c known (wire_message event id data) = Some (received_message c event l data).
Proof.
  intros Hid Hl. unfold restore, wire_message. cbn [is_object negb].
  change (truthy (get_field "chat" _)) with false. cbv iota zeta.
  change (get_field "sender" _) with (VStr id).
  cbn [truthy to_key]. rewrite (property_own _ _ _ Hl).
  destruct (String.eqb_spec id ""); [contradiction|]. cbn [negb].
  reflexivity.
Qed.

Lemma emit_plain c ch w event data id :
  chat_heap w !! c = Some ch ->
  me_uuid w = Normal (VStr id) w ->
  no_handler ch "emit" event ->
  (ensure_event c event >>> publish c event (wire_message event id data))
    (log [Ran c "emit" event None VUndef] w) = emit c event data w.
Proof.
  intros Hc Hme Hn. rewrite (emit_eq c ch w event data (VStr id) Hc Hme).
  unfold plugin_queue. rewrite Hn. cbn [waterfall run_tasks fst snd payload_of emit_seed].
  unfold publish.
  change (delete "chat" _) with (<["sender" := VStr id]> ({["data" := data]} : gmap string value)).
  reflexivity.
Qed.

(** X7: round trip.  With no plugin handler for the event, what [emit]
    publishes is the data, the sender's uuid and the event name; when that
    message comes back on the chat's channel, the [Event] of that name hands
    the listeners of the event the same data with the sender resolved to the
    known [User] and [chat] set to the receiving chat.  The [Event] of
    another name, and one of a chat on another channel, do nothing with
    it. *)
Theorem emit_round_trip c ch w event data l u :
  chat_heap w !! c = Some ch ->
  me w = Some l ->
  user_heap w !! l = Some u ->
  ce_users w !! uuid u = Some l ->
  uuid u <> "" ->
  no_handler ch "emit" event ->
  no_handler ch "on" event ->
  exists w1,
    emit c event data w = Normal tt w1
    /\ List.filter is_publish (trace w1)
       = (List.filter is_publish (trace w)
          ++ [Publish (channel ch) (wire_message event (uuid u) data)])%list
    /\ onMessage c event (channel ch) (wire_message event (uuid u) data) w1
       = Normal tt
           (log [Ran c "on" event None VUndef;
                 Local c event (received_message c event l data)] w1)
    /\ (forall event',
          event' <> event ->
          onMessage c event' (channel ch) (wire_message event (uuid u) data) w1
          = Normal tt w1)
    /\ (forall c' ch',
          chat_heap w1 !! c' = Some ch' ->
          channel ch' <> channel ch ->
          onMessage c' event (channel ch) (wire_message event (uuid u) data) w1
          = Normal tt w1).
Proof.
  intros Hc Hme Hu Htab Hid Hemit Hon.
  assert (Hsender : me_uuid w = Normal (VStr (uuid u)) w).
  { unfold me_uuid. rewrite bind_gets, Hme. rewrite (bind_get_user l u) by exact Hu.
    reflexivity. }
  rewrite <- (emit_plain c ch w event data (uuid u) Hc Hsender Hemit).
  set (w0 := log [Ran c "emit" event None VUndef] w).
  assert (Hc0 : chat_heap w0 !! c = Some ch) by exact Hc.
  destruct (ensure_event_facts c ch w0 event Hc0)
    as (w' & ch1 & He & Hc1 & Hch1 & Hpl1 & _ & _ & Htab1 & _ & _ & Htr1).
  rewrite (bind_Normal (ensure_event c event)
             (fun _ => publish c event (wire_message event (uuid u) data)) w0 tt w' He).
  rewrite (publish_eq c ch1 w' event _ Hc1). unfold wire_message at 1.
  change (<["event" := VStr event]> (<["event" := VStr event]> ?m))
    with (<["event" := VStr event]> m).
  fold (wire_message event (uuid u) data). rewrite Hch1.
  set (w1 := log [Publish (channel ch) (wire_message event (uuid u) data)] w').
  assert (Hc1' : chat_heap w1 !! c = Some ch1) by exact Hc1.
  exists w1. split; [reflexivity|]. split; [|split; [|split]].
  - unfold w1. cbn [trace log]. rewrite Htr1. unfold w0. cbn [trace log].
    rewrite !List.filter_app. cbn [List.filter is_publish].
    destruct (decide (event ∈ events ch)); cbn [List.filter is_publish];
      rewrite !app_nil_r; reflexivity.
  - unfold onMessage. rewrite (bind_get_chat c ch1) by exact Hc1'.
    destruct (decide (channel ch1 = channel ch)); [|congruence].
    unfold wire_message at 1.
    change (get_field "event" _) with (VStr event).
    cbv iota. destruct (decide (event = event)); [|congruence].
    fold (wire_message event (uuid u) data).
    rewrite (trigger_eq c ch1 w1 event _ (received_message c event l data) Hc1').
    + rewrite (told_no_handler c ch1); [reflexivity|].
      unfold no_handler. rewrite Hpl1. exact Hon.
    + apply restore_message; [exact Hid|]. unfold w1. cbn [ce_users log].
      rewrite Htab1. exact Htab.
  - intros event' Hne. unfold onMessage. rewrite (bind_get_chat c ch1) by exact Hc1'.
    destruct (decide (channel ch1 = channel ch)); [|reflexivity].
    unfold wire_message.
    change (get_field "event" _) with (VStr event).
    cbv iota. destruct (decide (event = event')); [congruence | reflexivity].
  - intros c' ch' Hc' Hne. unfold onMessage. rewrite (bind_get_chat c' ch') by exact Hc'.
    destruct (decide (channel ch' = channel ch)); [contradiction | reflexivity].
Qed.

Lemma emit_round_trip_witness :
  exists w1,
    emit 0 "msg" (VStr "hi") lobby_with_ian = Normal tt w1
    /\ List.filter is_publish (trace w1)
       = [Publish lobby_channel (wire_message "msg" "ian" (VStr "hi"))]
    /\ onMessage 0 "msg" lobby_channel (wire_message "msg" "ian" (VStr "hi")) w1
       = Normal tt
           (log [Ran 0 "on" "msg" None VUndef;
                 Local 0 "msg" (received_message 0 "msg" 0 (VStr "hi"))] w1)
    /\ (forall event',
          event' <> "msg" ->
          onMessage 0 event' lobby_channel (wire_message "msg" "ian" (VStr "hi")) w1
          = Normal tt w1)
    /\ (forall c' ch',
          chat_heap w1 !! c' = Some ch' ->
          channel ch' <> lobby_channel ->
          onMessage c' "msg" lobby_channel (wire_message "msg" "ian" (VStr "hi")) w1
          = Normal tt w1).
Proof.
  refine (emit_round_trip 0 (mkChat lobby_channel {["ian" := 0]} ∅ [] false false)
            lobby_with_ian "msg" (VStr "hi") 0 ian _ _ _ _ _ _ _);
    try reflexivity.
  discriminate.
Defined.

(** ** Construction and connection of a chat *)

Lemma connect_eq c ch w :
  chat_heap w !! c = Some ch ->
  connect c w = Normal tt (if connected ch then w else log (connecting (channel ch)) w).
Proof.
  intros Hc. unfold connect. rewrite (bind_get_chat c ch) by exact Hc.
  destruct (connected ch); reflexivity.
Qed.

Lemma onPrep_eq c ch w :
  chat_heap w !! c = Some ch ->
  onPrep c w
  = Normal tt (if autoConnect ch && negb (connected ch)
               then log (connecting (channel ch)) w else w).
Proof.
  intros Hc. unfold onPrep. rewrite (bind_get_chat c ch) by exact Hc.
  destruct (autoConnect ch); cbn [when andb]; [|reflexivity].
  rewrite (connect_eq c ch w Hc). destruct (connected ch); reflexivity.
Qed.

Lemma subscriptions_app chan a b :
  subscriptions chan (a ++ b)%list = subscriptions chan a + subscriptions chan b.
Proof. unfold subscriptions. rewrite List.filter_app, length_app. reflexivity. Qed.

Lemma subscriptions_connecting chan : subscriptions chan (connecting chan) = 1.
Proof.
  unfold subscriptions, connecting. cbn [List.filter is_subscribe].
  rewrite bool_decide_eq_true_2 by reflexivity. reflexivity.
Qed.

(** X8: a new chat subscribes only when it may.  [new Chat] returns a chat
    that is not connected; with [needGrant] it only posts the grant request,
    and the subscription waits for the answer ([onPrep]), which subscribes
    exactly when [autoConnect] is set; without [needGrant] the constructor
    itself subscribes exactly when [autoConnect] is set.  An explicit
    [connect] on the new chat always subscribes, also when the constructor
    already did. *)
Theorem new_chat_subscribes_when_allowed chan auto needGrant w :
  exists w1,
    new_Chat chan auto needGrant w = Normal (length (chat_heap w)) w1
    /\ chat_heap w1 !! length (chat_heap w)
       = Some (mkChat (chat_channel (globalChannel w) chan needGrant) ∅ ∅ [] false auto)
    /\ trace w1
       = (trace w
          ++ if needGrant then [PostGrant (chat_channel (globalChannel w) chan needGrant)]
             else if auto then connecting (chat_channel (globalChannel w) chan needGrant)
                  else [])%list
    /\ subscriptions (chat_channel (globalChannel w) chan needGrant) (trace w1)
       = subscriptions (chat_channel (globalChannel w) chan needGrant) (trace w)
         + (if negb needGrant && auto then 1 else 0)
    /\ subscriptions (chat_channel (globalChannel w) chan needGrant)
         (trace (final_world (onPrep (length (chat_heap w)) w1)))
       = subscriptions (chat_channel (globalChannel w) chan needGrant) (trace w1)
         + (if auto then 1 else 0)
    /\ subscriptions (chat_channel (globalChannel w) chan needGrant)
         (trace (final_world (connect (length (chat_heap w)) w1)))
       = subscriptions (chat_channel (globalChannel w) chan needGrant) (trace w1) + 1.
Proof.
  rewrite new_Chat_eq. eexists. split; [reflexivity|].
  set (name := chat_channel (globalChannel w) chan needGrant).
  set (w1 := log _ _).
  assert (Hc : chat_heap w1 !! length (chat_heap w)
               = Some (mkChat name ∅ ∅ [] false auto)).
  { unfold w1. cbn [chat_heap log set_chat_heap].
    rewrite lookup_app_r by lia. rewrite Nat.sub_diag. reflexivity. }
  split; [exact Hc|]. split; [reflexivity|].
  rewrite (onPrep_eq _ _ w1 Hc), (connect_eq _ _ w1 Hc).
  cbn [autoConnect connected channel negb final_world]. rewrite andb_true_r.
  assert (Htr : trace w1
                = (trace w ++ if needGrant then [PostGrant name]
                              else if auto then connecting name else [])%list)
    by reflexivity.
  clearbody w1. split; [|split].
  - rewrite Htr, subscriptions_app.
    destruct needGrant, auto; cbn [negb andb]; try reflexivity.
    rewrite subscriptions_connecting. reflexivity.
  - destruct auto; [|lia]. cbn [trace log].
    rewrite subscriptions_app, subscriptions_connecting. reflexivity.
  - cbn [trace log]. rewrite subscriptions_app, subscriptions_connecting. reflexivity.
Qed.

(** X9: [connect] is guarded by the [connected] flag alone.  Until the
    connected notification has arrived every [connect] subscribes again;
    once it has, [connect] does nothing; and since [leave] leaves the flag
    set, a [connect] after [leave] does not subscribe again. *)
Theorem connect_guarded_by_flag c ch w ev :
  chat_heap w !! c = Some ch ->
  connected ch = false ->
  se_category ev = "PNConnectedCategory" ->
  channel ch ∈ se_affectedChannels ev ->
  subscriptions (channel ch) (trace (run [DoChatConnect c; DoChatConnect c] w))
  = subscriptions (channel ch) (trace w) + 2
  /\ run [OnStatus c ev; DoChatConnect c] w = run [OnStatus c ev] w
  /\ run [OnStatus c ev; DoLeave c; DoChatConnect c] w
     = log [Unsubscribe (channel ch)] (run [OnStatus c ev] w).
Proof.
  intros Hc Hoff Hcat Hin. cbn [run perform]. split; [|split].
  - rewrite (connect_eq c ch w Hc), Hoff. cbn [final_world].
    rewrite (connect_eq c ch (log (connecting (channel ch)) w) Hc), Hoff.
    cbn [final_world trace log].
    rewrite !subscriptions_app, subscriptions_connecting. lia.
  - rewrite (onStatus_matching c ch w ev Hc Hcat Hin). cbn [final_world].
    erewrite connect_eq;
      [|cbn [chat_heap log set_chat_heap]; apply (chat_heap_insert_same c ch), Hc].
    reflexivity.
  - rewrite (onStatus_matching c ch w ev Hc Hcat Hin). cbn [final_world].
    erewrite leave_eq;
      [|cbn [chat_heap log set_chat_heap]; apply (chat_heap_insert_same c ch), Hc].
    cbn [final_world].
    erewrite connect_eq;
      [|cbn [chat_heap log set_chat_heap]; apply (chat_heap_insert_same c ch), Hc].
    reflexivity.
Qed.

Lemma connect_guarded_by_flag_witness :
  subscriptions lobby_channel (trace (run [DoChatConnect 0; DoChatConnect 0] (lobby_world [])))
  = 0 + 2
  /\ run [OnStatus 0 lobby_connected; DoChatConnect 0] (lobby_world [])
     = run [OnStatus 0 lobby_connected] (lobby_world [])
  /\ run [OnStatus 0 lobby_connected; DoLeave 0; DoChatConnect 0] (lobby_world [])
     = log [Unsubscribe lobby_channel] (run [OnStatus 0 lobby_connected] (lobby_world [])).
Proof.
  refine (connect_guarded_by_flag 0 (lobby []) (lobby_world []) lobby_connected _ _ _ _);
    try reflexivity.
  apply (bool_decide_unpack _). vm_compute. exact I.
Defined.

(** ** The session's own state *)

Lemma state_in_put l u k m w :
  user_heap w !! l = Some u ->
  (forall k', state_in l k'
                (set_user_heap (fun h => <[l := set_states (fun ss => <[k := m]> ss) u]> h) w)
              = if decide (k' = k) then m else state_in l k' w)
  /\ forall l', l' <> l ->
       user_heap (set_user_heap (fun h => <[l := set_states (fun ss => <[k := m]> ss) u]> h) w)
         !! l'
       = user_heap w !! l'.
Proof.
  intros Hu. split.
  - intros k'. unfold state_in. cbn [user_heap set_user_heap].
    rewrite list_lookup_insert_eq by (apply lookup_lt_is_Some; eauto).
    rewrite Hu. cbn [states set_states].
    destruct (decide (k' = k)) as [->|Hne].
    + rewrite lookup_insert_eq. reflexivity.
    + rewrite lookup_insert_ne by congruence. reflexivity.
  - intros l' Hne. cbn [user_heap set_user_heap].
    apply list_lookup_insert_ne. congruence.
Qed.

Lemma update_nowhere l u st w :
  user_heap w !! l = Some u ->
  update l st None w
  = Normal tt
      (set_user_heap
         (fun h =>
            <[l := set_states
                     (fun ss =>
                        <["undefined" := object_assign (default ∅ (states u !! "undefined")) st]>
                          ss)
                     u]> h) w).
Proof.
  intros Hu. unfold update, state, chat_key. mnorm.
  rewrite (bind_get_user l u) by exact Hu. mnorm.
  rewrite (bind_get_user l u) by exact Hu. reflexivity.
Qed.

(** X10: [Me.update] merges locally and sends the change.  The state the
    user has in that chat becomes the old one overlaid with the new
    properties, its state in every other chat, the other users and the
    rosters are untouched, nothing is delivered locally, and the transport
    is asked once to set, for the chat's channel, the properties as given
    (not the merged state).  Called while there is no global chat to default
    to, it throws a [TypeError] after having merged the state under the key
    ["undefined"], and asks nothing of the transport. *)
Theorem me_update_sends_change l u c ch st w :
  user_heap w !! l = Some u ->
  chat_heap w !! c = Some ch ->
  (exists w',
     me_update l st (Some c) w = Normal tt w'
     /\ state_in l (channel ch) w' = object_assign (state_in l (channel ch) w) st
     /\ (forall k, k <> channel ch -> state_in l k w' = state_in l k w)
     /\ (forall l', l' <> l -> user_heap w' !! l' = user_heap w !! l')
     /\ chat_heap w' = chat_heap w
     /\ ce_users w' = ce_users w
     /\ trace w' = (trace w ++ [SetState (channel ch) st])%list)
  /\ (exists w',
        me_update l st None w = Thrown TypeError w'
        /\ state_in l "undefined" w' = object_assign (state_in l "undefined" w) st
        /\ (forall k, k <> "undefined" -> state_in l k w' = state_in l k w)
        /\ trace w' = trace w).
Proof.
  intros Hu Hc. split.
  - unfold me_update. rewrite (bind_Normal _ _ _ _ _ (update_eq l u c ch st w Hu Hc)).
    unfold setState. erewrite bind_get_chat by exact Hc. unfold modify.
    eexists. split; [reflexivity|].
    destruct (state_in_put l u (channel ch)
                (object_assign (default ∅ (states u !! channel ch)) st) w Hu) as [Hk Hl].
    assert (Hold : state_in l (channel ch) w = default ∅ (states u !! channel ch)).
    { unfold state_in. rewrite Hu. reflexivity. }
    split; [|split; [|split]].
    + rewrite Hold. etransitivity; [apply Hk|].
      destruct (decide (channel ch = channel ch)); [reflexivity | congruence].
    + intros k Hne. etransitivity; [apply Hk|].
      destruct (decide (k = channel ch)); [contradiction | reflexivity].
    + exact Hl.
    + repeat split.
  - unfold me_update. rewrite (bind_Normal _ _ _ _ _ (update_nowhere l u st w Hu)).
    eexists. split; [reflexivity|].
    destruct (state_in_put l u "undefined"
                (object_assign (default ∅ (states u !! "undefined")) st) w Hu) as [Hk _].
    assert (Hold : state_in l "undefined" w = default ∅ (states u !! "undefined")).
    { unfold state_in. rewrite Hu. reflexivity. }
    split; [|split].
    + rewrite Hold. etransitivity; [apply Hk|].
      destruct (decide ("undefined" = "undefined")); [reflexivity | congruence].
    + intros k Hne. etransitivity; [apply Hk|].
      destruct (decide (k = "undefined")); [contradiction | reflexivity].
    + reflexivity.
Qed.

Lemma me_update_sends_change_witness :
  (exists w',
     me_update 0 (Some {["mood" := VStr "fine"]}) (Some 0) lobby_with_ian = Normal tt w'
     /\ state_in 0 lobby_channel w'
        = object_assign (state_in 0 lobby_channel lobby_with_ian)
            (Some {["mood" := VStr "fine"]})
     /\ (forall k, k <> lobby_channel -> state_in 0 k w' = state_in 0 k lobby_with_ian)
     /\ (forall l', l' <> 0 -> user_heap w' !! l' = user_heap lobby_with_ian !! l')
     /\ chat_heap w' = chat_heap lobby_with_ian
     /\ ce_users w' = ce_users lobby_with_ian
     /\ trace w' = [SetState lobby_channel (Some {["mood" := VStr "fine"]})])
  /\ (exists w',
        me_update 0 (Some {["mood" := VStr "fine"]}) None lobby_with_ian
        = Thrown TypeError w'
        /\ state_in 0 "undefined" w'
           = object_assign (state_in 0 "undefined" lobby_with_ian)
               (Some {["mood" := VStr "fine"]})
        /\ (forall k, k <> "undefined" -> state_in 0 k w' = state_in 0 k lobby_with_ian)
        /\ trace w' = trace lobby_with_ian).
Proof.
  refine (me_update_sends_change 0 ian 0
            (mkChat lobby_channel {["ian" := 0]} ∅ [] false false)
            (Some {["mood" := VStr "fine"]}) lobby_with_ian _ _);
    reflexivity.
Defined.

(** ** Establishing the session *)

Lemma own_channels_kept g id :
  chat_channel g (feed_name g id) false = feed_name g id
  /\ chat_channel g (direct_name g id) false = direct_name g id.
Proof.
  unfold feed_name, direct_name, join. cbn [String.concat].
  split; apply chat_channel_kept.
Qed.

Lemma object_assign_empty : object_assign ∅ (Some ∅) = ∅.
Proof. unfold object_assign. apply (left_id_L ∅ (∪)). Qed.

Lemma new_Me_first g id auth :
  new_Me id auth (mkWorld g ∅ (Some 0) None [] [mkChat g ∅ ∅ [] false true] (connecting g))
  = Normal 0
      (mkWorld g (if inherited id then ∅ else {[id := 0]}) (Some 0) None
         [mkUser id {[g := ∅]} ∅ 1 2 true auth]
         [mkChat g ∅ ∅ [] false true;
          mkChat (feed_name g id) ∅ ∅ [] false true;
          mkChat (direct_name g id) ∅ ∅ [] false true]
         (connecting g ++ connecting (feed_name g id) ++ connecting (direct_name g id))).
Proof.
  unfold new_Me. rewrite bind_gets. cbn [globalChat].
  unfold new_User, globalChat_channel. mnorm. cbn [globalChat]. mnorm.
  erewrite bind_get_chat by reflexivity. mnorm. cbn [channel].
  rewrite (bind_Normal _ _ _ _ _ (new_Chat_eq _ _ _ _)). mnorm.
  rewrite (bind_Normal _ _ _ _ _ (new_Chat_eq _ _ _ _)).
  mnorm.
  cbn [ce_users user_heap chat_heap globalChannel log set_chat_heap set_user_heap trace
       globalChat me length app].
  destruct (own_channels_kept g id) as [-> ->].
  unfold property. rewrite lookup_empty.
  destruct (inherited id); cbn [present negb when]; mnorm;
    unfold assign;
    (erewrite (bind_Normal (update _ _ _)); [|apply update_eq; reflexivity]);
    mnorm;
    cbn [channel states]; rewrite lookup_empty; world_fields; cbn [app insert list_insert];
    change (default ∅ None) with (∅ : gmap string value);
    rewrite object_assign_empty, ?insert_empty;
    (erewrite bind_get_user by reflexivity); mnorm;
    unfold put_user, modify, ret, bind, set_user_heap, set_states, set_authData;
    cbn [ce_users user_heap chat_heap globalChannel trace globalChat me
         uuid states chats feed direct isMe authData insert list_insert];
    rewrite ?insert_empty, <- app_assoc; reflexivity.
Qed.

Lemma connect_complete_init g id st auth :
  inherited id = false ->
  connect_complete id st auth (init g) = Normal tt (session g id st auth).
Proof.
  intros Hord.
  unfold session, connect_complete, init. rewrite bind_gets. cbn [globalChannel].
  rewrite (bind_Normal _ _ _ _ _ (new_Chat_eq _ _ _ _)). rewrite bind_modify.
  rewrite chat_channel_global. world_fields. unfold set_globalChat. world_fields.
  cbn [app]. fold (connecting g).
  rewrite (bind_Normal _ _ _ _ _ (new_Me_first g id auth)), Hord. rewrite bind_modify.
  unfold set_me. world_fields.
  erewrite (bind_Normal (createUser _ _ _ _));
    [|apply createUser_known; [reflexivity | apply lookup_singleton_eq | reflexivity]].
  cbn [length users plugins channel].
  rewrite (property_missing _ _ (lookup_empty id) Hord). cbn [present negb orb].
  change (told 0 [] "$.online.new" (about_user 0 0))
    with [Ran 0 "on" "$.online.new" None VUndef; Local 0 "$.online.new" (about_user 0 0)].
  unfold joined, set_states, set_chats, set_users.
  cbn [uuid states chats feed direct isMe authData channel users events plugins connected
       autoConnect].
  rewrite lookup_singleton_eq, default_some, insert_singleton_eq, !insert_empty.
  world_fields. cbn [insert list_insert].
  unfold me_update. rewrite bind_bind.
  erewrite (bind_Normal (update _ _ _)); [|apply update_eq; reflexivity].
  unfold setState. rewrite bind_bind. erewrite bind_get_chat by reflexivity.
  rewrite bind_modify.
  rewrite (ensure_event_eq 0 (mkChat g {[id := 0]} ∅ [] false true)) by reflexivity.
  destruct (decide ("$.connected" ∈ (∅ : gset string))) as [Hin|_];
    [apply elem_of_empty in Hin; contradiction|].
  unfold set_states, set_events.
  cbn [uuid states chats feed direct isMe authData channel users events plugins connected
       autoConnect].
  rewrite lookup_singleton_eq, default_some, insert_singleton_eq, object_assign_idem.
  rewrite (right_id_L ∅ (∪)).
  world_fields. cbn [insert list_insert].
  rewrite <- !app_assoc. reflexivity.
Qed.

(** The session's own id names a member of [Object.prototype]: the table
    never takes the new [Me], and [createUser] fails on what it finds
    there. *)
Lemma connect_complete_inherited g id st auth :
  inherited id = true ->
  connect_complete id st auth (init g) = Thrown TypeError (stranded g id auth).
Proof.
  intros Hin.
  unfold stranded, connect_complete, init. rewrite bind_gets. cbn [globalChannel].
  rewrite (bind_Normal _ _ _ _ _ (new_Chat_eq _ _ _ _)). rewrite bind_modify.
  rewrite chat_channel_global. world_fields. unfold set_globalChat. world_fields.
  cbn [app]. fold (connecting g).
  rewrite (bind_Normal _ _ _ _ _ (new_Me_first g id auth)), Hin. rewrite bind_modify.
  unfold set_me. world_fields.
  match goal with
  | |- bind (createUser ?c ?i ?s ?f) _ ?w = _ =>
      unfold bind at 1;
      rewrite (createUser_inherited c i s f w (lookup_empty id) Hin)
  end.
  reflexivity.
Qed.

(** X11: establishing the session.  On a fresh [ChatEngine] the [complete]
    step of [ChatEngine.connect], for an id that is not the name of a member
    of [Object.prototype], returns and leaves exactly this, a well-formed
    store: the global chat on the configured channel, one user for the id,
    who is [ChatEngine.me], the table's entry and the only member of the
    global roster, with the given state as its state in the global chat;
    three subscriptions (global, feed, direct), one [$.online.new], one
    request to set the state as given, and the listener for [$.connected].
    For the name of such a member the step throws a [TypeError] once the
    [Me] is built: the table and the global roster stay empty. *)
Theorem connect_establishes_session g id st auth :
  if inherited id
  then connect_complete id st auth (init g) = Thrown TypeError (stranded g id auth)
  else connect_complete id st auth (init g) = Normal tt (session g id st auth)
       /\ well_formed (session g id st auth).
Proof.
  destruct (inherited id) eqn:Hin; [apply connect_complete_inherited; exact Hin|].
  split; [apply connect_complete_init; exact Hin|].
  pose proof (safe_final (connect_complete id st auth) (init g)
                (connect_complete_safe id st auth) (init_well_formed g)) as [Hwf _].
  rewrite (connect_complete_init g id st auth Hin) in Hwf. exact Hwf.
Qed.

Lemma connect_establishes_session_witness :
  connect_complete "constructor" None VUndef (init "chat-engine")
  = Thrown TypeError (stranded "chat-engine" "constructor" VUndef)
  /\ connect_complete "ian" (Some {["mood" := VStr "fine"]}) VUndef (init "chat-engine")
     = Normal tt (session "chat-engine" "ian" (Some {["mood" := VStr "fine"]}) VUndef)
  /\ well_formed (session "chat-engine" "ian" (Some {["mood" := VStr "fine"]}) VUndef).
Proof.
  split.
  - exact (connect_establishes_session "chat-engine" "constructor" None VUndef).
  - exact (connect_establishes_session "chat-engine" "ian"
             (Some {["mood" := VStr "fine"]}) VUndef).
Defined.

(** ** A second object for a known id *)

(** The constructor on an id the table has, for a [User] and for a [Me]. *)
Lemma new_User_second_object id st chat is_me l k w :
  well_formed w ->
  ce_users w !! id = Some l ->
  chat_key chat w = Normal k w ->
  exists w' u',
    new_User id st chat is_me w = Normal (length (user_heap w)) w'
    /\ l <> length (user_heap w)
    /\ ce_users w' = ce_users w
    /\ user_heap w' !! l = user_heap w !! l
    /\ user_heap w' !! length (user_heap w) = Some u'
    /\ uuid u' = id
    /\ feed u' = length (chat_heap w)
    /\ direct u' = S (length (chat_heap w))
    /\ length (chat_heap w') = length (chat_heap w) + 2
    /\ (forall k', state_in (length (user_heap w)) k' w'
                   = if decide (k' = k) then object_assign ∅ st else ∅).
Proof.
  intros Hwf Hid Hchat.
  destruct (well_formed_table id l w Hwf Hid) as (u & Hu & _).
  assert (Hlt : l < length (user_heap w)) by (apply lookup_lt_is_Some; eauto).
  destruct Hwf as (Hg & _ & _).
  destruct (new_User_prefix id st chat is_me w Hg) as (e & f & d & _ & _ & _ & _ & Hrun).
  rewrite Hrun, (property_own _ _ _ Hid). clear Hrun.
  cbn [present negb when]. rewrite bind_ret.
  set (fresh := mkUser id ∅ ∅ (length (chat_heap w)) (S (length (chat_heap w))) is_me VUndef).
  set (w0 := set_user_heap _ _).
  assert (Hfresh : user_heap w0 !! length (user_heap w) = Some fresh).
  { unfold w0. cbn [user_heap set_user_heap log set_chat_heap].
    rewrite lookup_app_r by lia. rewrite Nat.sub_diag. reflexivity. }
  assert (Hold : user_heap w0 !! l = user_heap w !! l).
  { unfold w0. cbn [user_heap set_user_heap log set_chat_heap].
    apply lookup_app_l. exact Hlt. }
  assert (Hlen : length (chat_heap w0) = length (chat_heap w) + 2).
  { unfold w0. cbn [chat_heap set_user_heap log set_chat_heap].
    rewrite length_app. reflexivity. }
  assert (Htab : ce_users w0 = ce_users w) by reflexivity.
  assert (Hup : update (length (user_heap w)) st chat w0
                = Normal tt
                    (set_user_heap
                       (fun h => <[length (user_heap w)
                                   := set_states (fun ss => <[k := object_assign ∅ st]> ss)
                                        fresh]> h) w0)).
  { destruct chat as [c|]; unfold chat_key in Hchat.
    - unfold bind, get_chat in Hchat.
      destruct (chat_heap w !! c) as [ch|] eqn:Hc; [|discriminate].
      injection Hchat as <-.
      assert (Hc0 : chat_heap w0 !! c = Some ch).
      { unfold w0. cbn [chat_heap set_user_heap log set_chat_heap].
        rewrite lookup_app_l by (apply lookup_lt_is_Some; eauto). exact Hc. }
      rewrite (update_eq _ fresh c ch st w0 Hfresh Hc0). reflexivity.
    - injection Hchat as <-.
      rewrite (update_nowhere _ fresh st w0 Hfresh). reflexivity. }
  unfold assign. rewrite (bind_Normal _ _ _ _ _ Hup). clearbody w0.
  eexists _, _. split; [reflexivity|].
  destruct (state_in_put _ fresh k (object_assign ∅ st) w0 Hfresh) as [Hst Hothers].
  split; [lia|]. split; [exact Htab|]. split; [rewrite Hothers by lia; exact Hold|].
  split.
  { cbn [user_heap set_user_heap].
    apply list_lookup_insert_eq. apply lookup_lt_is_Some. eauto. }
  split; [reflexivity|]. split; [reflexivity|]. split; [reflexivity|].
  split; [exact Hlen|].
  intros k'. rewrite Hst. destruct (decide (k' = k)); [reflexivity|].
  unfold state_in. rewrite Hfresh. reflexivity.
Qed.

(** X12: [new User] never replaces an entry of the global table.  For an id
    the table already has, the constructor still builds a new object with
    feed and direct chats of its own and returns it, but the table keeps the
    user it had, that user is not touched, and the state given to the
    constructor goes to the new object only. *)
Theorem new_User_keeps_known_entry id st chat l k w :
  well_formed w ->
  ce_users w !! id = Some l ->
  chat_key chat w = Normal k w ->
  exists w' u',
    new_User id st chat false w = Normal (length (user_heap w)) w'
    /\ l <> length (user_heap w)
    /\ ce_users w' = ce_users w
    /\ user_heap w' !! l = user_heap w !! l
    /\ user_heap w' !! length (user_heap w) = Some u'
    /\ uuid u' = id
    /\ feed u' = length (chat_heap w)
    /\ direct u' = S (length (chat_heap w))
    /\ length (chat_heap w') = length (chat_heap w) + 2
    /\ (forall k', state_in (length (user_heap w)) k' w'
                   = if decide (k' = k) then object_assign ∅ st else ∅).
Proof. exact (new_User_second_object id st chat false l k w). Qed.

Lemma new_User_keeps_known_entry_witness :
  exists w' u',
    new_User "u2" (Some {["mood" := VStr "fine"]}) (Some 0) false lobby_with_bob
    = Normal 1 w'
    /\ 0 <> 1
    /\ ce_users w' = {["u2" := 0]}
    /\ user_heap w' !! 0 = Some bob
    /\ user_heap w' !! 1 = Some u'
    /\ uuid u' = "u2"
    /\ feed u' = 3
    /\ direct u' = 4
    /\ length (chat_heap w') = 5
    /\ (forall k, state_in 1 k w'
                  = if decide (k = lobby_channel)
                    then object_assign ∅ (Some {["mood" := VStr "fine"]}) else ∅).
Proof.
  refine (new_User_keeps_known_entry "u2" (Some {["mood" := VStr "fine"]}) (Some 0) 0
            lobby_channel lobby_with_bob _ _ _).
  - apply (bool_decide_unpack _). vm_compute. exact I.
  - reflexivity.
  - reflexivity.
Defined.

(** ** One user per id *)

(** C9, as the code has it: in every store a session can reach, a roster
    entry for an id is the global table's entry for that id (the same heap
    object), and that entry is a live user carrying the id.  Nothing that
    happens afterwards replaces an entry of the table.  When [createUser]
    or [userUpdate] meets an id the table lacks (and that is not the name
    of a member of [Object.prototype]), the user is created (a fresh
    object) and entered in the table; for an id the table has, the existing
    user is the one that is put in the roster and whose state is merged.
    The constructors themselves, [new User] and [new Me], build a new
    object each time they are called: for an id the table has, the new
    object is returned to the caller and the table keeps the one it had. *)
Theorem identity_is_singleton (g : string) (acts : list action) :
  let w := run acts (init g) in
  (forall c ch id l,
     chat_heap w !! c = Some ch -> users ch !! id = Some l -> ce_users w !! id = Some l)
  /\ (forall id l,
        ce_users w !! id = Some l -> exists u, user_heap w !! l = Some u /\ uuid u = id)
  /\ (forall more id l,
        ce_users w !! id = Some l -> ce_users (run more w) !! id = Some l)
  /\ (forall c ch id st,
        chat_heap w !! c = Some ch ->
        inherited id = false ->
        (exists l w',
           createUser c id st false w = Normal l w'
           /\ l = default (length (user_heap w)) (ce_users w !! id)
           /\ ce_users w' !! id = Some l
           /\ roster c w' !! id = Some l
           /\ state_in l (channel ch) w' = object_assign (state_in l (channel ch) w) st)
        /\ (exists l w',
              userUpdate c id st w = Normal tt w'
              /\ l = default (length (user_heap w)) (ce_users w !! id)
              /\ ce_users w' !! id = Some l
              /\ roster c w' !! id = Some l
              /\ state_in l (channel ch) w' = object_assign (state_in l (channel ch) w) st))
  /\ (forall id st chat is_me l k,
        ce_users w !! id = Some l ->
        chat_key chat w = Normal k w ->
        exists w' u',
          new_User id st chat is_me w = Normal (length (user_heap w)) w'
          /\ l <> length (user_heap w)
          /\ ce_users w' !! id = Some l
          /\ user_heap w' !! l = user_heap w !! l
          /\ user_heap w' !! length (user_heap w) = Some u'
          /\ uuid u' = id).
Proof.
  intros w.
  destruct (run_well_formed acts (init g) (init_well_formed g)) as [Hwf _].
  fold w in Hwf.
  split; [intros c ch id l; apply (well_formed_roster c ch id l w Hwf)|].
  split; [intros id l; apply (well_formed_table id l w Hwf)|].
  split; [|split].
  - intros more id l Hid.
    destruct (run_well_formed more w Hwf) as [_ [Hsub _]].
    eapply lookup_weaken; eassumption.
  - intros c ch id st Hc Hord. split.
    + destruct (createUser_facts c ch id st false w Hwf Hc (property_ordinary _ _ Hord))
        as (l & w' & Hrun & Hl & Hid & (ch' & Hc' & _ & _ & Hus) & _ & Hst & _).
      exists l, w'. split; [exact Hrun|].
      split; [exact Hl|]. split; [exact Hid|].
      split; [|exact Hst].
      unfold roster. rewrite Hc', Hus. apply lookup_insert_eq.
    + destruct (userUpdate_facts c ch id st w Hwf Hc (property_ordinary _ _ Hord))
        as (l & w' & Hrun & Hl & Hid & (ch' & Hc' & _ & _ & Hus) & _ & Hst & _).
      exists l, w'. split; [exact Hrun|].
      split; [exact Hl|]. split; [exact Hid|].
      split; [|exact Hst].
      unfold roster. rewrite Hc', Hus. apply lookup_insert_eq.
  - intros id st chat is_me l k Hid Hk.
    destruct (new_User_second_object id st chat is_me l k w Hwf Hid Hk)
      as (w' & u' & Hrun & Hne & Htab & Hold & Hnew & Hu & _).
    exists w', u'. split; [exact Hrun|]. split; [exact Hne|].
    split; [rewrite Htab; exact Hid|]. split; [exact Hold|]. split; [exact Hnew | exact Hu].
Qed.

Lemma identity_is_singleton_witness :
  (exists l w',
     createUser 0 "u2" (Some {["mood" := VStr "fine"]}) false
       (session "chat-engine" "u1" None VUndef)
     = Normal l w'
     /\ l = 1
     /\ ce_users w' !! "u2" = Some l
     /\ roster 0 w' !! "u2" = Some l)
  /\ (exists l w',
        userUpdate 0 "u1" (Some {["mood" := VStr "fine"]})
          (session "chat-engine" "u1" None VUndef)
        = Normal tt w'
        /\ l = 0
        /\ ce_users w' !! "u1" = Some l
        /\ roster 0 w' !! "u1" = Some l)
  /\ (exists w' u',
        new_User "u1" None (Some 0) true (session "chat-engine" "u1" None VUndef)
        = Normal 1 w'
        /\ 0 <> 1
        /\ ce_users w' !! "u1" = Some 0
        /\ user_heap w' !! 0 = user_heap (session "chat-engine" "u1" None VUndef) !! 0
        /\ user_heap w' !! 1 = Some u'
        /\ uuid u' = "u1").
Proof.
  assert (Hw : run [DoConnect "u1" None VUndef] (init "chat-engine")
               = session "chat-engine" "u1" None VUndef).
  { cbn [run perform].
    rewrite (connect_complete_init "chat-engine" "u1" None VUndef eq_refl). reflexivity. }
  pose proof (identity_is_singleton "chat-engine" [DoConnect "u1" None VUndef]) as H.
  cbv zeta in H. rewrite Hw in H. destruct H as (_ & _ & _ & H4 & H5).
  split; [|split].
  - destruct (H4 0 (mkChat "chat-engine" {["u1" := 0]} {["$.connected"]} [] false true)
                "u2" (Some {["mood" := VStr "fine"]}) eq_refl eq_refl)
      as [(l & w' & Hrun & Hl & Hid & Hros & _) _].
    exists l, w'. split; [exact Hrun|]. split; [exact Hl|].
    split; [exact Hid | exact Hros].
  - destruct (H4 0 (mkChat "chat-engine" {["u1" := 0]} {["$.connected"]} [] false true)
                "u1" (Some {["mood" := VStr "fine"]}) eq_refl eq_refl)
      as [_ (l & w' & Hrun & Hl & Hid & Hros & _)].
    exists l, w'. split; [exact Hrun|]. split; [exact Hl|].
    split; [exact Hid | exact Hros].
  - destruct (H5 "u1" None (Some 0) true 0 "chat-engine" eq_refl eq_refl)
      as (w' & u' & Hrun & Hne & Htab & Hold & Hnew & Hu).
    exists w', u'. split; [exact Hrun|]. split; [exact Hne|]. split; [exact Htab|].
    split; [exact Hold|]. split; [exact Hnew | exact Hu].
Defined.

(** C9 as stated fails.  After connecting twice as ["u1"] there are two
    users with that id: the table still holds the first (user 0), which is
    also the one in the roster of the new global chat, while
    [ChatEngine.me] is the second (user 1), built by the second [new Me]. *)
Lemma second_connect_builds_second_identity :
  ce_users connected_twice !! "u1" = Some 0
  /\ me connected_twice = Some 1
  /\ uuid <$> user_heap connected_twice !! 0 = Some "u1"
  /\ uuid <$> user_heap connected_twice !! 1 = Some "u1"
  /\ ~ one_identity_per_id connected_twice.
Proof.
  assert (H0 : uuid <$> user_heap connected_twice !! 0 = Some "u1")
    by (vm_compute; reflexivity).
  assert (H1 : uuid <$> user_heap connected_twice !! 1 = Some "u1")
    by (vm_compute; reflexivity).
  split; [vm_compute; reflexivity|]. split; [vm_compute; reflexivity|].
  split; [exact H0|]. split; [exact H1|].
  intros H.
  destruct (user_heap connected_twice !! 0) as [u0|] eqn:E0; [|discriminate H0].
  destruct (user_heap connected_twice !! 1) as [u1|] eqn:E1; [|discriminate H1].
  cbn in H0, H1. injection H0 as H0. injection H1 as H1.
  specialize (H 0 1 u0 u1 E0 E1 (eq_trans H0 (eq_sym H1))). discriminate H.
Qed.

(** ** Replaying history *)

Lemma history_event_differs event : history_event event <> event.
Proof.
  unfold history_event, join. cbn [String.concat]. intros H.
  apply (f_equal String.length) in H. simpl in H.
  change (String.append "" event) with event in H. lia.
Qed.

Lemma restore_plain c known fs : is_Some (restore c known (VObj fs)).
Proof. unfold restore. cbn [is_object negb]. eauto. Qed.

Lemma replay_plain c ch event entries :
  forallb plain_entry entries = true ->
  exists m,
    replay c event entries = Some m
    /\ forall w,
         chat_heap w !! c = Some ch ->
         m w = Normal tt (log (replayed c (plugins ch) (ce_users w) event entries) w).
Proof.
  induction entries as [|entry rest IH]; intros Hall.
  - exists (ret tt). split; [reflexivity|]. intros w _.
    unfold replayed. cbn [List.filter map concat]. rewrite log_nil. reflexivity.
  - cbn [forallb] in Hall. apply andb_true_iff in Hall as [Hentry Hrest].
    destruct (IH Hrest) as (k & Hk & Hrun).
    destruct entry as [| |b|z|s|fs|l|c0|k0]; try discriminate Hentry.
    cbn [plain_entry] in Hentry. cbn [replay replay_entry]. rewrite Hk.
    unfold replayed. cbn [List.filter is_entry_of].
    destruct (get_field "event" fs) as [| |b|z|e|fs'|l|c0|k0] eqn:Hev;
      try discriminate Hentry;
      cbn [loose_eq_string].
    + eexists. split; [reflexivity|]. intros w Hc. cbn [when]. rewrite bind_ret.
      apply Hrun, Hc.
    + eexists. split; [reflexivity|]. intros w Hc.
      destruct (restore_plain c (ce_users w) fs) as [p Hp].
      destruct (bool_decide (e = event)); cbn [when].
      * rewrite (bind_Normal _ _ _ _ _ (trigger_eq c ch w _ _ p Hc Hp)).
        cbv beta.
        rewrite (Hrun (log (told c (plugins ch) (history_event event) p) w) Hc).
        cbn [map concat ce_users log]. rewrite Hp, default_some.
        unfold log. cbn [globalChannel ce_users globalChat me user_heap chat_heap trace].
        rewrite <- app_assoc. reflexivity.
      * rewrite bind_ret. apply Hrun, Hc.
Qed.

Lemma deliveries_replayed name c ps known event entries :
  deliveries name (replayed c ps known event entries)
  = if decide (history_event event = name)
    then length (List.filter (is_entry_of event) entries) else 0.
Proof.
  unfold replayed.
  induction (List.filter (is_entry_of event) entries) as [|entry rest IH];
    cbn [map concat length].
  - destruct (decide _); reflexivity.
  - rewrite deliveries_app, deliveries_told, IH. destruct (decide _); reflexivity.
Qed.

(** X13: replaying history.  When the answer to a history query carries no
    error and its entries are plain objects whose [event], if any, is a
    string, the callback returns, and it has triggered, in order, exactly
    the entries whose [event] is the one asked for, each under
    [$.history.<event>]: the listeners of the live event are not called,
    nothing is published, and the heaps are as they were.  When the answer
    carries an error, the callback throws it and does nothing else. *)
Theorem history_replays_matching c ch w event error entries :
  chat_heap w !! c = Some ch ->
  forallb plain_entry entries = true ->
  (truthy error = true ->
   onHistory c event error entries w = Some (HistoryError error))
  /\ (truthy error = false ->
      exists w',
        onHistory c event error entries w = Some (HistoryReplayed (Normal tt w'))
        /\ w' = log (replayed c (plugins ch) (ce_users w) event entries) w
        /\ deliveries (history_event event) (trace w')
           = deliveries (history_event event) (trace w)
             + length (List.filter (is_entry_of event) entries)
        /\ deliveries event (trace w') = deliveries event (trace w)).
Proof.
  intros Hc Hall. unfold onHistory. split; intros ->; [reflexivity|].
  destruct (replay_plain c ch event entries Hall) as (m & -> & Hrun).
  eexists. split; [rewrite (Hrun w Hc); reflexivity|]. split; [reflexivity|].
  cbn [trace log]. rewrite !deliveries_app, !deliveries_replayed.
  destruct (decide (history_event event = history_event event)); [|congruence].
  destruct (decide (history_event event = event)) as [Heq|_];
    [destruct (history_event_differs event Heq)|].
  split; lia.
Qed.

Lemma history_replays_matching_witness :
  (truthy VUndef = true ->
   onHistory 0 "msg" VUndef
     [VObj (<["event" := VStr "msg"]> {["text" := VStr "a"]});
      VObj (<["event" := VStr "other"]> {["text" := VStr "b"]})]
     (lobby_world [])
   = Some (HistoryError VUndef))
  /\ (truthy VUndef = false ->
      exists w',
        onHistory 0 "msg" VUndef
          [VObj (<["event" := VStr "msg"]> {["text" := VStr "a"]});
           VObj (<["event" := VStr "other"]> {["text" := VStr "b"]})]
          (lobby_world [])
        = Some (HistoryReplayed (Normal tt w'))
        /\ w' = log [Ran 0 "on" "$.history.msg" None VUndef;
                     Local 0 "$.history.msg"
                       (VObj (<["chat" := VChat 0]>
                                (<["event" := VStr "msg"]> {["text" := VStr "a"]})))]
                  (lobby_world [])
        /\ deliveries "$.history.msg" (trace w') = 0 + 1
        /\ deliveries "msg" (trace w') = 0).
Proof.
  refine (history_replays_matching 0 (lobby []) (lobby_world []) "msg" VUndef
            [VObj (<["event" := VStr "msg"]> {["text" := VStr "a"]});
             VObj (<["event" := VStr "other"]> {["text" := VStr "b"]})] _ _);
    reflexivity.
Defined.

(** ** What lasts *)

Lemma chat_kept_refl ch : chat_kept ch ch.
Proof. repeat split; auto. Qed.

Lemma chat_kept_trans a b c : chat_kept a b -> chat_kept b c -> chat_kept a c.
Proof.
  intros (H1 & H2 & H3 & H4 & H5) (K1 & K2 & K3 & K4 & K5).
  split; [congruence|]. split; [congruence|]. split; [auto|].
  split; [etransitivity; eassumption | etransitivity; eassumption].
Qed.

Lemma user_kept_refl u : user_kept u u.
Proof. repeat split; auto. Qed.

Lemma user_kept_trans a b c : user_kept a b -> user_kept b c -> user_kept a c.
Proof.
  intros (H1 & H2 & H3 & H4 & H5 & H6) (K1 & K2 & K3 & K4 & K5 & K6).
  repeat split; try congruence; auto.
Qed.

Lemma heaps_kept_refl w : heaps_kept w w.
Proof.
  split; [reflexivity|]. split; [reflexivity|]. split.
  - intros c ch H. exists ch. split; [exact H | apply chat_kept_refl].
  - intros l u H. exists u. split; [exact H | apply user_kept_refl].
Qed.

Lemma heaps_kept_trans a b c : heaps_kept a b -> heaps_kept b c -> heaps_kept a c.
Proof.
  intros (H1 & H2 & H3 & H4) (K1 & K2 & K3 & K4).
  split; [congruence|]. split; [etransitivity; eassumption|]. split.
  - intros i ch H. destruct (H3 i ch H) as (ch1 & Hb & Hk1).
    destruct (K3 i ch1 Hb) as (ch2 & Hc & Hk2).
    exists ch2. split; [exact Hc | eapply chat_kept_trans; eassumption].
  - intros i u H. destruct (H4 i u H) as (u1 & Hb & Hk1).
    destruct (K4 i u1 Hb) as (u2 & Hc & Hk2).
    exists u2. split; [exact Hc | eapply user_kept_trans; eassumption].
Qed.

(** The primitive changes of the store. *)
Lemma heaps_kept_same w w' :
  globalChannel w' = globalChannel w ->
  trace w `prefix_of` trace w' ->
  chat_heap w `prefix_of` chat_heap w' ->
  user_heap w `prefix_of` user_heap w' ->
  heaps_kept w w'.
Proof.
  intros Hg Ht Hc Hu. split; [exact Hg|]. split; [exact Ht|]. split.
  - intros c ch H. exists ch. split; [|apply chat_kept_refl].
    eapply prefix_lookup_Some; eassumption.
  - intros l u H. exists u. split; [|apply user_kept_refl].
    eapply prefix_lookup_Some; eassumption.
Qed.

Lemma heaps_kept_log e w : heaps_kept w (log e w).
Proof. apply heaps_kept_same; try reflexivity. apply prefix_app_r. reflexivity. Qed.

Lemma heaps_kept_table f w : heaps_kept w (set_ce_users f w).
Proof. apply heaps_kept_same; reflexivity. Qed.

Lemma heaps_kept_globalChat g w : heaps_kept w (set_globalChat g w).
Proof. apply heaps_kept_same; reflexivity. Qed.

Lemma heaps_kept_me m w : heaps_kept w (set_me m w).
Proof. apply heaps_kept_same; reflexivity. Qed.

Lemma heaps_kept_new_chat chs w :
  heaps_kept w (set_chat_heap (fun h => (h ++ chs)%list) w).
Proof. apply heaps_kept_same; try reflexivity. apply prefix_app_r. reflexivity. Qed.

Lemma heaps_kept_new_user us w :
  heaps_kept w (set_user_heap (fun h => (h ++ us)%list) w).
Proof. apply heaps_kept_same; try reflexivity. apply prefix_app_r. reflexivity. Qed.

Lemma heaps_kept_put_chat c ch ch' w :
  chat_heap w !! c = Some ch ->
  chat_kept ch ch' ->
  heaps_kept w (set_chat_heap (fun h => <[c := ch']> h) w).
Proof.
  intros Hc Hk. split; [reflexivity|]. split; [reflexivity|]. split.
  - intros i x Hi. cbn [chat_heap set_chat_heap].
    destruct (decide (i = c)) as [->|Hne].
    + exists ch'. split; [apply (chat_heap_insert_same c ch), Hc|]. congruence.
    + exists x. rewrite list_lookup_insert_ne by congruence.
      split; [exact Hi | apply chat_kept_refl].
  - intros l u H. exists u. split; [exact H | apply user_kept_refl].
Qed.

Lemma heaps_kept_put_user l u u' w :
  user_heap w !! l = Some u ->
  user_kept u u' ->
  heaps_kept w (set_user_heap (fun h => <[l := u']> h) w).
Proof.
  intros Hl Hk. split; [reflexivity|]. split; [reflexivity|]. split.
  - intros c ch H. exists ch. split; [exact H | apply chat_kept_refl].
  - intros i x Hi. cbn [user_heap set_user_heap].
    destruct (decide (i = l)) as [->|Hne].
    + exists u'. split; [|congruence].
      apply list_lookup_insert_eq. apply lookup_lt_is_Some. eauto.
    + exists x. rewrite list_lookup_insert_ne by congruence.
      split; [exact Hi | apply user_kept_refl].
Qed.

(** The rules. *)
Lemma lasting_weaken {A} (P : World -> Prop) (m : M A) : lasting m -> lasting_if P m.
Proof. intros H w _. apply H. exact I. Qed.

Lemma lasting_ret {A} (a : A) : lasting (ret a).
Proof. intros w _. apply heaps_kept_refl. Qed.

Lemma lasting_throw {A} e : lasting (@throw A e).
Proof. intros w _. apply heaps_kept_refl. Qed.

Lemma lasting_gets {A} (f : World -> A) : lasting (gets f).
Proof. intros w _. apply heaps_kept_refl. Qed.

Lemma lasting_modify (f : World -> World) :
  (forall w, heaps_kept w (f w)) -> lasting (modify f).
Proof. intros H w _. apply H. Qed.

Lemma lasting_if_bind {A B} (P : World -> Prop) (m : M A) (k : A -> M B) :
  lasting_if P m -> (forall a, lasting (k a)) -> lasting_if P (bind m k).
Proof.
  intros Hm Hk w Hp. unfold bind. specialize (Hm w Hp).
  destruct (m w) as [a w1|e w1]; [|exact Hm].
  eapply heaps_kept_trans; [exact Hm | apply Hk; exact I].
Qed.

Lemma lasting_bind {A B} (m : M A) (k : A -> M B) :
  lasting m -> (forall a, lasting (k a)) -> lasting (bind m k).
Proof. apply lasting_if_bind. Qed.

Lemma lasting_when b (m : M unit) : lasting m -> lasting (when b m).
Proof. intros H. destruct b; [exact H | apply lasting_ret]. Qed.

Lemma lasting_get_chat {B} c (k : Chat -> M B) :
  (forall ch, lasting_if (fun w => chat_heap w !! c = Some ch) (k ch)) ->
  lasting (bind (get_chat c) k).
Proof.
  intros H w _. unfold bind, get_chat.
  destruct (chat_heap w !! c) as [ch|] eqn:Hc; [|apply heaps_kept_refl].
  apply (H ch w Hc).
Qed.

Lemma lasting_get_user {B} l (k : User -> M B) :
  (forall u, lasting_if (fun w => user_heap w !! l = Some u) (k u)) ->
  lasting (bind (get_user l) k).
Proof.
  intros H w _. unfold bind, get_user.
  destruct (user_heap w !! l) as [u|] eqn:Hl; [|apply heaps_kept_refl].
  apply (H u w Hl).
Qed.

Lemma lasting_put_chat c ch ch' :
  chat_kept ch ch' ->
  lasting_if (fun w => chat_heap w !! c = Some ch) (put_chat c ch').
Proof. intros Hk w Hc. apply (heaps_kept_put_chat c ch ch' w Hc Hk). Qed.

Lemma lasting_put_user l u u' :
  user_kept u u' ->
  lasting_if (fun w => user_heap w !! l = Some u) (put_user l u').
Proof. intros Hk w Hl. apply (heaps_kept_put_user l u u' w Hl Hk). Qed.

Create HintDb lasting.

#[local] Hint Resolve lasting_ret lasting_throw lasting_gets heaps_kept_log heaps_kept_table
  heaps_kept_globalChat heaps_kept_me heaps_kept_new_chat heaps_kept_new_user
  chat_kept_refl user_kept_refl : lasting.

(** One step through a method.  What is left are the goals about the
    records written back. *)
Ltac lasting_step :=
  cbv beta;
  match goal with
  | |- lasting_if _ (bind (put_chat _ _) _) =>
      apply lasting_if_bind; [apply lasting_put_chat | intros ?]
  | |- lasting_if _ (put_chat _ _) => apply lasting_put_chat
  | |- lasting_if _ (bind (put_user _ _) _) =>
      apply lasting_if_bind; [apply lasting_put_user | intros ?]
  | |- lasting_if _ (put_user _ _) => apply lasting_put_user
  | |- lasting_if _ (if ?b then _ else _) => destruct b
  | |- lasting_if _ (match ?x with _ => _ end) => destruct x
  | |- lasting (if ?b then _ else _) => destruct b
  | |- lasting (match ?x with _ => _ end) => destruct x
  | |- lasting (ret _) => apply lasting_ret
  | |- lasting (throw _) => apply lasting_throw
  | |- lasting (gets _) => apply lasting_gets
  | |- lasting (modify _) => apply lasting_modify; intros; solve [auto with lasting]
  | |- lasting (when _ _) => apply lasting_when
  | |- lasting (bind (get_chat _) _) => apply lasting_get_chat; intros ?
  | |- lasting (bind (get_user _) _) => apply lasting_get_user; intros ?
  | |- lasting (bind _ _) => apply lasting_bind; [|intros ?]
  | |- lasting _ => solve [auto with lasting]
  | |- lasting_if _ _ => apply lasting_weaken
  end.

Ltac lasting_auto := repeat lasting_step.

Lemma runPluginQueue_lasting c location event first :
  lasting (runPluginQueue c location event first).
Proof. unfold runPluginQueue. lasting_auto. Qed.
#[local] Hint Resolve runPluginQueue_lasting : lasting.

Lemma trigger_lasting c event payload : lasting (trigger c event payload).
Proof. unfold trigger. lasting_auto. Qed.
#[local] Hint Resolve trigger_lasting : lasting.

Lemma plugin_lasting c module : lasting (plugin c module).
Proof.
  unfold plugin. lasting_auto.
  repeat split; try reflexivity; auto. cbn [plugins set_plugins].
  apply prefix_app_r. reflexivity.
Qed.
#[local] Hint Resolve plugin_lasting : lasting.

Lemma me_uuid_lasting : lasting me_uuid.
Proof. unfold me_uuid. lasting_auto. Qed.
#[local] Hint Resolve me_uuid_lasting : lasting.

Lemma ensure_event_lasting c event : lasting (ensure_event c event).
Proof.
  unfold ensure_event. lasting_auto.
  repeat split; try reflexivity; auto. cbn [events set_events]. apply union_subseteq_r.
Qed.
#[local] Hint Resolve ensure_event_lasting : lasting.

Lemma publish_lasting c event m : lasting (publish c event m).
Proof. unfold publish. lasting_auto. Qed.
#[local] Hint Resolve publish_lasting : lasting.

Lemma emit_lasting c event data : lasting (emit c event data).
Proof. unfold emit. lasting_auto. Qed.
#[local] Hint Resolve emit_lasting : lasting.

Lemma onMessage_lasting c event chan m : lasting (onMessage c event chan m).
Proof. unfold onMessage. lasting_auto. Qed.
#[local] Hint Resolve onMessage_lasting : lasting.

Lemma connect_lasting c : lasting (connect c).
Proof. unfold connect. lasting_auto. Qed.
#[local] Hint Resolve connect_lasting : lasting.

Lemma onPrep_lasting c : lasting (onPrep c).
Proof. unfold onPrep. lasting_auto. Qed.
#[local] Hint Resolve onPrep_lasting : lasting.

Lemma grant_lasting c : lasting (grant c).
Proof. unfold grant. lasting_auto. Qed.
#[local] Hint Resolve grant_lasting : lasting.

Lemma new_Chat_lasting chan auto needGrant : lasting (new_Chat chan auto needGrant).
Proof. unfold new_Chat. lasting_auto. Qed.
#[local] Hint Resolve new_Chat_lasting : lasting.

Lemma onStatus_lasting c ev : lasting (onStatus c ev).
Proof.
  unfold onStatus. lasting_auto.
  repeat split; try reflexivity; auto.
Qed.
#[local] Hint Resolve onStatus_lasting : lasting.

Lemma leave_lasting c : lasting (leave c).
Proof. unfold leave. lasting_auto. Qed.
#[local] Hint Resolve leave_lasting : lasting.

Lemma setState_lasting c st : lasting (setState c st).
Proof. unfold setState. lasting_auto. Qed.
#[local] Hint Resolve setState_lasting : lasting.

Lemma chat_key_lasting chat : lasting (chat_key chat).
Proof. unfold chat_key. lasting_auto. Qed.
#[local] Hint Resolve chat_key_lasting : lasting.

Lemma state_lasting l chat : lasting (state l chat).
Proof. unfold state. lasting_auto. Qed.
#[local] Hint Resolve state_lasting : lasting.

Lemma update_lasting l st chat : lasting (update l st chat).
Proof.
  unfold update. lasting_auto.
  repeat split; try reflexivity; auto. cbn [states set_states].
  intros k' Hk'. apply lookup_insert_is_Some'. right. exact Hk'.
Qed.
#[local] Hint Resolve update_lasting : lasting.

Lemma assign_lasting l st chat : lasting (assign l st chat).
Proof. unfold assign. apply update_lasting. Qed.
#[local] Hint Resolve assign_lasting : lasting.

Lemma me_update_lasting l st chat : lasting (me_update l st chat).
Proof. unfold me_update. lasting_auto. Qed.
#[local] Hint Resolve me_update_lasting : lasting.

Lemma addChat_lasting l c st : lasting (addChat l c st).
Proof.
  unfold addChat. lasting_auto.
  repeat split; try reflexivity; auto. cbn [chats set_chats].
  intros k' Hk'. apply lookup_insert_is_Some'. right. exact Hk'.
Qed.
#[local] Hint Resolve addChat_lasting : lasting.

Lemma globalChat_channel_lasting : lasting globalChat_channel.
Proof. unfold globalChat_channel. lasting_auto. Qed.
#[local] Hint Resolve globalChat_channel_lasting : lasting.

Lemma new_User_lasting id st chat is_me : lasting (new_User id st chat is_me).
Proof. unfold new_User. lasting_auto. Qed.
#[local] Hint Resolve new_User_lasting : lasting.

Lemma new_Me_lasting id auth : lasting (new_Me id auth).
Proof.
  unfold new_Me. lasting_auto.
  repeat split; try reflexivity; auto.
Qed.
#[local] Hint Resolve new_Me_lasting : lasting.

Lemma ensure_user_lasting id : lasting (ensure_user id).
Proof. unfold ensure_user. lasting_auto. Qed.
#[local] Hint Resolve ensure_user_lasting : lasting.

Lemma createUser_lasting c id st force : lasting (createUser c id st force).
Proof.
  unfold createUser. lasting_auto.
  repeat split; try reflexivity; auto.
Qed.
#[local] Hint Resolve createUser_lasting : lasting.

Lemma userUpdate_lasting c id st : lasting (userUpdate c id st).
Proof. unfold userUpdate. lasting_auto. Qed.
#[local] Hint Resolve userUpdate_lasting : lasting.

Lemma userLeave_lasting c id : lasting (userLeave c id).
Proof.
  unfold userLeave. lasting_auto.
  repeat split; try reflexivity; auto.
Qed.
#[local] Hint Resolve userLeave_lasting : lasting.

Lemma userDisconnect_lasting c id : lasting (userDisconnect c id).
Proof. unfold userDisconnect. lasting_auto. Qed.
#[local] Hint Resolve userDisconnect_lasting : lasting.

Lemma onPresence_lasting c ev : lasting (onPresence c ev).
Proof. unfold onPresence. lasting_auto. Qed.
#[local] Hint Resolve onPresence_lasting : lasting.

Lemma each_occupant_lasting c occupants : lasting (each_occupant c occupants).
Proof.
  induction occupants as [|[id st] rest IH]; cbn [each_occupant]; lasting_auto.
Qed.
#[local] Hint Resolve each_occupant_lasting : lasting.

Lemma onHereNow_lasting c error occupants : lasting (onHereNow c error occupants).
Proof. unfold onHereNow. lasting_auto. Qed.
#[local] Hint Resolve onHereNow_lasting : lasting.

Lemma connect_complete_lasting id st auth : lasting (connect_complete id st auth).
Proof. unfold connect_complete. lasting_auto. Qed.
#[local] Hint Resolve connect_complete_lasting : lasting.

Lemma perform_lasting a : lasting (perform a).
Proof. destruct a; cbn [perform]; lasting_auto. Qed.

Lemma run_heaps_kept acts : forall w, heaps_kept w (run acts w).
Proof.
  induction acts as [|a acts IH]; intros w; cbn [run].
  - apply heaps_kept_refl.
  - eapply heaps_kept_trans; [apply (perform_lasting a w I) | apply IH].
Qed.

(** X14: nothing takes back what a chat has.  Whatever the application and
    the transport do afterwards, a chat stays in place with the channel and
    the [autoConnect] choice it was built with; once its [connected] flag is
    set nothing resets it (no status category, no [leave]); and none of its
    [Event]s and plugins is ever removed, new plugins coming after the
    old. *)
Theorem chat_never_regresses acts w c ch :
  chat_heap w !! c = Some ch ->
  exists ch',
    chat_heap (run acts w) !! c = Some ch'
    /\ channel ch' = channel ch
    /\ autoConnect ch' = autoConnect ch
    /\ (connected ch = true -> connected ch' = true)
    /\ events ch ⊆ events ch'
    /\ plugins ch `prefix_of` plugins ch'.
Proof.
  intros Hc. destruct (run_heaps_kept acts w) as (_ & _ & Hchats & _).
  destruct (Hchats c ch Hc) as (ch' & Hc' & Hk). exists ch'. split; [exact Hc' | exact Hk].
Qed.

Lemma chat_never_regresses_witness :
  exists ch',
    chat_heap
      (run [OnStatus 0 (mkStatus true "PNNetworkDownCategory" [lobby_channel]);
            DoLeave 0;
            DoPlugin 0 (marker_plugin "P1" "on" "msg");
            OnPresence 0 (mkPresence "leave" "u2" None lobby_channel)]
         connected_lobby_world) !! 0 = Some ch'
    /\ channel ch' = lobby_channel
    /\ autoConnect ch' = false
    /\ (true = true -> connected ch' = true)
    /\ (∅ : gset string) ⊆ events ch'
    /\ [] `prefix_of` plugins ch'.
Proof.
  refine (chat_never_regresses
            [OnStatus 0 (mkStatus true "PNNetworkDownCategory" [lobby_channel]);
             DoLeave 0;
             DoPlugin 0 (marker_plugin "P1" "on" "msg");
             OnPresence 0 (mkPresence "leave" "u2" None lobby_channel)]
            connected_lobby_world 0 (mkChat lobby_channel ∅ ∅ [] true false) _).
  reflexivity.
Defined.

(** X15: nothing takes back what a user has.  Whatever happens afterwards,
    a user object keeps its uuid, its feed and direct chats and its kind
    ([Me] or not), and no chat it has a state in, or is recorded in, is ever
    dropped from its [states] and [chats]: leaving a room removes the user
    from the roster, not the room from the user. *)
Theorem user_never_regresses acts w l u :
  user_heap w !! l = Some u ->
  exists u',
    user_heap (run acts w) !! l = Some u'
    /\ uuid u' = uuid u
    /\ feed u' = feed u
    /\ direct u' = direct u
    /\ isMe u' = isMe u
    /\ (forall k, is_Some (states u !! k) -> is_Some (states u' !! k))
    /\ (forall k, is_Some (chats u !! k) -> is_Some (chats u' !! k)).
Proof.
  intros Hl. destruct (run_heaps_kept acts w) as (_ & _ & _ & Husers).
  destruct (Husers l u Hl) as (u' & Hl' & Hk). exists u'. split; [exact Hl' | exact Hk].
Qed.

Lemma user_never_regresses_witness :
  exists u',
    user_heap
      (run [OnPresence 0 (mkPresence "state-change" "u2" (Some {["mood" := VStr "fine"]})
                            lobby_channel);
            OnPresence 0 (mkPresence "leave" "u2" None lobby_channel);
            DoNewUser "u2" None None]
         lobby_with_bob) !! 0 = Some u'
    /\ uuid u' = "u2"
    /\ feed u' = 1
    /\ direct u' = 2
    /\ isMe u' = false
    /\ (forall k, is_Some ((∅ : gmap string (gmap string value)) !! k)
                  -> is_Some (states u' !! k))
    /\ (forall k, is_Some ((∅ : gmap string nat) !! k) -> is_Some (chats u' !! k)).
Proof.
  refine (user_never_regresses
            [OnPresence 0 (mkPresence "state-change" "u2" (Some {["mood" := VStr "fine"]})
                             lobby_channel);
             OnPresence 0 (mkPresence "leave" "u2" None lobby_channel);
             DoNewUser "u2" None None]
            lobby_with_bob 0 bob _).
  reflexivity.
Defined.

(** ** Reconciliation is local *)

Lemma local_only_ret {A} (a : A) : local_only (ret a).
Proof. intros w. reflexivity. Qed.

Lemma local_only_throw {A} e : local_only (@throw A e).
Proof. intros w. reflexivity. Qed.

Lemma local_only_gets {A} (f : World -> A) : local_only (gets f).
Proof. intros w. reflexivity. Qed.

Lemma local_only_modify (f : World -> World) :
  (forall w, requests (trace (f w)) = requests (trace w)) -> local_only (modify f).
Proof. intros H w. apply H. Qed.

Lemma local_only_bind {A B} (m : M A) (k : A -> M B) :
  local_only m -> (forall a, local_only (k a)) -> local_only (bind m k).
Proof.
  intros Hm Hk w. unfold bind. specialize (Hm w).
  destruct (m w) as [a w1|e w1]; [|exact Hm].
  rewrite <- Hm. apply Hk.
Qed.

Lemma local_only_when b (m : M unit) : local_only m -> local_only (when b m).
Proof. intros H. destruct b; [exact H | apply local_only_ret]. Qed.

Lemma local_only_get_chat c : local_only (get_chat c).
Proof. intros w. unfold get_chat. destruct (chat_heap w !! c); reflexivity. Qed.

Lemma local_only_get_user l : local_only (get_user l).
Proof. intros w. unfold get_user. destruct (user_heap w !! l); reflexivity. Qed.

Lemma local_only_put_chat c ch : local_only (put_chat c ch).
Proof. intros w. reflexivity. Qed.

Lemma local_only_put_user l u : local_only (put_user l u).
Proof. intros w. reflexivity. Qed.

Lemma requests_ran tr c location event called :
  requests (tr ++ ran c location event called)%list = requests tr.
Proof.
  unfold requests. rewrite List.filter_app, filter_ran by reflexivity. apply app_nil_r.
Qed.

Lemma requests_local tr c event payload :
  requests (tr ++ [Local c event payload])%list = requests tr.
Proof. unfold requests. rewrite List.filter_app. apply app_nil_r. Qed.

Create HintDb local_only.

#[local] Hint Resolve local_only_ret local_only_throw local_only_gets local_only_get_chat
  local_only_get_user local_only_put_chat local_only_put_user : local_only.

Ltac local_step :=
  cbv beta;
  match goal with
  | |- local_only (if ?b then _ else _) => destruct b
  | |- local_only (match ?x with _ => _ end) => destruct x
  | |- local_only (when _ _) => apply local_only_when
  | |- local_only (bind _ _) => apply local_only_bind; [|intros ?]
  | |- local_only (modify _) =>
      apply local_only_modify; intros ?;
      first [reflexivity | apply requests_ran | apply requests_local]
  | |- local_only _ => solve [auto with local_only]
  end.

Ltac local_auto := repeat local_step.

Lemma runPluginQueue_local c location event first :
  local_only (runPluginQueue c location event first).
Proof. unfold runPluginQueue. local_auto. Qed.
#[local] Hint Resolve runPluginQueue_local : local_only.

Lemma trigger_local c event payload : local_only (trigger c event payload).
Proof. unfold trigger. local_auto. Qed.
#[local] Hint Resolve trigger_local : local_only.

Lemma chat_key_local chat : local_only (chat_key chat).
Proof. unfold chat_key. local_auto. Qed.
#[local] Hint Resolve chat_key_local : local_only.

Lemma state_local l chat : local_only (state l chat).
Proof. unfold state. local_auto. Qed.
#[local] Hint Resolve state_local : local_only.

Lemma update_local l st chat : local_only (update l st chat).
Proof. unfold update. local_auto. Qed.
#[local] Hint Resolve update_local : local_only.

Lemma assign_local l st chat : local_only (assign l st chat).
Proof. unfold assign. apply update_local. Qed.
#[local] Hint Resolve assign_local : local_only.

Lemma addChat_local l c st : local_only (addChat l c st).
Proof. unfold addChat. local_auto. Qed.
#[local] Hint Resolve addChat_local : local_only.

Lemma globalChat_channel_local : local_only globalChat_channel.
Proof. unfold globalChat_channel. local_auto. Qed.
#[local] Hint Resolve globalChat_channel_local : local_only.

(** A chat built for another user neither asks for a grant nor connects. *)
Lemma new_Chat_local chan : local_only (new_Chat chan false false).
Proof.
  intros w. rewrite new_Chat_eq. cbn [final_world trace log set_chat_heap].
  rewrite app_nil_r. reflexivity.
Qed.
#[local] Hint Resolve new_Chat_local : local_only.

Lemma new_User_local id st chat : local_only (new_User id st chat false).
Proof. unfold new_User. local_auto. Qed.
#[local] Hint Resolve new_User_local : local_only.

Lemma ensure_user_local id : local_only (ensure_user id).
Proof. unfold ensure_user. local_auto. Qed.
#[local] Hint Resolve ensure_user_local : local_only.

Lemma createUser_local c id st force : local_only (createUser c id st force).
Proof. unfold createUser. local_auto. Qed.
#[local] Hint Resolve createUser_local : local_only.

Lemma userUpdate_local c id st : local_only (userUpdate c id st).
Proof. unfold userUpdate. local_auto. Qed.
#[local] Hint Resolve userUpdate_local : local_only.

Lemma userLeave_local c id : local_only (userLeave c id).
Proof. unfold userLeave. local_auto. Qed.
#[local] Hint Resolve userLeave_local : local_only.

Lemma userDisconnect_local c id : local_only (userDisconnect c id).
Proof. unfold userDisconnect. local_auto. Qed.
#[local] Hint Resolve userDisconnect_local : local_only.

Lemma onPresence_local c ev : local_only (onPresence c ev).
Proof. unfold onPresence. local_auto. Qed.

Lemma each_occupant_local c occupants : local_only (each_occupant c occupants).
Proof.
  induction occupants as [|[id st] rest IH]; cbn [each_occupant]; local_auto.
Qed.

(** X16: reconciliation is local.  Whatever a presence notification or an
    occupancy answer says, and whoever it is about (the session's own user
    included), handling it asks nothing of the transport or of the
    authorisation service: nothing is published, no state is set, no
    subscription or grant is asked for, also for the feed and direct chats
    of the users it creates; only plugin handlers and local listeners are
    called.  With an error, the occupancy answer asks for one console
    message. *)
Theorem reconciliation_asks_nothing c w :
  (forall ev, requests (trace (final_world (onPresence c ev w))) = requests (trace w))
  /\ (forall occupants,
        requests (trace (final_world (onHereNow c false occupants w))) = requests (trace w))
  /\ (forall occupants,
        requests (trace (final_world (onHereNow c true occupants w)))
        = (requests (trace w) ++ [ConsoleLog])%list)
  /\ (forall evs,
        requests (trace (run (map (OnPresence c) evs) w)) = requests (trace w)).
Proof.
  split; [intros ev; apply onPresence_local|].
  split; [intros occupants; apply each_occupant_local|].
  split.
  - intros occupants. cbn [onHereNow final_world modify trace log].
    unfold requests. rewrite List.filter_app. reflexivity.
  - intros evs. revert w. induction evs as [|ev evs IH]; intros w; [reflexivity|].
    cbn [map run perform]. rewrite IH. apply onPresence_local.
Qed.

(** ** A first join *)

(** X17: from a fresh [ChatEngine], after the session is established and a
    chat is built, the first join notification on that chat's channel about
    another id creates the user (user 1, with the id), enters it in the
    global table beside the session's own user and in the chat's roster
    (its only member), gives it the notified state as its state in that
    chat, and triggers on that chat one [$.online.new] and then one
    [$.online.join] about it, and nothing else.  Neither id is the name of
    a member of [Object.prototype]. *)
Theorem first_join_in_new_room g id1 st1 auth name auto needGrant id2 st2 :
  id2 <> id1 ->
  inherited id1 = false ->
  inherited id2 = false ->
  let room := chat_channel g name needGrant in
  let w := run [DoConnect id1 st1 auth;
                DoNewChat name auto needGrant;
                OnPresence 3 (mkPresence "join" id2 st2 room)] (init g) in
  roster 3 w = {[id2 := 1]}
  /\ ce_users w !! id2 = Some 1
  /\ ce_users w !! id1 = Some 0
  /\ (exists u, user_heap w !! 1 = Some u /\ uuid u = id2)
  /\ state_in 1 room w = object_assign ∅ st2
  /\ trace w
     = (trace (session g id1 st1 auth)
        ++ room_effects g name auto needGrant
        ++ [Ran 3 "on" "$.online.new" None VUndef;
            Local 3 "$.online.new" (about_user 3 1);
            Ran 3 "on" "$.online.join" None VUndef;
            Local 3 "$.online.join" (about_user 3 1)])%list.
Proof.
  intros Hne Hord1 Hord2 room w.
  assert (Hwf : well_formed
                  (run [DoConnect id1 st1 auth; DoNewChat name auto needGrant] (init g))).
  { apply run_well_formed. apply init_well_formed. }
  subst w. cbn [run perform] in *.
  rewrite (connect_complete_init g id1 st1 auth Hord1) in *. cbn [final_world] in *.
  rewrite (bind_Normal _ _ _ _ _ (new_Chat_eq _ _ _ _)) in *. unfold ret in *.
  cbn [final_world] in *.
  change (globalChannel (session g id1 st1 auth)) with g in *. fold room in Hwf |- *.
  fold (room_effects g name auto needGrant) in Hwf |- *.
  set (w1 := log _ _) in *.
  set (ev := mkPresence "join" id2 st2 room).
  set (ch := mkChat room ∅ ∅ [] false auto).
  assert (Hc : chat_heap w1 !! 3 = Some ch) by reflexivity.
  assert (Htab : ce_users w1 = {[id1 := 0]}) by reflexivity.
  assert (Htr : trace w1 = (trace (session g id1 st1 auth)
                            ++ room_effects g name auto needGrant)%list) by reflexivity.
  assert (Hnew : user_heap w1 !! 1 = None) by reflexivity.
  assert (Hlen : length (user_heap w1) = 1) by reflexivity.
  clearbody w1.
  destruct (createUser_facts 3 ch id2 st2 false w1 Hwf Hc (property_ordinary _ _ Hord2))
    as (l & w' & Hcu & Hl & Hid & (ch' & Hc' & Hch' & Hpl & Hus) & _ & Hst & Htr').
  rewrite Htab, lookup_singleton_ne, Hlen in Hl by congruence. cbn in Hl. subst l.
  assert (Hrun : onPresence 3 ev w1
                 = Normal tt (log (told 3 (plugins ch') "$.online.join" (about_user 3 1)) w')).
  { rewrite (onPresence_join 3 ch w1 ev Hc eq_refl eq_refl).
    cbn [pe_uuid pe_state ev]. rewrite (bind_Normal _ _ _ _ _ Hcu).
    apply (trigger_eq 3 ch' w' _ _ _ Hc' (restore_user _ _ _)). }
  pose proof (safe_final (onPresence 3 ev) w1 (onPresence_safe 3 ev) Hwf) as [Hwf' [Hsub _]].
  rewrite Hrun in *. cbn [final_world] in *.
  split; [|split; [|split; [|split; [|split]]]].
  - unfold roster. cbn [chat_heap log]. rewrite Hc', Hus. apply insert_empty.
  - exact Hid.
  - cbn [ce_users log] in *. eapply lookup_weaken; [|exact Hsub].
    rewrite Htab. apply lookup_singleton_eq.
  - apply (well_formed_table id2 1 _ Hwf'). exact Hid.
  - unfold state_in in *. cbn [user_heap log]. fold room in Hst.
    cbn [channel ch] in Hst. rewrite Hst, Hnew. destruct st2; reflexivity.
  - cbn [trace log]. rewrite Htr', Htr, Hpl. cbn [users plugins ch].
    rewrite (property_missing _ _ (lookup_empty id2) Hord2). cbn [present negb orb].
    rewrite <- !app_assoc. reflexivity.
Qed.

Lemma first_join_in_new_room_witness :
  roster 3
    (run [DoConnect "u1" None VUndef;
          DoNewChat "lobby" true false;
          OnPresence 3 (mkPresence "join" "u2" (Some {["name" := VStr "Bob"]})
                          (chat_channel "chat-engine" "lobby" false))]
       (init "chat-engine"))
  = {["u2" := 1]}
  /\ state_in 1 (chat_channel "chat-engine" "lobby" false)
       (run [DoConnect "u1" None VUndef;
             DoNewChat "lobby" true false;
             OnPresence 3 (mkPresence "join" "u2" (Some {["name" := VStr "Bob"]})
                             (chat_channel "chat-engine" "lobby" false))]
          (init "chat-engine"))
     = object_assign ∅ (Some {["name" := VStr "Bob"]}).
Proof.
  destruct (first_join_in_new_room "chat-engine" "u1" None VUndef "lobby" true false "u2"
              (Some {["name" := VStr "Bob"]}))
    as (H1 & _ & _ & _ & H2 & _); [discriminate | reflexivity | reflexivity |].
  split; [exact H1 | exact H2].
Defined.

(** ** What [trigger] does to the payload *)

(** X18: [trigger] completes a payload, it does not overwrite it.  A plain
    object gets this chat under [chat] only when it has none (or a falsy
    one); its [sender], when it is truthy, is replaced by what
    [ChatEngine.users] has under that name (the user of that name, or the
    member of [Object.prototype] when the name is one and no user's) and is
    left as it is when there is nothing; every other property goes to the
    queue as it came.  A primitive or [undefined] goes to the queue
    untouched, and [null] makes [trigger] throw a [TypeError] before any
    handler or listener is called.  The sender is one whose property name
    [to_key] gives. *)
Theorem trigger_restores_payload c ch w event payload :
  chat_heap w !! c = Some ch ->
  match payload with
  | VNull => trigger c event payload w = Thrown TypeError w
  | VObj fs =>
      keyed (get_field "sender" fs) = true ->
      exists fs',
        trigger c event payload w
        = Normal tt (log (told c (plugins ch) event (VObj fs')) w)
        /\ fs' !! "chat"
           = (if truthy (get_field "chat" fs) then fs !! "chat" else Some (VChat c))
        /\ fs' !! "sender"
           = (if truthy (get_field "sender" fs)
              then match property (ce_users w) (to_key (get_field "sender" fs)) with
                   | Own l => Some (VUser l)
                   | Inherited => Some (VNative (to_key (get_field "sender" fs)))
                   | Missing => fs !! "sender"
                   end
              else fs !! "sender")
        /\ forall k, k <> "chat" -> k <> "sender" -> fs' !! k = fs !! k
  | VUser _ | VChat _ | VNative _ => True
  | _ => trigger c event payload w = Normal tt (log (told c (plugins ch) event payload) w)
  end.
Proof.
  intros Hc.
  destruct payload as [| |b|z|s|fs|l|c0|k0]; try exact I;
    try (apply (trigger_eq c ch w); [exact Hc | reflexivity]).
  - reflexivity.
  - intros _.
    destruct (restore_plain c (ce_users w) fs) as [p Hp].
    pose proof Hp as Hp'. unfold restore in Hp'. cbn [is_object negb] in Hp'.
    cbv zeta in Hp'.
    assert (Hsender : get_field "sender"
                        (if truthy (get_field "chat" fs) then fs
                         else <["chat" := VChat c]> fs)
                      = get_field "sender" fs).
    { destruct (truthy (get_field "chat" fs)); [reflexivity|].
      unfold get_field. rewrite lookup_insert_ne by discriminate. reflexivity. }
    rewrite Hsender in Hp'. injection Hp' as <-.
    eexists. split; [apply (trigger_eq c ch w); [exact Hc | exact Hp]|].
    unfold get_field in *.
    assert (Hchat : forall v : value,
              (<["sender" := v]> (if truthy (default VUndef (fs !! "chat")) then fs
                                  else <["chat" := VChat c]> fs)) !! "chat"
              = (if truthy (default VUndef (fs !! "chat")) then fs !! "chat"
                 else Some (VChat c))).
    { intros v. rewrite lookup_insert_ne by discriminate.
      destruct (truthy (default VUndef (fs !! "chat")));
        [reflexivity | apply lookup_insert_eq]. }
    assert (Hother : forall (v : value) k, k <> "chat" -> k <> "sender" ->
              (<["sender" := v]> (if truthy (default VUndef (fs !! "chat")) then fs
                                  else <["chat" := VChat c]> fs)) !! k = fs !! k).
    { intros v k H1 H2. rewrite lookup_insert_ne by congruence.
      destruct (truthy (default VUndef (fs !! "chat")));
        [reflexivity | rewrite lookup_insert_ne by congruence; reflexivity]. }
    assert (Hplain : (if truthy (default VUndef (fs !! "chat")) then fs
                      else <["chat" := VChat c]> fs) !! "chat"
                     = (if truthy (default VUndef (fs !! "chat")) then fs !! "chat"
                        else Some (VChat c))
                     /\ (if truthy (default VUndef (fs !! "chat")) then fs
                         else <["chat" := VChat c]> fs) !! "sender" = fs !! "sender"
                     /\ forall k, k <> "chat" -> k <> "sender" ->
                          (if truthy (default VUndef (fs !! "chat")) then fs
                           else <["chat" := VChat c]> fs) !! k = fs !! k).
    { destruct (truthy (default VUndef (fs !! "chat")));
        [repeat split; reflexivity|].
      split; [apply lookup_insert_eq|].
      split; [rewrite lookup_insert_ne by discriminate; reflexivity|].
      intros k H1 H2. rewrite lookup_insert_ne by congruence. reflexivity. }
    destruct (truthy (default VUndef (fs !! "sender"))); [|exact Hplain].
    destruct (property (ce_users w) (to_key (default VUndef (fs !! "sender"))))
      as [l| |]; [| |exact Hplain].
    + split; [apply Hchat|]. split; [apply lookup_insert_eq | apply Hother].
    + split; [apply Hchat|]. split; [apply lookup_insert_eq | apply Hother].
Qed.

Lemma trigger_restores_payload_witness :
  (exists fs',
     trigger 0 "msg" (VObj (<["sender" := VStr "u2"]> {["data" := VStr "hi"]}))
       lobby_with_bob
     = Normal tt
         (log [Ran 0 "on" "msg" None VUndef; Local 0 "msg" (VObj fs')] lobby_with_bob)
     /\ fs' !! "chat" = Some (VChat 0)
     /\ fs' !! "sender" = Some (VUser 0)
     /\ forall k, k <> "chat" -> k <> "sender" ->
          fs' !! k = (<["sender" := VStr "u2"]> {["data" := VStr "hi"]} : gmap string value) !! k)
  /\ (exists fs',
        trigger 0 "msg" (VObj (<["sender" := VStr "constructor"]> {["data" := VStr "hi"]}))
          lobby_with_bob
        = Normal tt
            (log [Ran 0 "on" "msg" None VUndef; Local 0 "msg" (VObj fs')] lobby_with_bob)
        /\ fs' !! "chat" = Some (VChat 0)
        /\ fs' !! "sender" = Some (VNative "constructor")
        /\ forall k, k <> "chat" -> k <> "sender" ->
             fs' !! k
             = (<["sender" := VStr "constructor"]> {["data" := VStr "hi"]}
                : gmap string value) !! k)
  /\ trigger 0 "msg" VNull lobby_with_bob = Thrown TypeError lobby_with_bob.
Proof.
  split; [|split].
  - exact (trigger_restores_payload 0 (mkChat lobby_channel {["u2" := 0]} ∅ [] false false)
             lobby_with_bob "msg"
             (VObj (<["sender" := VStr "u2"]> {["data" := VStr "hi"]})) eq_refl eq_refl).
  - exact (trigger_restores_payload 0 (mkChat lobby_channel {["u2" := 0]} ∅ [] false false)
             lobby_with_bob "msg"
             (VObj (<["sender" := VStr "constructor"]> {["data" := VStr "hi"]}))
             eq_refl eq_refl).
  - exact (trigger_restores_payload 0 (mkChat lobby_channel {["u2" := 0]} ∅ [] false false)
             lobby_with_bob "msg" VNull eq_refl).
Defined.
